(** * HashMap.hpp: a separate-chaining hash table with load-factor driven resizing

    A shallow embedding of the class template [HashMap<KeyT, ValueT>] of
    [HashMap.hpp] and of its iterator [PointerToPair], and of the functions
    [makeStringLowerCase] and [createDatabaseMap] of [SpamDetector.cpp],
    followed by the properties of the table that the specification states
    and by further properties of the code.  [generateScore] and [main] are
    left out: [generateScore] reads the message with [readsome], whose
    result depends on the implementation of the stream buffer.

    Modelling conventions
    - [long] values ([_capacity], [_size], bucket indices) are integers of [Z];
      the three places where the source does arithmetic that can leave the
      range of a [long] ([++_size], [--_size], [newCapacity *= TABLE_FACTOR])
      go through [long_check], which reports signed overflow as
      [undefined_behaviour].
    - [double] values are rationals of [Q].  The only doubles the class computes
      are quotients [(double) _size / capacity]; for a capacity that is a power
      of two and a size below 2^53 that quotient is exact, so the comparison
      with a bound gives the same answer over [Q].  NaN and the infinities
      have no counterpart here.
    - the bucket array [_table] is a list of buckets, a bucket is a list of
      pairs; reading [_table[i]] outside the array is [undefined_behaviour].
    - exceptions and abnormal termination are the [Throw] results of the
      monad [result]: [invalid_argument] and [out_of_range] are the two
      exceptions the class throws, [exit_failure] is the [exit] of its
      [bad_alloc] handlers, [out_of_fuel] marks a loop of the model that was
      cut short.  Allocation of a non-negative number of buckets never fails:
      neither the exhaustion of memory nor the limit on the size of an
      array has a counterpart here.
    - a [vector] iterator is the pair (bucket, offset) it points at. *)

From Stdlib Require Import ZArith QArith Lia Lqa.
From stdpp Require Import base tactics option numbers gmap list.

Local Open Scope Z_scope.

(** ** Constants *)

Definition TABLE_FACTOR : Z := 2.
Definition INITIAL_CAPACITY : Z := 16.
Definition DEFAULT_LOWER_LOAD_FACTOR : Q := 1 # 4.
Definition DEFAULT_UPPER_LOAD_FACTOR : Q := 3 # 4.

(** The message constants of the source, by name. *)
Inductive message : Set :=
| MEMORY_ERROR_MSG
| DIFFERENT_SIZE_VECTORS_ERROR_MSG
| INVALID_LOAD_FACTORS_LOWER_HIGHER
| INVALID_LOAD_FACTORS_OUT_RANGE
| KEY_DOSENT_EXIST_ERROR.

(** ** Results: a value, an exception, or an abnormal end *)

Inductive error : Set :=
| invalid_argument (msg : message)
| out_of_range (msg : message)
| exit_failure (msg : message)
| undefined_behaviour
| out_of_fuel.

Inductive result (A : Type) : Type :=
| Ok (a : A)
| Throw (e : error).
Arguments Ok {A} a.
Arguments Throw {A} e.

Definition bind {A B : Type} (r : result A) (f : A → result B) : result B :=
  match r with
  | Ok a => f a
  | Throw e => Throw e
  end.

Notation "'let!' x ':=' r 'in' k" := (bind r (fun x => k))
  (at level 10, x name, r at level 100, k at level 200,
   format "'[v' 'let!'  x  ':='  r  'in' '/' k ']'").

(** ** Machine integers *)

Definition LONG_MAX : Z := 2 ^ 63 - 1.
Definition LONG_MIN : Z := - 2 ^ 63.

(** A [long] result of signed arithmetic: outside the range it is undefined. *)
Definition long_check (z : Z) : result Z :=
  if (LONG_MIN <=? z) && (z <=? LONG_MAX) then Ok z else Throw undefined_behaviour.

(** Conversion of a [long] to [size_t] and back, as in [_getIndex]. *)
Definition to_size_t (z : Z) : Z := z mod 2 ^ 64.
Definition to_long (z : Z) : Z := if z <? 2 ^ 63 then z else z - 2 ^ 64.

(** An [int] result of signed arithmetic. *)
Definition INT_MAX : Z := 2 ^ 31 - 1.
Definition INT_MIN : Z := - 2 ^ 31.
Definition int_check (z : Z) : result Z :=
  if (INT_MIN <=? z) && (z <=? INT_MAX) then Ok z else Throw undefined_behaviour.

(** The [(int)] casts of [size()] and [capacity()]. *)
Definition to_int (z : Z) : Z :=
  let r := z mod 2 ^ 32 in if r <? 2 ^ 31 then r else r - 2 ^ 32.

(** ** Rational comparisons standing for the [double] ones *)

Definition Qgtb (a b : Q) : bool := negb (Qle_bool a b).
Definition Qltb (a b : Q) : bool := negb (Qle_bool b a).

(** [(double) size / capacity].  No table has a capacity of zero, for which
    the quotient is 0 here and an infinity or NaN in the source. *)
Definition load (size capacity : Z) : Q := (inject_Z size / inject_Z capacity)%Q.

(** ** The hash capability of the key type *)

(** [std::hash<KeyT>]: a [size_t] for every key. *)
Class Hash (K : Type) := {
  hash : K → Z;
  hash_range : ∀ k, 0 ≤ hash k < 2 ^ 64
}.

(** ** The table *)

Record HashMap (K V : Type) : Type := mkHashMap {
  _capacity : Z;
  _size : Z;
  _upperLoadFactor : Q;
  _lowerLoadFactor : Q;
  _table : list (list (K * V))
}.
Arguments mkHashMap {K V}.
Arguments _capacity {K V}.
Arguments _size {K V}.
Arguments _upperLoadFactor {K V}.
Arguments _lowerLoadFactor {K V}.
Arguments _table {K V}.

(** ** The iterator [PointerToPair]

    The reference [_hashMap] is the table handed to each iterator function. *)
Record PointerToPair : Type := mkPointerToPair {
  _end : bool;
  _bucketIndex : Z;
  _vectorIterator : Z * Z
}.

(** What one round of a loop body asks for: go on, or [return]. *)
Inductive control (S R : Type) : Type :=
| Continue (s : S)
| Return (r : R).
Arguments Continue {S R} s.
Arguments Return {S R} r.

(** The calls that change a table. *)
Inductive operation (K V : Type) : Type :=
| call_insert (key : K) (value : V)
| call_erase (key : K)
| call_subscript (key : K)
| call_clear.
Arguments call_insert {K V} key value.
Arguments call_erase {K V} key.
Arguments call_subscript {K V} key.
Arguments call_clear {K V}.

Section HashMap.
Context {K V : Type} `{!EqDecision K, !Hash K, !EqDecision V, !Inhabited V}.

Local Abbreviation bucket := (list (K * V)).
Local Abbreviation table := (list (list (K * V))).
Local Abbreviation HashMap := (HashMap K V).

(** [t[i]] *)
Definition read (t : table) (i : Z) : result bucket :=
  if 0 <=? i then
    match t !! Z.to_nat i with
    | Some b => Ok b
    | None => Throw undefined_behaviour
    end
  else Throw undefined_behaviour.

(** [new vector<pair<KeyT, ValueT>>[capacity]]; a negative length ends in
    the [bad_alloc] handler.  Every other length is allocated here, also
    one for which the source would run out of memory or meet the limit on
    the size of an array and end in the same handler. *)
Definition new_table (capacity : Z) : result table :=
  if capacity <? 0 then Throw (exit_failure MEMORY_ERROR_MSG)
  else Ok (replicate (Z.to_nat capacity) []).

Definition _getIndex (key : K) (tableSize : Z) : Z :=
  to_long (Z.land (hash key) (to_size_t (tableSize - 1))).

Definition _addToTable (key : K) (value : V) (t : table) (tableSize : Z)
  : result table :=
  let i := _getIndex key tableSize in
  let! b := read t i in
  Ok (<[Z.to_nat i := b ++ [(key, value)]]> t).

(** *** Queries *)

Definition size (m : HashMap) : Z := to_int (_size m).
Definition capacity (m : HashMap) : Z := to_int (_capacity m).
Definition getLoadFactor (m : HashMap) : Q := load (_size m) (_capacity m).
Definition empty (m : HashMap) : bool := _size m =? 0.

(** The scan of a bucket for a key, as [containsKey] does it. *)
Fixpoint has_key (key : K) (b : bucket) : bool :=
  match b with
  | [] => false
  | p :: b' => if decide (p.1 = key) then true else has_key key b'
  end.

Definition containsKey (m : HashMap) (key : K) : result bool :=
  let! b := read (_table m) (_getIndex key (_capacity m)) in
  Ok (if 0 <? Z.of_nat (length b) then has_key key b else false).

(** The scan of a bucket for the value of a key, as [at] and [operator[]]
    do it. *)
Fixpoint find_value (key : K) (b : bucket) : option V :=
  match b with
  | [] => None
  | p :: b' => if decide (p.1 = key) then Some p.2 else find_value key b'
  end.

Definition at_ (m : HashMap) (key : K) : result V :=
  let! b := read (_table m) (_getIndex key (_capacity m)) in
  match find_value key b with
  | Some v => Ok v
  | None => Throw (out_of_range KEY_DOSENT_EXIST_ERROR)
  end.

Definition bucketSize (m : HashMap) (key : K) : result Z :=
  let! c := containsKey m key in
  if c then
    let! b := read (_table m) (_getIndex key (_capacity m)) in
    Ok (to_int (Z.of_nat (length b)))
  else Throw (out_of_range KEY_DOSENT_EXIST_ERROR).

(** *** The iterator *)

(** [t[b].end()] *)
Definition vector_end (t : table) (b : Z) : result (Z * Z) :=
  let! v := read t b in Ok (b, Z.of_nat (length v)).

(** [t[b].begin()] *)
Definition vector_begin (t : table) (b : Z) : result (Z * Z) :=
  let! _ := read t b in Ok (b, 0).

Definition vector_iterator_eqb (a b : Z * Z) : bool :=
  (a.1 =? b.1) && (a.2 =? b.2).

(** The [while] loop of [_getNextBucketAndIterator]: every round moves the
    index one bucket closer to [_capacity]. *)
Fixpoint skip_empty (fuel : nat) (m : HashMap) (bucketIndex : Z) : result Z :=
  if bucketIndex <? _capacity m then
    let! b := read (_table m) bucketIndex in
    match b with
    | [] =>
        match fuel with
        | O => Throw out_of_fuel
        | S fuel' => skip_empty fuel' m (bucketIndex + 1)
        end
    | _ :: _ => Ok bucketIndex
    end
  else Ok bucketIndex.

Definition _getNextBucketAndIterator (m : HashMap) (i : PointerToPair)
  : result PointerToPair :=
  let! bucketIndex := skip_empty (Z.to_nat (_capacity m)) m (_bucketIndex i) in
  if negb (bucketIndex =? _capacity m) then
    let! vi := vector_begin (_table m) bucketIndex in
    Ok {| _end := _end i; _bucketIndex := bucketIndex; _vectorIterator := vi |}
  else
    let! vi := vector_end (_table m) (_capacity m - 1) in
    Ok {| _end := true; _bucketIndex := bucketIndex; _vectorIterator := vi |}.

(** [PointerToPair(hashMap, end)]; the value-initialised [_vectorIterator]
    is overwritten before it is read. *)
Definition PointerToPair_new (m : HashMap) (end_ : bool) : result PointerToPair :=
  let! i := _getNextBucketAndIterator m
        {| _end := end_; _bucketIndex := 0; _vectorIterator := (0, 0) |} in
  if _end i then
    let! vi := vector_end (_table m) (_capacity m - 1) in
    Ok {| _end := _end i; _bucketIndex := _bucketIndex i; _vectorIterator := vi |}
  else Ok i.

Definition begin (m : HashMap) : result PointerToPair := PointerToPair_new m false.
Definition end_ (m : HashMap) : result PointerToPair := PointerToPair_new m true.

(** dereference *)
Definition deref (m : HashMap) (i : PointerToPair) : result (K * V) :=
  let! b := read (_table m) (_vectorIterator i).1 in
  if 0 <=? (_vectorIterator i).2 then
    match b !! Z.to_nat (_vectorIterator i).2 with
    | Some p => Ok p
    | None => Throw undefined_behaviour
    end
  else Throw undefined_behaviour.

(** prefix [operator++] *)
Definition incr (m : HashMap) (i : PointerToPair) : result PointerToPair :=
  let vi := ((_vectorIterator i).1, (_vectorIterator i).2 + 1) in
  let! e := vector_end (_table m) (_bucketIndex i) in
  if vector_iterator_eqb vi e then
    _getNextBucketAndIterator m
      {| _end := _end i; _bucketIndex := _bucketIndex i + 1; _vectorIterator := vi |}
  else Ok {| _end := _end i; _bucketIndex := _bucketIndex i; _vectorIterator := vi |}.

(** [operator==] of two iterators over the same table. *)
Definition iterator_eqb (a b : PointerToPair) : bool :=
  (_end a && _end b) || vector_iterator_eqb (_vectorIterator a) (_vectorIterator b).

(** [for (i = begin(); i != end(); ++i)] with a body that reads the pair at
    [i], from the iterator [i] on; the body may leave the loop with [Return].
    A range-based [for] over a table is the same loop. *)
Fixpoint for_each {S R : Type} (fuel : nat) (m : HashMap)
    (body : K * V → S → result (control S R)) (i : PointerToPair) (s : S)
  : result (control S R) :=
  let! e := end_ m in
  if negb (iterator_eqb i e) then
    match fuel with
    | O => Throw out_of_fuel
    | S fuel' =>
        let! p := deref m i in
        let! c := body p s in
        match c with
        | Continue s' => let! i' := incr m i in for_each fuel' m body i' s'
        | Return r => Ok (Return r)
        end
    end
  else Ok (Continue s).

(** The number of entries stored in the buckets bounds the rounds of a
    traversal. *)
Definition traversal_fuel (m : HashMap) : nat := length (concat (_table m)).

Definition range_for {S R : Type} (m : HashMap)
    (body : K * V → S → result (control S R)) (s : S) : result (control S R) :=
  let! i := begin m in for_each (traversal_fuel m) m body i s.

(** The entries in the order a traversal meets them. *)
Definition iterate (m : HashMap) : result (list (K * V)) :=
  let! c := range_for (R := Empty_set) m (λ p acc, Ok (Continue (acc ++ [p]))) [] in
  match c with
  | Continue l => Ok l
  | Return r => match r with end
  end.

(** *** Resizing *)

(** The body of the loops that fill a fresh table. *)
Definition add_entry (tableSize : Z) (p : K * V) (t : table)
  : result (control table Empty_set) :=
  let! t' := _addToTable p.1 p.2 t tableSize in Ok (Continue t').

Definition _reHash (m : HashMap) (newCapacity : Z) : result HashMap :=
  let! newTable := new_table newCapacity in
  let! c := range_for m (add_entry newCapacity) newTable in
  match c with
  | Continue t =>
      Ok {| _capacity := newCapacity; _size := _size m;
            _upperLoadFactor := _upperLoadFactor m;
            _lowerLoadFactor := _lowerLoadFactor m; _table := t |}
  | Return r => match r with end
  end.

(** The [while] loop of [_keepUpperLoadFactor]. *)
Fixpoint grow (fuel : nat) (size newCapacity : Z) (upper : Q) : result Z :=
  if Qgtb (load size newCapacity) upper then
    match fuel with
    | O => Throw out_of_fuel
    | S fuel' =>
        let! c := long_check (newCapacity * TABLE_FACTOR) in
        grow fuel' size c upper
    end
  else Ok newCapacity.

(** A capacity other than zero doubles at most 64 times inside a [long]. *)
Definition grow_fuel : nat := 64.

Definition _keepUpperLoadFactor (m : HashMap) : result HashMap :=
  if Qgtb (getLoadFactor m) (_upperLoadFactor m) then
    let! newCapacity := grow grow_fuel (_size m) (_capacity m) (_upperLoadFactor m) in
    _reHash m newCapacity
  else Ok m.

Definition _keepLowerLoadFactor (m : HashMap) : result HashMap :=
  if Qltb (getLoadFactor m) (_lowerLoadFactor m) && negb (_capacity m =? 1) then
    _reHash m (_capacity m ÷ TABLE_FACTOR)
  else Ok m.

(** *** Construction *)

Definition HashMap_loadFactors (lowerLoadFactor upperLoadFactor : Q)
  : result HashMap :=
  let! t := new_table INITIAL_CAPACITY in
  if Qltb upperLoadFactor lowerLoadFactor then
    Throw (invalid_argument INVALID_LOAD_FACTORS_LOWER_HIGHER)
  else if Qltb lowerLoadFactor 0 || Qgtb upperLoadFactor 1 then
    Throw (invalid_argument INVALID_LOAD_FACTORS_OUT_RANGE)
  else
    Ok {| _capacity := INITIAL_CAPACITY; _size := 0;
          _upperLoadFactor := upperLoadFactor;
          _lowerLoadFactor := lowerLoadFactor; _table := t |}.

Definition HashMap_default : result HashMap :=
  HashMap_loadFactors DEFAULT_LOWER_LOAD_FACTOR DEFAULT_UPPER_LOAD_FACTOR.

(** The inner loop of the vector constructor: every pair of the bucket with
    the key gets the value. *)
Fixpoint overwrite (key : K) (value : V) (b : bucket) : bucket :=
  match b with
  | [] => []
  | p :: b' =>
      (if decide (p.1 = key) then (p.1, value) else p) :: overwrite key value b'
  end.

(** One round of the outer loop of the vector constructor. *)
Definition load_pair (m : HashMap) (key : K) (value : V) : result HashMap :=
  let! c := containsKey m key in
  if c then
    let i := _getIndex key (_capacity m) in
    let! b := read (_table m) i in
    Ok {| _capacity := _capacity m; _size := _size m;
          _upperLoadFactor := _upperLoadFactor m;
          _lowerLoadFactor := _lowerLoadFactor m;
          _table := <[Z.to_nat i := overwrite key value b]> (_table m) |}
  else
    let! t := _addToTable key value (_table m) (_capacity m) in
    let! s := long_check (_size m + 1) in
    Ok {| _capacity := _capacity m; _size := s;
          _upperLoadFactor := _upperLoadFactor m;
          _lowerLoadFactor := _lowerLoadFactor m; _table := t |}.

(** The outer loop, from the position [i] of two vectors of one length on:
    [pairs] are the keys and values at the positions that are left, and [++i]
    is the increment of an [int]. *)
Fixpoint load_pairs (m : HashMap) (i : Z) (pairs : list (K * V)) : result HashMap :=
  match pairs with
  | [] => Ok m
  | p :: pairs' =>
      let! m' := load_pair m p.1 p.2 in
      let! i' := int_check (i + 1) in
      load_pairs m' i' pairs'
  end.

Definition HashMap_vectors (keyVector : list K) (valueVector : list V)
  : result HashMap :=
  let! m := HashMap_default in
  if negb (length keyVector =? length valueVector)%nat then
    Throw (invalid_argument DIFFERENT_SIZE_VECTORS_ERROR_MSG)
  else
    let! m' := load_pairs m 0 (zip keyVector valueVector) in
    _keepUpperLoadFactor m'.

Definition HashMap_copy (other : HashMap) : result HashMap :=
  let! t := new_table (_capacity other) in
  let! c := range_for other (add_entry (_capacity other)) t in
  match c with
  | Continue t' =>
      Ok {| _capacity := _capacity other; _size := _size other;
            _upperLoadFactor := _upperLoadFactor other;
            _lowerLoadFactor := _lowerLoadFactor other; _table := t' |}
  | Return r => match r with end
  end.

(** *** Mutation *)

Definition insert (m : HashMap) (key : K) (value : V) : result (bool * HashMap) :=
  let! c := containsKey m key in
  if c then Ok (false, m)
  else
    let! t := _addToTable key value (_table m) (_capacity m) in
    let! s := long_check (_size m + 1) in
    let! m' := _keepUpperLoadFactor
                 {| _capacity := _capacity m; _size := s;
                    _upperLoadFactor := _upperLoadFactor m;
                    _lowerLoadFactor := _lowerLoadFactor m; _table := t |} in
    Ok (true, m').

(** The loop of [erase] over one bucket: the bucket without the first pair
    that has the key, if there is one. *)
Fixpoint erase_first (key : K) (b : bucket) : option bucket :=
  match b with
  | [] => None
  | p :: b' =>
      if decide (p.1 = key) then Some b'
      else match erase_first key b' with
           | Some b'' => Some (p :: b'')
           | None => None
           end
  end.

Definition erase (m : HashMap) (key : K) : result (bool * HashMap) :=
  let i := _getIndex key (_capacity m) in
  let! b := read (_table m) i in
  match erase_first key b with
  | Some b' =>
      let! s := long_check (_size m - 1) in
      let! m' := _keepLowerLoadFactor
                   {| _capacity := _capacity m; _size := s;
                      _upperLoadFactor := _upperLoadFactor m;
                      _lowerLoadFactor := _lowerLoadFactor m;
                      _table := <[Z.to_nat i := b']> (_table m) |} in
      Ok (true, m')
  | None => Ok (false, m)
  end.

(** [operator[]]: the value found, or the value of the pair it adds, and the
    table afterwards.  It calls itself once after adding the pair. *)
Fixpoint subscript_rec (fuel : nat) (m : HashMap) (key : K) : result (V * HashMap) :=
  let i := _getIndex key (_capacity m) in
  let! b := read (_table m) i in
  match find_value key b with
  | Some v => Ok (v, m)
  | None =>
      match fuel with
      | O => Throw out_of_fuel
      | S fuel' =>
          let t := <[Z.to_nat i := b ++ [(key, inhabitant)]]> (_table m) in
          let! s := long_check (_size m + 1) in
          let! m' := _keepUpperLoadFactor
                       {| _capacity := _capacity m; _size := s;
                          _upperLoadFactor := _upperLoadFactor m;
                          _lowerLoadFactor := _lowerLoadFactor m; _table := t |} in
          subscript_rec fuel' m' key
      end
  end.

Definition subscript (m : HashMap) (key : K) : result (V * HashMap) :=
  subscript_rec 1 m key.

(** The loop of [clear]. *)
Fixpoint clear_from (fuel : nat) (t : table) (capacity i : Z) : result table :=
  if i <? capacity then
    let! _ := read t i in
    match fuel with
    | O => Throw out_of_fuel
    | S fuel' => clear_from fuel' (<[Z.to_nat i := []]> t) capacity (i + 1)
    end
  else Ok t.

Definition clear (m : HashMap) : result HashMap :=
  let! t := clear_from (Z.to_nat (_capacity m)) (_table m) (_capacity m) 0 in
  Ok {| _capacity := _capacity m; _size := 0;
        _upperLoadFactor := _upperLoadFactor m;
        _lowerLoadFactor := _lowerLoadFactor m; _table := t |}.

(** *** Comparison *)

(** The body of the loop of [operator==]: look the pair of [other] up in
    this table; [out_of_range] is caught.  [operator==] itself compares the
    bounds as rationals: a NaN bound, which the constructor lets in and
    which is not equal to itself, has no counterpart here. *)
Definition same_entry (m : HashMap) (p : K * V) (_ : unit)
  : result (control unit bool) :=
  match at_ m p.1 with
  | Ok v => if decide (v = p.2) then Ok (Continue tt) else Ok (Return false)
  | Throw (out_of_range _) => Ok (Return false)
  | Throw e => Throw e
  end.

Definition eqb (m other : HashMap) : result bool :=
  if (_size m =? _size other)
     && Qeq_bool (_upperLoadFactor m) (_upperLoadFactor other)
     && Qeq_bool (_lowerLoadFactor m) (_lowerLoadFactor other)
     && (_capacity m =? _capacity other)
  then
    let! c := range_for other (same_entry m) tt in
    match c with
    | Continue _ => Ok true
    | Return r => Ok r
    end
  else Ok false.

Definition neqb (m other : HashMap) : result bool :=
  let! r := eqb m other in Ok (negb r).

(** *** Sequences of calls *)

(** One call on a table; what the call returns besides the table is dropped. *)
Definition apply_operation (m : HashMap) (o : operation K V) : result HashMap :=
  match o with
  | call_insert key value => let! r := insert m key value in Ok r.2
  | call_erase key => let! r := erase m key in Ok r.2
  | call_subscript key => let! r := subscript m key in Ok r.2
  | call_clear => clear m
  end.

Fixpoint run (m : HashMap) (calls : list (operation K V)) : result HashMap :=
  match calls with
  | [] => Ok m
  | o :: calls' => let! m' := apply_operation m o in run m' calls'
  end.
End HashMap.

(** ** The rest of the class, and what its caller does with it *)

Section HashMapRest.
Context {K V : Type} `{!EqDecision K, !Hash K, !EqDecision V, !Inhabited V}.

Local Abbreviation bucket := (list (K * V)).
Local Abbreviation HashMap := (HashMap K V).

(** [cbegin()] and [cend()] *)
Definition cbegin (m : HashMap) : result PointerToPair := begin m.
Definition cend (m : HashMap) : result PointerToPair := end_ m.

(** [operator!=] of two iterators over the same table. *)
Definition iterator_neqb (a b : PointerToPair) : bool := negb (iterator_eqb a b).

(** postfix [operator++]: the copy of the iterator as it was, and the iterator
    after the prefix increment. *)
Definition incr_post (m : HashMap) (i : PointerToPair)
  : result (PointerToPair * PointerToPair) :=
  let temp := i in
  let! i' := incr m i in
  Ok (temp, i').

(** The friend [swap]: the five members change places. *)
Definition swap (first second : HashMap) : HashMap * HashMap :=
  ({| _capacity := _capacity second; _size := _size second;
      _upperLoadFactor := _upperLoadFactor second;
      _lowerLoadFactor := _lowerLoadFactor second; _table := _table second |},
   {| _capacity := _capacity first; _size := _size first;
      _upperLoadFactor := _upperLoadFactor first;
      _lowerLoadFactor := _lowerLoadFactor first; _table := _table first |}).

(** [operator=]: the parameter is a copy of the argument, made by the copy
    constructor; it is swapped with this table, which is returned. *)
Definition operator_assign (this other : HashMap) : result HashMap :=
  let! parameter := HashMap_copy other in
  Ok (swap this parameter).1.

(** A write through the reference that the non-const [at] and [operator[]]
    return: the value of the first pair of the bucket that has the key. *)
Fixpoint put_first (key : K) (value : V) (b : bucket) : option bucket :=
  match b with
  | [] => None
  | p :: b' =>
      if decide (p.1 = key) then Some ((p.1, value) :: b')
      else match put_first key value b' with
           | Some b'' => Some (p :: b'')
           | None => None
           end
  end.

(** [at(key) = value] with the non-const [at]. *)
Definition at_assign (m : HashMap) (key : K) (value : V) : result HashMap :=
  let i := _getIndex key (_capacity m) in
  let! b := read (_table m) i in
  match put_first key value b with
  | Some b' =>
      Ok {| _capacity := _capacity m; _size := _size m;
            _upperLoadFactor := _upperLoadFactor m;
            _lowerLoadFactor := _lowerLoadFactor m;
            _table := <[Z.to_nat i := b']> (_table m) |}
  | None => Throw (out_of_range KEY_DOSENT_EXIST_ERROR)
  end.

(** [m[key] = value], as [createDatabaseMap] fills its table: the reference
    that [operator[]] returns points into the table it leaves. *)
Definition subscript_assign (m : HashMap) (key : K) (value : V) : result HashMap :=
  let! r := subscript m key in
  at_assign r.2 key value.
End HashMapRest.

(** ** SpamDetector.cpp: [makeStringLowerCase]

    A [string] is the list of its bytes.  The program never calls
    [setlocale], so [std::tolower] is that of the "C" locale: it moves the
    letters A to Z and nothing else. *)
Definition tolower (c : Z) : Z :=
  if (65 <=? c) && (c <=? 90) then c + 32 else c.

Definition makeStringLowerCase (str : list Z) : list Z := tolower <$> str.

(** ** SpamDetector.cpp: [createDatabaseMap]

    The function reads the database file line by line with [std::getline],
    checks every line with [std::regex_match] against [VALID_LINE], cuts it at
    the comma with [find] and [substr], reads the score with [std::stoi] and
    stores it with [databaseMap[sequence] = score].  The library functions
    are modelled as the C++ standard describes them, for the "C" locale and
    a stream without read errors (no [badbit]). *)

(** What [createDatabaseMap] can end with besides a return: its own
    [InvalidInput], the exceptions of [std::stoi] and [substr], and what the
    table reports. *)
Inductive exception : Set :=
| InvalidInput
| stoi_invalid_argument
| stoi_out_of_range
| substr_out_of_range
| HashMap_failure (e : error).

Inductive outcome (A : Type) : Type :=
| Returns (a : A)
| Throws (e : exception).
Arguments Returns {A} a.
Arguments Throws {A} e.

Definition outcome_bind {A B : Type} (r : outcome A) (f : A → outcome B) : outcome B :=
  match r with
  | Returns a => f a
  | Throws e => Throws e
  end.

Notation "'let?' x ':=' r 'in' k" := (outcome_bind r (fun x => k))
  (at level 10, x name, r at level 100, k at level 200,
   format "'[v' 'let?'  x  ':='  r  'in' '/' k ']'").

Definition of_result {A : Type} (r : result A) : outcome A :=
  match r with
  | Ok a => Returns a
  | Throw e => Throws (HashMap_failure e)
  end.

(** *** [std::regex]

    The regular expressions that [VALID_LINE] needs, and [regex_match] (a
    match of the whole string) by derivatives. *)
Inductive regex : Type :=
| re_void
| re_eps
| re_class (p : Z → bool)
| re_seq (r s : regex)
| re_alt (r s : regex)
| re_star (r : regex).

Fixpoint nullable (r : regex) : bool :=
  match r with
  | re_void => false
  | re_eps => true
  | re_class _ => false
  | re_seq r s => nullable r && nullable s
  | re_alt r s => nullable r || nullable s
  | re_star _ => true
  end.

Fixpoint derive (c : Z) (r : regex) : regex :=
  match r with
  | re_void => re_void
  | re_eps => re_void
  | re_class p => if p c then re_eps else re_void
  | re_seq r s =>
      if nullable r then re_alt (re_seq (derive c r) s) (derive c s)
      else re_seq (derive c r) s
  | re_alt r s => re_alt (derive c r) (derive c s)
  | re_star r => re_seq (derive c r) (re_star r)
  end.

Definition regex_match (str : list Z) (r : regex) : bool :=
  nullable (foldl (λ r c, derive c r) r str).

(** [r+] and [r?] *)
Definition re_plus (r : regex) : regex := re_seq r (re_star r).
Definition re_opt (r : regex) : regex := re_alt r re_eps.

Definition COMMA : Z := 44.

Definition isdigit (c : Z) : bool := (48 <=? c) && (c <=? 57).
Definition isspace (c : Z) : bool := (c =? 32) || ((9 <=? c) && (c <=? 13)).

(** ["[^,]+,[0-9]+[\n\r]?"] *)
Definition VALID_LINE : regex :=
  re_seq (re_plus (re_class (λ c, negb (c =? COMMA))))
    (re_seq (re_class (λ c, c =? COMMA))
       (re_seq (re_plus (re_class isdigit))
          (re_opt (re_class (λ c, (c =? 10) || (c =? 13)))))).

(** *** [std::string] *)

Definition npos : Z := 2 ^ 64 - 1.

Fixpoint find_from (c : Z) (str : list Z) (i : Z) : Z :=
  match str with
  | [] => npos
  | x :: str' => if decide (x = c) then i else find_from c str' (i + 1)
  end.

(** [str.find(c)]: the index of the first [c], or [npos]. *)
Definition string_find (str : list Z) (c : Z) : Z := find_from c str 0.

(** [str.substr(pos, n)] *)
Definition substr (str : list Z) (pos n : Z) : outcome (list Z) :=
  let size := Z.of_nat (length str) in
  if size <? pos then Throws substr_out_of_range
  else Returns (take (Z.to_nat (Z.min n (size - pos))) (drop (Z.to_nat pos) str)).

Fixpoint take_while (p : Z → bool) (str : list Z) : list Z :=
  match str with
  | [] => []
  | c :: str' => if p c then c :: take_while p str' else []
  end.

Fixpoint drop_while (p : Z → bool) (str : list Z) : list Z :=
  match str with
  | [] => []
  | c :: str' => if p c then drop_while p str' else str
  end.

Fixpoint decimal_value (acc : Z) (digits : list Z) : Z :=
  match digits with
  | [] => acc
  | c :: digits' => decimal_value (acc * 10 + (c - 48)) digits'
  end.

(** [std::stoi(str)]: white space, a sign, decimal digits; what follows the
    digits is left unread. *)
Definition stoi (str : list Z) : outcome Z :=
  let s := drop_while isspace str in
  let '(negative, s) :=
    match s with
    | c :: s' =>
        if c =? 45 then (true, s') else if c =? 43 then (false, s') else (false, s)
    | [] => (false, s)
    end in
  match take_while isdigit s with
  | [] => Throws stoi_invalid_argument
  | digits =>
      let v := decimal_value 0 digits in
      let v := if negative : bool then - v else v in
      if (INT_MIN <=? v) && (v <=? INT_MAX) then Returns v
      else Throws stoi_out_of_range
  end.

(** *** [std::ifstream]

    The bytes that are still to be read, and two of the state bits. *)
Record ifstream : Type := {
  content : list Z;
  eofbit : bool;
  failbit : bool
}.

Definition good (f : ifstream) : bool := negb (eofbit f) && negb (failbit f).
Definition eof (f : ifstream) : bool := eofbit f.
Definition fail_ (f : ifstream) : bool := failbit f.

(** The bytes before the first line feed, and the bytes after it if there is
    one. *)
Fixpoint take_line (str : list Z) : list Z * option (list Z) :=
  match str with
  | [] => ([], None)
  | c :: str' =>
      if decide (c = 10) then ([], Some str')
      else let '(line, rest) := take_line str' in (c :: line, rest)
  end.

(** [std::getline(f, str)]: the line feed is read and dropped; the end of
    the file sets [eofbit], and [failbit] too when nothing was read; a
    stream that is not good only gets [failbit]. *)
Definition getline (f : ifstream) (str : list Z) : ifstream * list Z :=
  if good f then
    match take_line (content f) with
    | (line, Some rest) =>
        ({| content := rest; eofbit := false; failbit := false |}, line)
    | (line, None) =>
        ({| content := []; eofbit := true; failbit := bool_decide (line = []) |},
         line)
    end
  else ({| content := content f; eofbit := eofbit f; failbit := true |}, str).

Section SpamDetector.
Context `{!Hash (list Z)}.

(** [int()] *)
#[local] Instance int_default : Inhabited Z := populate 0.

(** The [while] loop of [createDatabaseMap]; a [break] returns. *)
Fixpoint createDatabaseMap_loop (fuel : nat) (databaseFile : ifstream)
    (databaseMap : HashMap (list Z) Z) (wordsLen : gset nat) (line : list Z)
  : outcome (ifstream * HashMap (list Z) Z * gset nat) :=
  if good databaseFile then
    match fuel with
    | O => Throws (HashMap_failure out_of_fuel)
    | S fuel' =>
        let '(databaseFile, line) := getline databaseFile line in
        if negb (regex_match line VALID_LINE) then
          if bool_decide (line = []) && eof databaseFile
          then Returns (databaseFile, databaseMap, wordsLen)
          else Throws InvalidInput
        else
          let commaIndex := string_find line COMMA in
          let? sequence := substr line 0 commaIndex in
          let sequence := makeStringLowerCase sequence in
          let? number := substr line (to_size_t (commaIndex + 1)) npos in
          let? score := stoi number in
          if score <? 0 then Throws InvalidInput
          else
            let? databaseMap :=
              of_result (subscript_assign databaseMap sequence score) in
            createDatabaseMap_loop fuel' databaseFile databaseMap
              ({[length sequence]} ∪ wordsLen) line
    end
  else Returns (databaseFile, databaseMap, wordsLen).

(** Every round of the loop reads a byte or ends the file. *)
Definition createDatabaseMap (databaseFile : ifstream)
    (databaseMap : HashMap (list Z) Z) (wordsLen : gset nat)
  : outcome (ifstream * HashMap (list Z) Z * gset nat) :=
  let? r := createDatabaseMap_loop (S (length (content databaseFile)))
              databaseFile databaseMap wordsLen [] in
  let '(databaseFile, databaseMap, wordsLen) := r in
  if fail_ databaseFile && negb (eof databaseFile) then Throws InvalidInput
  else Returns (databaseFile, databaseMap, wordsLen).
End SpamDetector.

(** ** Tables of integers

    Tables with [long] keys and values, for the properties at concrete
    tables: [std::hash] of an integer is the integer as a [size_t], and
    [ValueT()] is 0. *)
Module Sample.

#[export] Instance Z_hash : Hash Z :=
  {| hash z := z mod 2 ^ 64;
     hash_range := λ z, Z.mod_pos_bound z (2 ^ 64) eq_refl |}.
#[export] Instance Z_default : Inhabited Z := populate 0.

(** The table the default constructor makes. *)
Definition fresh : HashMap Z Z :=
  {| _capacity := 16; _size := 0; _upperLoadFactor := 3 # 4;
     _lowerLoadFactor := 1 # 4; _table := replicate 16 [] |}.

(** Three pairs, two of them in one bucket. *)
Definition three_calls : list (operation Z Z) :=
  [call_insert 1 10; call_insert 17 20; call_insert 3 5].

Definition three : HashMap Z Z :=
  {| _capacity := 16; _size := 3; _upperLoadFactor := 3 # 4;
     _lowerLoadFactor := 1 # 4;
     _table := [[]; [(1, 10); (17, 20)]; []; [(3, 5)]; []; []; []; [];
                []; []; []; []; []; []; []; []] |}.

(** Thirteen pairs: one more than sixteen buckets hold under the bound 3/4. *)
Definition thirteen_calls : list (operation Z Z) :=
  (λ i, call_insert i i) <$> seqZ 0 13.

Definition thirteen : HashMap Z Z :=
  {| _capacity := 32; _size := 13; _upperLoadFactor := 3 # 4;
     _lowerLoadFactor := 1 # 4;
     _table := ((λ i, [(i, i)]) <$> seqZ 0 13) ++ replicate 19 [] |}.

(** A table emptied four times over, down to one bucket. *)
Definition floor_calls : list (operation Z Z) :=
  [call_insert 1 1; call_erase 1; call_insert 1 1; call_erase 1;
   call_insert 1 1; call_erase 1; call_insert 1 1; call_erase 1].

Definition floor : HashMap Z Z :=
  {| _capacity := 1; _size := 0; _upperLoadFactor := 3 # 4;
     _lowerLoadFactor := 1 # 4; _table := [[]] |}.

(** A table emptied five times over, then asked for a key it does not hold. *)
Definition shrink_calls : list (operation Z Z) :=
  [call_insert 1 1; call_erase 1; call_insert 1 1; call_erase 1;
   call_insert 1 1; call_erase 1; call_insert 1 1; call_erase 1;
   call_insert 1 1; call_erase 1; call_subscript 5].

Definition shrunk : HashMap Z Z :=
  {| _capacity := 2; _size := 1; _upperLoadFactor := 3 # 4;
     _lowerLoadFactor := 1 # 4; _table := [[]; [(5, 0)]] |}.
End Sample.

(** * Vocabulary of the properties *)

(** A loop over a list of pairs with the same body conventions as
    [for_each]: what a traversal computes once the order of the visit is
    known. *)
Fixpoint fold_control {K V S R : Type} (body : K * V → S → result (control S R))
    (l : list (K * V)) (s : S) : result (control S R) :=
  match l with
  | [] => Ok (Continue s)
  | p :: l' =>
      let! c := body p s in
      match c with
      | Continue s' => fold_control body l' s'
      | Return r => Ok (Return r)
      end
  end.

(** The bucket array has [_capacity] buckets, and at least one. *)
Definition shape {K V : Type} (m : HashMap K V) : Prop :=
  1 ≤ _capacity m ∧ Z.of_nat (length (_table m)) = _capacity m.

(** Where an iterator stands, with the pairs it has still to visit. *)
Inductive position {K V : Type} (m : HashMap K V)
  : PointerToPair → list (K * V) → Prop :=
| position_end i :
    _end i = true → position m i []
| position_at i (b o : nat) bk :
    _end i = false →
    _bucketIndex i = Z.of_nat b →
    _vectorIterator i = (Z.of_nat b, Z.of_nat o) →
    _table m !! b = Some bk →
    (o < length bk)%nat →
    position m i (drop o bk ++ concat (drop (S b) (_table m))).

(** The pairs of a table, bucket after bucket. *)
Definition entries {K V : Type} (m : HashMap K V) : list (K * V) := concat (_table m).

(** Every pair sits in the bucket its key hashes to. *)
Definition placed {K V : Type} `{!Hash K} (c : Z) (t : list (list (K * V))) : Prop :=
  ∀ (j : nat) b p, t !! j = Some b → p ∈ b → _getIndex p.1 c = Z.of_nat j.

(** The representation invariant of the class. *)
Record wf {K V : Type} `{!Hash K} (m : HashMap K V) : Prop := mk_wf {
  wf_capacity : 1 ≤ _capacity m ≤ LONG_MAX;
  wf_length : Z.of_nat (length (_table m)) = _capacity m;
  wf_size : _size m = Z.of_nat (length (entries m));
  wf_size_max : _size m ≤ LONG_MAX;
  wf_placed : placed (_capacity m) (_table m);
  wf_keys : NoDup (entries m).*1
}.

(** What a resize leaves alone: the size, the two bounds, and the pairs up to
    their order. *)
Definition resized {K V : Type} (m m' : HashMap K V) : Prop :=
  _size m' = _size m
  ∧ _upperLoadFactor m' = _upperLoadFactor m
  ∧ _lowerLoadFactor m' = _lowerLoadFactor m
  ∧ entries m' ≡ₚ entries m.

(** The table between the update of one bucket and the resize check that
    follows it in [insert], [erase] and [operator[]]. *)
Definition with_bucket {K V : Type} (m : HashMap K V) (i : Z) (b : list (K * V))
    (s : Z) : HashMap K V :=
  {| _capacity := _capacity m; _size := s;
     _upperLoadFactor := _upperLoadFactor m;
     _lowerLoadFactor := _lowerLoadFactor m;
     _table := <[Z.to_nat i := b]> (_table m) |}.

(** The result of [at], read off the pairs of a well-formed table. *)
Definition lookup_result {V : Type} (o : option V) : result V :=
  match o with
  | Some v => Ok v
  | None => Throw (out_of_range KEY_DOSENT_EXIST_ERROR)
  end.

(** Every pair of the list is found, with its value, in the table. *)
Definition all_found {K V : Type} `{!EqDecision K} (m : HashMap K V)
    (l : list (K * V)) : Prop :=
  Forall (λ p, find_value p.1 (entries m) = Some p.2) l.

(** A table as one of the two constructors that take no table leaves it. *)
Definition constructed {K V : Type} `{!EqDecision K, !Hash K} (m : HashMap K V) : Prop :=
  (∃ l u, HashMap_loadFactors l u = Ok m)
  ∨ (∃ keyVector valueVector, HashMap_vectors keyVector valueVector = Ok m).

(** The calls the load-factor property of the specification speaks of. *)
Definition insert_or_erase {K V : Type} (o : operation K V) : Prop :=
  match o with
  | call_insert _ _ | call_erase _ => True
  | call_subscript _ | call_clear => False
  end.

Definition power_of_two (c : Z) : Prop := ∃ j : nat, c = 2 ^ Z.of_nat j.

(** What holds of every table that calls can reach from a constructed one. *)
Record table_inv {K V : Type} `{!Hash K} (m : HashMap K V) : Prop := mk_table_inv {
  inv_wf : wf m;
  inv_capacity : power_of_two (_capacity m);
  inv_bounds : (0 <= _lowerLoadFactor m)%Q
               ∧ (_lowerLoadFactor m <= _upperLoadFactor m)%Q
               ∧ (_upperLoadFactor m <= 1)%Q;
  inv_upper : (2 * _lowerLoadFactor m <= _upperLoadFactor m)%Q →
              (getLoadFactor m <= _upperLoadFactor m)%Q
}.

(** [n] prefix increments of an iterator. *)
Fixpoint advance {K V : Type} (n : nat) (m : HashMap K V) (i : PointerToPair)
  : result PointerToPair :=
  match n with
  | O => Ok i
  | S n' => let! i' := incr m i in advance n' m i'
  end.

(** A table as a partial function from keys to values, and what the calls do
    to it: [insert] adds a key that is absent, [erase] removes the key,
    [operator[]] adds an absent key with the value [ValueT()], [clear] removes
    every key. *)
Definition model_step {K V : Type} `{!EqDecision K, !Inhabited V}
    (f : K → option V) (o : operation K V) : K → option V :=
  match o with
  | call_insert key value =>
      λ k, if decide (k = key)
           then match f key with Some v => Some v | None => Some value end
           else f k
  | call_erase key => λ k, if decide (k = key) then None else f k
  | call_subscript key =>
      λ k, if decide (k = key)
           then match f key with Some v => Some v | None => Some inhabitant end
           else f k
  | call_clear => λ _, None
  end.

Definition model_run {K V : Type} `{!EqDecision K, !Inhabited V}
    (f : K → option V) (calls : list (operation K V)) : K → option V :=
  foldl model_step f calls.

(** The strings of a regular expression. *)
Inductive matches : regex → list Z → Prop :=
| matches_eps : matches re_eps []
| matches_class p c : p c = true → matches (re_class p) [c]
| matches_seq r s u v : matches r u → matches s v → matches (re_seq r s) (u ++ v)
| matches_alt_l r s u : matches r u → matches (re_alt r s) u
| matches_alt_r r s u : matches s u → matches (re_alt r s) u
| matches_star_nil r : matches (re_star r) []
| matches_star_cons r u v :
    matches r u → matches (re_star r) v → matches (re_star r) (u ++ v).

(** A line of a database file: the sequence, the digits of its score, and
    whether a carriage return ends the line. *)
Record row : Type := {
  row_sequence : list Z;
  row_digits : list Z;
  row_cr : bool
}.

Definition row_line (r : row) : list Z :=
  row_sequence r ++ COMMA :: row_digits r ++ (if row_cr r then [13] else []).

Definition row_key (r : row) : list Z := makeStringLowerCase (row_sequence r).
Definition row_score (r : row) : Z := decimal_value 0 (row_digits r).

(** A sequence that is not empty and has neither a comma nor a line feed,
    and digits, at least one. *)
Definition well_formed_row (r : row) : bool :=
  negb (bool_decide (row_sequence r = []))
  && forallb (λ c, negb (c =? COMMA) && negb (c =? 10)) (row_sequence r)
  && negb (bool_decide (row_digits r = []))
  && forallb isdigit (row_digits r).

(** A well-formed row with a score that an [int] holds. *)
Definition valid_row (r : row) : bool :=
  well_formed_row r && (row_score r <=? INT_MAX).

(** The text of a file with these lines, each ended by a line feed. *)
Definition database_text (rows : list row) : list Z :=
  concat ((λ r, row_line r ++ [10]) <$> rows).

(** A stream just opened on a file with this text, and one that could not
    be opened. *)
Definition opened (text : list Z) : ifstream :=
  {| content := text; eofbit := false; failbit := false |}.
Definition not_opened : ifstream :=
  {| content := []; eofbit := false; failbit := true |}.

(** What the rows of a database do to a table, seen as a partial function:
    a row gives its key its score, whatever the key had. *)
Definition store_row (f : list Z → option Z) (r : row) : list Z → option Z :=
  λ k, if decide (k = row_key r) then Some (row_score r) else f k.

Definition store_rows (f : list Z → option Z) (rows : list row)
  : list Z → option Z :=
  foldl store_row f rows.

(** The two bounds of the table are equal to themselves, which [operator==]
    of two [double]s finds of every value but a NaN. *)
Definition bounds_are_numbers {K V : Type} (m : HashMap K V) : Prop :=
  Qeq_bool (_upperLoadFactor m) (_upperLoadFactor m) = true
  ∧ Qeq_bool (_lowerLoadFactor m) (_lowerLoadFactor m) = true.






(** ** A database

    A table with [string] keys and [int] values and the text of a small
    database file, for the properties of [createDatabaseMap] at a concrete
    input.  [std::hash<std::string>] is left to the implementation; a
    polynomial hash stands for it here. *)
Module SampleDatabase.

#[export] Instance string_hash : Hash (list Z) :=
  {| hash str := foldl (λ h c, h * 31 + c) 0 str mod 2 ^ 64;
     hash_range := λ str, Z.mod_pos_bound _ (2 ^ 64) eq_refl |}.

(** The table that [main] hands to [createDatabaseMap]. *)
Definition empty_database : HashMap (list Z) Z :=
  {| _capacity := 16; _size := 0; _upperLoadFactor := 3 # 4;
     _lowerLoadFactor := 1 # 4; _table := replicate 16 [] |}.

(** The lines [Ab,12] and [cd,7] with a carriage return. *)
Definition sample_rows : list row :=
  [ {| row_sequence := [65; 98]; row_digits := [49; 50]; row_cr := false |};
    {| row_sequence := [99; 100]; row_digits := [55]; row_cr := true |} ].

(** The line [AB,30]. *)
Definition sample_last : row :=
  {| row_sequence := [65; 66]; row_digits := [51; 48]; row_cr := false |}.

(** The line [x,2147483648]. *)
Definition sample_large : row :=
  {| row_sequence := [120];
     row_digits := [50; 49; 52; 55; 52; 56; 51; 54; 52; 56]; row_cr := false |}.
End SampleDatabase.

(** * Properties *)

(** ** The monad and the comparisons *)

Lemma bind_Ok {A B} (a : A) (f : A → result B) : bind (Ok a) f = f a.
Proof. reflexivity. Qed.

Lemma bind_Ok_inv {A B} (f : A → result B) (r : result A) (b : B) :
  bind r f = Ok b → ∃ a, r = Ok a ∧ f a = Ok b.
Proof. destruct r as [a|e]; simpl; [eauto | discriminate]. Qed.

Lemma Qgtb_true a b : Qgtb a b = true ↔ (b < a)%Q.
Proof.
  unfold Qgtb. rewrite negb_true_iff, <- not_true_iff_false, Qle_bool_iff.
  split; [apply Qnot_le_lt | apply Qlt_not_le].
Qed.

Lemma Qgtb_false a b : Qgtb a b = false ↔ (a <= b)%Q.
Proof. unfold Qgtb. rewrite negb_false_iff. apply Qle_bool_iff. Qed.

Lemma Qltb_true a b : Qltb a b = true ↔ (a < b)%Q.
Proof. apply Qgtb_true. Qed.

Lemma Qltb_false a b : Qltb a b = false ↔ (b <= a)%Q.
Proof. apply Qgtb_false. Qed.

(** ** Masks, casts and rational quotients *)

Lemma land_le_mask (h mask : Z) : 0 ≤ mask → 0 ≤ Z.land h mask ≤ mask.
Proof.
  intros Hmask. split.
  - apply Z.land_nonneg. by right.
  - assert (Hdiff : mask - Z.land h mask = Z.ldiff mask (Z.land h mask)).
    { apply Z.sub_nocarry_ldiff. apply Z.bits_inj'. intros n Hn.
      rewrite Z.ldiff_spec, Z.land_spec, Z.bits_0.
      destruct (Z.testbit h n), (Z.testbit mask n); reflexivity. }
    assert (0 ≤ Z.ldiff mask (Z.land h mask)) by (apply Z.ldiff_nonneg; by left).
    lia.
Qed.

Lemma long_check_Ok (z : Z) : LONG_MIN ≤ z ≤ LONG_MAX → long_check z = Ok z.
Proof.
  intros [Hlo Hhi]. unfold long_check.
  destruct (Z.leb_spec LONG_MIN z), (Z.leb_spec z LONG_MAX); simpl; first done; lia.
Qed.

Lemma long_check_inv (z r : Z) : long_check z = Ok r → r = z ∧ LONG_MIN ≤ z ≤ LONG_MAX.
Proof.
  unfold long_check.
  destruct (Z.leb_spec LONG_MIN z), (Z.leb_spec z LONG_MAX); simpl;
    intros [= <-] || discriminate. done.
Qed.

Lemma inject_Z_pos (c : Z) : 0 < c → (0 < inject_Z c)%Q.
Proof. intros Hc. change 0%Q with (inject_Z 0). by rewrite <- Zlt_Qlt. Qed.

Lemma inject_Z_nonneg (c : Z) : 0 ≤ c → (0 <= inject_Z c)%Q.
Proof. intros Hc. change 0%Q with (inject_Z 0). by rewrite <- Zle_Qle. Qed.

Lemma load_le (s c : Z) (u : Q) :
  0 < c → (load s c <= u)%Q ↔ (inject_Z s <= u * inject_Z c)%Q.
Proof.
  intros Hc.
  assert (Hpos : (0 < inject_Z c)%Q) by by apply inject_Z_pos.
  unfold load. split; intros Hle.
  - setoid_replace (inject_Z s) with (inject_Z s / inject_Z c * inject_Z c)%Q
      using relation Qeq.
    + apply Qmult_le_compat_r; [done | by apply Qlt_le_weak].
    + field. intros Heq. rewrite Heq in Hpos. by apply Qlt_irrefl in Hpos.
  - by apply Qle_shift_div_r.
Qed.

Lemma load_lt (s c : Z) (u : Q) :
  0 < c → (load s c < u)%Q ↔ (inject_Z s < u * inject_Z c)%Q.
Proof.
  intros Hc. split; intros Hlt.
  - apply Qnot_le_lt. intros Hle. apply (Qlt_not_le _ _ Hlt).
    unfold load. apply Qle_shift_div_l; [by apply inject_Z_pos | done].
  - unfold load. apply Qlt_shift_div_r; [by apply inject_Z_pos | done].
Qed.

Lemma to_int_small (z : Z) : INT_MIN ≤ z ≤ INT_MAX → to_int z = z.
Proof.
  unfold to_int, INT_MIN, INT_MAX. intros Hz. cbv zeta.
  destruct (Z.ltb_spec (z mod 2 ^ 32) (2 ^ 31)) as [Hlt|Hge].
  - destruct (Z.le_gt_cases 0 z); [by rewrite Z.mod_small in * by lia|].
    rewrite <- (Z.mod_add z 1), Z.mod_small in Hlt by lia. lia.
  - destruct (Z.le_gt_cases 0 z); [rewrite Z.mod_small in * by lia; lia|].
    rewrite <- (Z.mod_add z 1), Z.mod_small by lia. lia.
Qed.

Lemma load_zero (c : Z) : (load 0 c == 0)%Q.
Proof. unfold load, Qdiv. apply Qmult_0_l. Qed.

Lemma load_nonneg (s c : Z) : 0 ≤ s → 0 < c → (0 <= load s c)%Q.
Proof.
  intros Hs Hc. unfold load. apply Qle_shift_div_l.
  - by apply inject_Z_pos.
  - rewrite Qmult_0_l. by apply inject_Z_nonneg.
Qed.

(** ** Buckets *)

Section Buckets.
Context {K V : Type} `{!EqDecision K, !Hash K}.
Implicit Types (b : list (K * V)) (t : list (list (K * V))) (key : K).

Lemma has_key_true key b : has_key key b = true ↔ key ∈ b.*1.
Proof.
  induction b as [|p b IH]; simpl.
  - split; [discriminate | by rewrite elem_of_nil].
  - rewrite elem_of_cons. destruct (decide (p.1 = key)) as [->|Hne].
    + split; auto.
    + rewrite IH. split; [auto | intros [Heq|?]; [congruence | done]].
Qed.

Lemma has_key_false key b : has_key key b = false ↔ key ∉ b.*1.
Proof. rewrite <- has_key_true. by destruct (has_key key b). Qed.

Lemma find_value_Some key b (v : V) : find_value key b = Some v → (key, v) ∈ b.
Proof.
  induction b as [|[k' v'] b IH]; simpl; [discriminate|].
  destruct (decide (k' = key)) as [->|Hne].
  - intros [= ->]. apply elem_of_cons. by left.
  - intros Hf. apply elem_of_cons. right. by apply IH.
Qed.

Lemma find_value_None key b : find_value key b = None ↔ key ∉ b.*1.
Proof.
  induction b as [|[k' v'] b IH]; simpl.
  - split; [intros _; apply not_elem_of_nil | done].
  - rewrite not_elem_of_cons. destruct (decide (k' = key)) as [->|Hne].
    + split; [discriminate | intros [? _]; done].
    + rewrite IH. split; [auto | intros [_ ?]; done].
Qed.

Lemma find_value_has_key key b :
  has_key key b = bool_decide (is_Some (find_value key b)).
Proof.
  destruct (find_value key b) as [v|] eqn:Hf.
  - rewrite bool_decide_eq_true_2 by eauto. apply has_key_true.
    apply find_value_Some in Hf. apply list_elem_of_fmap. by exists (key, v).
  - rewrite bool_decide_eq_false_2 by (intros [? ?]; done).
    apply has_key_false. by apply find_value_None.
Qed.

(** In a list without repeated keys the scan finds the one pair of a key. *)
Lemma find_value_unique key b (v : V) :
  NoDup b.*1 → (key, v) ∈ b → find_value key b = Some v.
Proof.
  induction b as [|[k' v'] b IH]; simpl; intros Hnd Hin.
  - by apply elem_of_nil in Hin.
  - apply NoDup_cons in Hnd as [Hfresh Hnd].
    apply elem_of_cons in Hin as [[= <- <-]|Hin].
    + by rewrite decide_True.
    + destruct (decide (k' = key)) as [->|Hne]; [|by apply IH].
      exfalso. apply Hfresh. apply list_elem_of_fmap. by exists (key, v).
Qed.

Lemma erase_first_None key b : erase_first key b = None ↔ key ∉ b.*1.
Proof.
  induction b as [|[k' v'] b IH]; simpl.
  - split; [intros _; apply not_elem_of_nil | done].
  - rewrite not_elem_of_cons. destruct (decide (k' = key)) as [->|Hne].
    + split; [discriminate | intros [? _]; done].
    + destruct (erase_first key b) as [b'|].
      * split; [discriminate | intros [_ Hnot]; by apply IH in Hnot].
      * split; [intros _; split; [done | by apply IH] | done].
Qed.

(** [erase] takes the first pair with the key out of the bucket and keeps
    the order of the other pairs. *)
Lemma erase_first_Some key b b' :
  erase_first key b = Some b' →
  ∃ b1 (v : V) b2, b = b1 ++ (key, v) :: b2 ∧ b' = b1 ++ b2 ∧ key ∉ b1.*1.
Proof.
  revert b'. induction b as [|[k' v'] b IH]; simpl; intros b'; [discriminate|].
  destruct (decide (k' = key)) as [->|Hne].
  - intros [= <-]. exists [], v', b. split_and!; [done | done | apply not_elem_of_nil].
  - destruct (erase_first key b) as [b''|]; [|discriminate].
    intros [= <-]. destruct (IH b'' eq_refl) as (b1 & v & b2 & -> & -> & Hnot).
    exists ((k', v') :: b1), v, b2. split_and!; [done | done |].
    simpl. rewrite not_elem_of_cons. by split.
Qed.

Lemma overwrite_keys key (value : V) b : (overwrite key value b).*1 = b.*1.
Proof.
  induction b as [|[k' v'] b IH]; [done|].
  cbn [overwrite]. rewrite !fmap_cons, IH. by destruct (decide ((k', v').1 = key)).
Qed.

Lemma overwrite_elem key (value : V) b k' (v' : V) :
  (k', v') ∈ overwrite key value b ↔
  (k' = key ∧ v' = value ∧ key ∈ b.*1) ∨ (k' ≠ key ∧ (k', v') ∈ b).
Proof.
  induction b as [|[k0 v0] b IH]; simpl.
  - rewrite !elem_of_nil. split; [done | intros [(_ & _ & [])|[_ []]]].
  - rewrite !elem_of_cons, IH. clear IH.
    destruct (decide (k0 = key)) as [->|Hne]; simpl; split.
    + intros [[= -> ->]|[(-> & -> & Hin)|[Hne Hin]]]; auto.
    + intros [(-> & -> & _)|[Hne [[= -> ->]|Hin]]]; auto. done.
    + intros [[= -> ->]|[(-> & -> & Hin)|[Hne' Hin]]]; auto.
    + intros [(-> & -> & [Heq|Hin])|[Hne' [[= -> ->]|Hin]]]; auto. done.
Qed.

Lemma read_inv t (i : Z) b : read t i = Ok b → 0 ≤ i ∧ t !! Z.to_nat i = Some b.
Proof.
  unfold read. destruct (Z.leb_spec 0 i); [|discriminate].
  destruct (t !! Z.to_nat i); [intros [= ->]; done | discriminate].
Qed.

Lemma read_lookup t (i : nat) b : t !! i = Some b → read t (Z.of_nat i) = Ok b.
Proof.
  intros Hl. unfold read. rewrite Nat2Z.id, Hl.
  destruct (Z.leb_spec 0 (Z.of_nat i)); [done | lia].
Qed.

Lemma read_in_range t (i : Z) :
  0 ≤ i < Z.of_nat (length t) → ∃ b, read t i = Ok b ∧ t !! Z.to_nat i = Some b.
Proof.
  intros Hi. destruct (lookup_lt_is_Some_2 t (Z.to_nat i)) as [b Hb]; [lia|].
  exists b. split; [|done]. rewrite <- (Z2Nat.id i) by lia. by apply read_lookup.
Qed.

Lemma _getIndex_range key (c : Z) : 1 ≤ c ≤ LONG_MAX → 0 ≤ _getIndex key c < c.
Proof.
  intros Hc. unfold _getIndex, to_size_t, to_long, LONG_MAX in *.
  rewrite Z.mod_small by lia.
  pose proof (land_le_mask (hash key) (c - 1)) as Hland.
  destruct (Z.ltb_spec (Z.land (hash key) (c - 1)) (2 ^ 63)); lia.
Qed.
End Buckets.

(** ** Traversal *)

Section Traversal.
Context {K V : Type}.
Implicit Types (m : HashMap K V) (i : PointerToPair).

Lemma skip_empty_spec m (fuel b : nat) :
  shape m → (b ≤ length (_table m))%nat → (length (_table m) - b ≤ fuel)%nat →
  ∃ j : nat,
    skip_empty fuel m (Z.of_nat b) = Ok (Z.of_nat j)
    ∧ (b ≤ j ≤ length (_table m))%nat
    ∧ concat (drop b (_table m)) = concat (drop j (_table m))
    ∧ ((j < length (_table m))%nat → ∃ p bk, _table m !! j = Some (p :: bk)).
Proof.
  intros [Hcap Hlen]. revert b. induction fuel as [|fuel IH]; intros b Hb Hfuel.
  - exists b. simpl. destruct (Z.ltb_spec (Z.of_nat b) (_capacity m)); [lia|].
    split_and!; [done | lia | lia | done | intros ?; lia].
  - simpl. destruct (Z.ltb_spec (Z.of_nat b) (_capacity m)) as [Hlt|Hge].
    + destruct (lookup_lt_is_Some_2 (_table m) b) as [bk Hbk]; [lia|].
      rewrite (read_lookup _ _ _ Hbk). simpl. destruct bk as [|p bk].
      * destruct (IH (S b)) as (j & Hj & Hrange & Hcat & Hne); [lia | lia |].
        exists j. rewrite Nat2Z.inj_succ in Hj. unfold Z.succ in Hj.
        split_and!; [done | lia | lia | | done].
        by rewrite (drop_S _ _ _ Hbk).
      * exists b. split_and!; [done | lia | lia | done | eauto].
    + exists b. split_and!; [done | lia | lia | done | intros ?; lia].
Qed.

Lemma position_end_nil m i l : position m i l → _end i = true → l = [].
Proof. destruct 1; [done | congruence]. Qed.

Lemma next_spec m (e0 : bool) (b : nat) (vi : Z * Z) :
  shape m → (b ≤ length (_table m))%nat →
  ∃ i, _getNextBucketAndIterator m
         {| _end := e0; _bucketIndex := Z.of_nat b; _vectorIterator := vi |} = Ok i
       ∧ (e0 = true → _end i = true)
       ∧ (e0 = false → position m i (concat (drop b (_table m)))).
Proof.
  intros Hshape Hb. pose proof Hshape as [Hcap Hlen].
  destruct (skip_empty_spec m (Z.to_nat (_capacity m)) b)
    as (j & Hj & Hrange & Hcat & Hne); [done | done | lia |].
  unfold _getNextBucketAndIterator. cbn [_bucketIndex _end]. rewrite Hj. simpl.
  destruct (Z.eqb_spec (Z.of_nat j) (_capacity m)) as [Heq|Hneq]; simpl.
  - destruct (read_in_range (_table m) (_capacity m - 1)) as (bk & Hread & _); [lia|].
    unfold vector_end. rewrite Hread. simpl. eexists. split; [done|].
    split; [done|]. intros _. rewrite Hcat, drop_ge by lia. by constructor.
  - destruct Hne as (p & bk & Hbk); [lia|].
    unfold vector_begin. rewrite (read_lookup _ _ _ Hbk). simpl.
    eexists. split; [done|]. split; [done|]. intros ->.
    rewrite Hcat, (drop_S _ _ _ Hbk), concat_cons.
    change (p :: bk) with (drop 0 (p :: bk)).
    eapply position_at; simpl; [done | done | done | done | lia].
Qed.

Lemma end_spec m :
  shape m →
  ∃ e bk, end_ m = Ok e ∧ _end e = true
          ∧ _table m !! Z.to_nat (_capacity m - 1) = Some bk
          ∧ _vectorIterator e = (_capacity m - 1, Z.of_nat (length bk)).
Proof.
  intros Hshape. pose proof Hshape as [Hcap Hlen].
  destruct (next_spec m true 0 (0, 0)) as (i & Hi & Hend & _); [done | lia |].
  destruct (read_in_range (_table m) (_capacity m - 1)) as (bk & Hread & Hbk); [lia|].
  change (Z.of_nat 0) with 0 in Hi.
  unfold end_, PointerToPair_new. rewrite Hi. simpl.
  rewrite Hend by done. unfold vector_end. rewrite Hread. simpl.
  eexists _, bk. by split_and!.
Qed.

Lemma begin_spec m :
  shape m → ∃ i, begin m = Ok i ∧ position m i (concat (_table m)).
Proof.
  intros Hshape. pose proof Hshape as [Hcap Hlen].
  destruct (next_spec m false 0 (0, 0)) as (i & Hi & _ & Hpos); [done | lia |].
  specialize (Hpos eq_refl). rewrite drop_0 in Hpos.
  destruct (read_in_range (_table m) (_capacity m - 1)) as (bk & Hread & Hbk); [lia|].
  change (Z.of_nat 0) with 0 in Hi.
  unfold begin, PointerToPair_new. rewrite Hi. simpl.
  destruct (_end i) eqn:Hend.
  - unfold vector_end. rewrite Hread. simpl. eexists. split; [done|].
    rewrite (position_end_nil _ _ _ Hpos Hend). by constructor.
  - by exists i.
Qed.

Lemma incr_spec m i (b o : nat) bk :
  shape m → _end i = false → _bucketIndex i = Z.of_nat b →
  _vectorIterator i = (Z.of_nat b, Z.of_nat o) →
  _table m !! b = Some bk → (o < length bk)%nat →
  ∃ i', incr m i = Ok i'
        ∧ position m i' (drop (S o) bk ++ concat (drop (S b) (_table m))).
Proof.
  intros Hshape Hend Hidx Hvi Hbk Ho. unfold incr, vector_end.
  rewrite Hidx, Hvi, Hend, (read_lookup _ _ _ Hbk). simpl.
  unfold vector_iterator_eqb. simpl. rewrite Z.eqb_refl. simpl.
  destruct (Z.eqb_spec (Z.of_nat o + 1) (Z.of_nat (length bk))) as [Heq|Hneq].
  - destruct (next_spec m false (S b) (Z.of_nat b, Z.of_nat o + 1))
      as (i' & Hi' & _ & Hpos); [done | |].
    { apply lookup_lt_Some in Hbk. lia. }
    rewrite Nat2Z.inj_succ in Hi'. unfold Z.succ in Hi'.
    exists i'. split; [done|]. rewrite drop_ge by lia. by apply Hpos.
  - eexists. split; [done|].
    eapply position_at; simpl; [done | done | | done | lia].
    by rewrite Nat2Z.inj_succ.
Qed.

Lemma for_each_spec {S R : Type} m (body : K * V → S → result (control S R))
    (fuel : nat) i l (s : S) :
  shape m → position m i l → (length l ≤ fuel)%nat →
  for_each fuel m body i s = fold_control body l s.
Proof.
  intros Hshape. destruct (end_spec m Hshape) as (e & last & He & Hend & Hlast & Hvi).
  revert i l s. induction fuel as [|fuel IH]; intros i l s Hpos Hfuel;
    simpl; rewrite He; simpl;
    destruct Hpos as [i Hi|i b o bk Hi Hidx Hvec Hbk Ho].
  - unfold iterator_eqb. by rewrite Hi, Hend.
  - rewrite length_app, length_drop in Hfuel. lia.
  - unfold iterator_eqb. by rewrite Hi, Hend.
  - assert (Hne : iterator_eqb i e = false).
    { unfold iterator_eqb, vector_iterator_eqb. rewrite Hi, Hvec, Hvi. simpl.
      destruct (Z.eqb_spec (Z.of_nat b) (_capacity m - 1)) as [Heq|]; [|done].
      rewrite <- Heq, Nat2Z.id in Hlast. simplify_eq. simpl.
      apply Z.eqb_neq. lia. }
    rewrite Hne. simpl.
    destruct (lookup_lt_is_Some_2 bk o Ho) as [p Hp].
    unfold deref. rewrite Hvec. simpl. rewrite (read_lookup _ _ _ Hbk). simpl.
    destruct (Z.leb_spec 0 (Z.of_nat o)); [|lia]. rewrite Nat2Z.id, Hp.
    rewrite (drop_S _ _ _ Hp) in Hfuel |- *. simpl in Hfuel |- *.
    destruct (body p s) as [[s'|r]|err]; simpl; [|done|done].
    destruct (incr_spec m i b o bk) as (i' & Hi' & Hpos'); [done..|].
    rewrite Hi'. simpl. apply IH; [done | lia].
Qed.

(** A traversal runs its body over the buckets in the order of the array,
    and over each bucket from front to back. *)
Lemma range_for_spec {S R : Type} m (body : K * V → S → result (control S R)) (s : S) :
  shape m → range_for m body s = fold_control body (concat (_table m)) s.
Proof.
  intros Hshape. destruct (begin_spec m Hshape) as (i & Hi & Hpos).
  unfold range_for. rewrite Hi. simpl. by apply for_each_spec.
Qed.

Lemma fold_control_collect (l acc : list (K * V)) :
  fold_control (R := Empty_set) (λ p a, Ok (Continue (a ++ [p]))) l acc
  = Ok (Continue (acc ++ l)).
Proof.
  revert acc. induction l as [|p l IH]; intros acc; simpl.
  - by rewrite app_nil_r.
  - rewrite IH. by rewrite <- app_assoc.
Qed.

Lemma iterate_spec m : shape m → iterate m = Ok (concat (_table m)).
Proof.
  intros Hshape. unfold iterate.
  by rewrite range_for_spec, fold_control_collect.
Qed.
End Traversal.

(** ** Well-formed tables *)

Section Representation.
Context {K V : Type} `{!EqDecision K, !Hash K}.
Implicit Types (m : HashMap K V) (t : list (list (K * V))) (b : list (K * V)).
Implicit Types (key : K) (p : K * V).

Lemma wf_shape m : wf m → shape m.
Proof. intros [[Hc _] Hl _ _ _ _]. by split. Qed.

Lemma concat_lookup_split t (i : nat) b :
  t !! i = Some b →
  concat t = concat (take i t) ++ b ++ concat (drop (S i) t).
Proof.
  intros Hb. rewrite <- (take_drop_middle t i b Hb) at 1.
  by rewrite concat_app, concat_cons.
Qed.

Lemma concat_insert_split t (i : nat) b b' :
  t !! i = Some b →
  concat (<[i := b']> t) = concat (take i t) ++ b' ++ concat (drop (S i) t).
Proof.
  intros Hb. rewrite insert_take_drop by (by eapply lookup_lt_Some).
  by rewrite concat_app, concat_cons.
Qed.

Lemma concat_push t (i : nat) b p :
  t !! i = Some b → concat (<[i := b ++ [p]]> t) ≡ₚ p :: concat t.
Proof.
  intros Hb. rewrite (concat_insert_split t i b _ Hb), (concat_lookup_split t i b Hb).
  rewrite <- (app_assoc b [p]). simpl. rewrite !app_assoc.
  symmetry. apply Permutation_middle.
Qed.

Lemma placed_insert (c : Z) t (i : nat) b' :
  placed c t → (∀ p, p ∈ b' → _getIndex p.1 c = Z.of_nat i) →
  placed c (<[i := b']> t).
Proof.
  intros Hpl Hb' j b p Hj Hp. destruct (decide (i = j)) as [->|Hne].
  - apply list_lookup_insert_Some in Hj as [(_ & <- & _)|[? _]]; [auto | done].
  - rewrite list_lookup_insert_ne in Hj by done. by eapply Hpl.
Qed.

Lemma placed_replicate (c : Z) (n : nat) : placed (V := V) c (replicate n []).
Proof.
  intros j b p Hj Hp. apply lookup_replicate in Hj as [-> _].
  by apply elem_of_nil in Hp.
Qed.

Lemma concat_replicate_nil (n : nat) : concat (replicate n (@nil (K * V))) = [].
Proof. induction n as [|n IH]; simpl; [done | by rewrite IH]. Qed.

(** Filling a table pair by pair, as [_reHash] and the copy constructor do. *)
Lemma fill_spec (c : Z) (l : list (K * V)) t :
  1 ≤ c ≤ LONG_MAX → Z.of_nat (length t) = c → placed c t →
  ∃ t', fold_control (add_entry c) l t = Ok (Continue t')
        ∧ Z.of_nat (length t') = c
        ∧ placed c t'
        ∧ concat t' ≡ₚ concat t ++ l.
Proof.
  intros Hc. revert t. induction l as [|[k v] l IH]; intros t Hlen Hpl.
  - exists t. simpl. by rewrite app_nil_r.
  - pose proof (_getIndex_range k c Hc) as Hi.
    destruct (read_in_range t (_getIndex k c)) as (b & Hread & Hb); [lia|].
    destruct (IH (<[Z.to_nat (_getIndex k c) := b ++ [(k, v)]]> t))
      as (t' & Hfold & Hlen' & Hpl' & Hperm).
    { by rewrite length_insert. }
    { apply placed_insert; [done|]. intros p [Hp|Hp]%elem_of_app.
      - rewrite (Hpl _ _ _ Hb Hp). done.
      - apply list_elem_of_singleton in Hp as ->. simpl. lia. }
    exists t'. split_and!; [|done|done|].
    + simpl. unfold add_entry at 1, _addToTable. simpl. rewrite Hread. simpl. done.
    + rewrite Hperm, (concat_push _ _ _ _ Hb).
      by rewrite <- Permutation_middle.
Qed.

Lemma find_value_app key b1 b2 :
  find_value (V := V) key (b1 ++ b2) =
  match find_value key b1 with
  | Some v => Some v
  | None => find_value key b2
  end.
Proof.
  induction b1 as [|p b1 IH]; simpl; [done|].
  by destruct (decide (p.1 = key)).
Qed.

Lemma find_value_concat_None key (ts : list (list (K * V))) :
  (∀ b, b ∈ ts → find_value key b = None) → find_value key (concat ts) = None.
Proof.
  induction ts as [|b ts IH]; intros Hall; simpl; [done|].
  rewrite find_value_app, Hall by (apply elem_of_cons; by left).
  apply IH. intros b' Hb'. apply Hall. apply elem_of_cons. by right.
Qed.

Lemma placed_other_bucket (c : Z) t (j : nat) b key :
  placed c t → t !! j = Some b → _getIndex key c ≠ Z.of_nat j →
  find_value key b = None.
Proof.
  intros Hpl Hb Hne. apply find_value_None.
  intros ([k v] & -> & Hin)%list_elem_of_fmap. apply Hne.
  by apply (Hpl _ _ _ Hb Hin).
Qed.

(** Scanning the bucket of a key finds what a scan of all the pairs finds. *)
Lemma find_value_bucket (c : Z) t b key :
  placed c t → 0 ≤ _getIndex key c →
  t !! Z.to_nat (_getIndex key c) = Some b →
  find_value key (concat t) = find_value key b.
Proof.
  intros Hpl Hi Hb. rewrite (concat_lookup_split _ _ _ Hb), !find_value_app.
  rewrite find_value_concat_None.
  - destruct (find_value key b); [done|]. apply find_value_concat_None.
    intros b' [j Hj]%list_elem_of_lookup. rewrite lookup_drop in Hj.
    eapply placed_other_bucket; [done | done | lia].
  - intros b' [j Hj]%list_elem_of_lookup.
    apply lookup_take_Some in Hj as [Hj Hlt].
    eapply placed_other_bucket; [done | done | lia].
Qed.

Lemma find_value_perm key (l l' : list (K * V)) :
  NoDup l.*1 → l ≡ₚ l' → find_value key l = find_value key l'.
Proof.
  intros Hnd Hperm.
  assert (Hnd' : NoDup l'.*1) by by rewrite <- Hperm.
  destruct (find_value key l) as [v|] eqn:Hf.
  - symmetry. apply find_value_unique; [done|].
    rewrite <- Hperm. by apply find_value_Some.
  - symmetry. apply find_value_None. rewrite <- Hperm. by apply find_value_None.
Qed.

Lemma read_bucket m key :
  wf m →
  ∃ b, read (_table m) (_getIndex key (_capacity m)) = Ok b
       ∧ _table m !! Z.to_nat (_getIndex key (_capacity m)) = Some b
       ∧ find_value key b = find_value key (entries m).
Proof.
  intros Hwf. pose proof (_getIndex_range key _ (wf_capacity m Hwf)) as Hi.
  destruct (read_in_range (_table m) (_getIndex key (_capacity m)))
    as (b & Hread & Hb); [rewrite (wf_length m Hwf); lia|].
  exists b. split_and!; [done | done |]. symmetry.
  eapply find_value_bucket; [apply (wf_placed m Hwf) | lia | done].
Qed.

Lemma at_spec m key : wf m → at_ m key = lookup_result (find_value key (entries m)).
Proof.
  intros Hwf. destruct (read_bucket m key Hwf) as (b & Hread & _ & Hfind).
  unfold at_. rewrite Hread. simpl. by rewrite Hfind.
Qed.

Lemma containsKey_spec m key :
  wf m → containsKey m key = Ok (bool_decide (key ∈ (entries m).*1)).
Proof.
  intros Hwf. destruct (read_bucket m key Hwf) as (b & Hread & _ & Hfind).
  unfold containsKey. rewrite Hread. simpl. f_equal.
  assert (Hhas : has_key key b = bool_decide (key ∈ (entries m).*1)).
  { rewrite find_value_has_key, Hfind.
    apply bool_decide_ext. rewrite <- not_eq_None_Some, find_value_None.
    split; [apply dec_stable | auto]. }
  rewrite <- Hhas. by destruct b.
Qed.
End Representation.

(** ** Resizing *)

Section Resizing.
Context {K V : Type} `{!EqDecision K, !Hash K}.
Implicit Types (m : HashMap K V) (t : list (list (K * V))).

Lemma resized_refl m : resized m m.
Proof. by split_and!. Qed.

Lemma resized_wf m m' :
  wf m → resized m m' → 1 ≤ _capacity m' ≤ LONG_MAX →
  Z.of_nat (length (_table m')) = _capacity m' →
  placed (_capacity m') (_table m') → wf m'.
Proof.
  intros Hwf (Hsize & _ & _ & Hperm) Hc Hlen Hpl. split; [done | done | | | done |].
  - by rewrite Hsize, Hperm, (wf_size m Hwf).
  - rewrite Hsize. apply (wf_size_max m Hwf).
  - rewrite Hperm. apply (wf_keys m Hwf).
Qed.

Lemma fill_fresh (source : HashMap K V) (c : Z) :
  shape source → 1 ≤ c ≤ LONG_MAX →
  ∃ t, new_table (K := K) (V := V) c = Ok (replicate (Z.to_nat c) [])
       ∧ range_for source (add_entry c) (replicate (Z.to_nat c) []) = Ok (Continue t)
       ∧ Z.of_nat (length t) = c
       ∧ placed c t
       ∧ concat t ≡ₚ entries source.
Proof.
  intros Hshape Hc.
  destruct (fill_spec c (entries source) (replicate (Z.to_nat c) []))
    as (t & Hfold & Hlen & Hpl & Hperm);
    [done | rewrite length_replicate; lia | apply placed_replicate |].
  exists t. split_and!; [| | done | done |].
  - unfold new_table. destruct (Z.ltb_spec c 0); [lia | done].
  - by rewrite range_for_spec.
  - by rewrite Hperm, concat_replicate_nil.
Qed.

Lemma reHash_spec m (c : Z) :
  wf m → 1 ≤ c ≤ LONG_MAX →
  ∃ m', _reHash m c = Ok m' ∧ wf m' ∧ resized m m' ∧ _capacity m' = c.
Proof.
  intros Hwf Hc.
  destruct (fill_fresh m c) as (t & Hnew & Hfill & Hlen & Hpl & Hperm);
    [by apply wf_shape | done |].
  unfold _reHash. rewrite Hnew. simpl. rewrite Hfill. simpl.
  eexists. split; [done|].
  assert (Hres : resized m {| _capacity := c; _size := _size m;
                              _upperLoadFactor := _upperLoadFactor m;
                              _lowerLoadFactor := _lowerLoadFactor m;
                              _table := t |}) by by split_and!.
  split_and!; [|done|done]. by eapply resized_wf.
Qed.

(** The growth loop stops at the first capacity of the doubling sequence
    whose load is within the bound. *)
Lemma grow_inv (fuel : nat) (s c c' : Z) (u : Q) :
  1 ≤ c ≤ LONG_MAX → grow fuel s c u = Ok c' →
  ∃ j : nat, c' = c * 2 ^ Z.of_nat j
             ∧ c' ≤ LONG_MAX
             ∧ (load s c' <= u)%Q
             ∧ ∀ i : nat, (i < j)%nat → (u < load s (c * 2 ^ Z.of_nat i))%Q.
Proof.
  revert c. induction fuel as [|fuel IH]; intros c Hc; simpl;
    destruct (Qgtb (load s c) u) eqn:Hcmp; try discriminate.
  - intros [= <-]. exists 0%nat. apply Qgtb_false in Hcmp.
    split_and!; [lia | lia | done | intros i Hi; lia].
  - intros (c2 & Hcheck & Hgrow)%bind_Ok_inv.
    apply long_check_inv in Hcheck as [-> Hrange]. unfold TABLE_FACTOR in *.
    destruct (IH (c * 2)) as (j & -> & Hmax & Hload & Hmin); [lia | done |].
    exists (S j). rewrite Nat2Z.inj_succ, Z.pow_succ_r by lia.
    replace (c * (2 * 2 ^ Z.of_nat j)) with (c * 2 * 2 ^ Z.of_nat j) by lia.
    split_and!; [done | done | done |].
    intros [|i] Hi.
    + rewrite Z.mul_1_r. by apply Qgtb_true.
    + rewrite Nat2Z.inj_succ, Z.pow_succ_r by lia.
      replace (c * (2 * 2 ^ Z.of_nat i)) with (c * 2 * 2 ^ Z.of_nat i) by lia.
      apply Hmin. lia.
  - intros [= <-]. exists 0%nat. apply Qgtb_false in Hcmp.
    split_and!; [lia | lia | done | intros i Hi; lia].
Qed.

(** With a bound that is not negative and a size that a capacity of 2^62
    can hold, the growth loop finds its capacity. *)
Lemma grow_total (fuel : nat) (s c : Z) (u : Q) :
  1 ≤ c ≤ LONG_MAX → 2 ^ 63 ≤ c * 2 ^ Z.of_nat fuel →
  (0 <= u)%Q → (inject_Z s <= u * inject_Z (2 ^ 62))%Q →
  ∃ c', grow fuel s c u = Ok c'.
Proof.
  intros Hc Hfuel Hu Hs. revert c Hc Hfuel.
  induction fuel as [|fuel IH]; intros c Hc Hfuel.
  - unfold LONG_MAX in Hc. simpl in Hfuel. lia.
  - simpl. destruct (Qgtb (load s c) u) eqn:Hcmp; [|by eexists].
    apply Qgtb_true in Hcmp.
    assert (Hlt : (u * inject_Z c < u * inject_Z (2 ^ 62))%Q).
    { eapply Qlt_le_trans; [|exact Hs].
      apply Qnot_le_lt. intros Hle. apply (Qlt_not_le _ _ Hcmp).
      apply load_le; [lia | done]. }
    assert (Hupos : (0 < u)%Q).
    { apply Qnot_le_lt. intros Hle.
      assert (Hzero : (u == 0)%Q) by by apply Qle_antisym.
      rewrite Hzero, !Qmult_0_l in Hlt. by apply Qlt_irrefl in Hlt. }
    apply Qmult_lt_l in Hlt; [|done]. rewrite <- Zlt_Qlt in Hlt.
    unfold TABLE_FACTOR, LONG_MAX, LONG_MIN in *.
    rewrite long_check_Ok by (unfold LONG_MAX, LONG_MIN; lia). simpl.
    apply IH; [lia|].
    rewrite Nat2Z.inj_succ, Z.pow_succ_r in Hfuel by lia. lia.
Qed.

Lemma keepUpper_noop m :
  (getLoadFactor m <= _upperLoadFactor m)%Q → _keepUpperLoadFactor m = Ok m.
Proof. intros Hle%Qgtb_false. unfold _keepUpperLoadFactor. by rewrite Hle. Qed.

Lemma keepUpper_spec m m' :
  wf m → _keepUpperLoadFactor m = Ok m' →
  wf m' ∧ resized m m'
  ∧ (getLoadFactor m' <= _upperLoadFactor m')%Q
  ∧ ∃ j : nat, _capacity m' = _capacity m * 2 ^ Z.of_nat j
               ∧ ∀ i : nat, (i < j)%nat →
                   (_upperLoadFactor m < load (_size m) (_capacity m * 2 ^ Z.of_nat i))%Q.
Proof.
  intros Hwf. unfold _keepUpperLoadFactor.
  destruct (Qgtb (getLoadFactor m) (_upperLoadFactor m)) eqn:Hcmp.
  - intros (c & Hgrow & Hre)%bind_Ok_inv.
    apply grow_inv in Hgrow as (j & -> & Hmax & Hload & Hmin);
      [|apply (wf_capacity m Hwf)].
    destruct (reHash_spec m (_capacity m * 2 ^ Z.of_nat j)) as (m2 & Hre2 & Hwf2 & Hres & Hcap).
    { done. }
    { pose proof (wf_capacity m Hwf). split; [|done].
      assert (1 ≤ 2 ^ Z.of_nat j) by (apply (Z.pow_le_mono_r 2 0); lia). nia. }
    rewrite Hre in Hre2. injection Hre2 as <-.
    split_and!; [done | done | | by exists j].
    destruct Hres as (Hs & Hu & _). unfold getLoadFactor. by rewrite Hs, Hu, Hcap.
  - intros [= <-]. apply Qgtb_false in Hcmp.
    split_and!; [done | apply resized_refl | done |].
    exists 0%nat. split; [lia | intros i Hi; lia].
Qed.

Lemma keepUpper_total m :
  wf m → (0 <= _upperLoadFactor m)%Q →
  (inject_Z (_size m) <= _upperLoadFactor m * inject_Z (2 ^ 62))%Q →
  ∃ m', _keepUpperLoadFactor m = Ok m'.
Proof.
  intros Hwf Hu Hs. unfold _keepUpperLoadFactor.
  destruct (Qgtb (getLoadFactor m) (_upperLoadFactor m)); [|by eexists].
  pose proof (wf_capacity m Hwf) as Hc.
  destruct (grow_total grow_fuel (_size m) (_capacity m) (_upperLoadFactor m))
    as (c & Hgrow); [done | unfold grow_fuel; simpl; lia | done | done |].
  rewrite Hgrow. simpl.
  apply grow_inv in Hgrow as (j & -> & Hmax & _); [|done].
  destruct (reHash_spec m (_capacity m * 2 ^ Z.of_nat j)) as (m2 & Hre2 & _); [done | |].
  { split; [|done].
    assert (1 ≤ 2 ^ Z.of_nat j) by (apply (Z.pow_le_mono_r 2 0); lia). nia. }
  by exists m2.
Qed.

(** [erase] shrinks by one halving at most, and not below one bucket. *)
Lemma keepLower_spec m :
  wf m →
  ∃ m', _keepLowerLoadFactor m = Ok m' ∧ wf m' ∧ resized m m'
        ∧ (((getLoadFactor m < _lowerLoadFactor m)%Q ∧ _capacity m ≠ 1
            ∧ _capacity m' = _capacity m ÷ 2 ∧ 1 ≤ _capacity m')
           ∨ (¬ ((getLoadFactor m < _lowerLoadFactor m)%Q ∧ _capacity m ≠ 1)
              ∧ m' = m)).
Proof.
  intros Hwf. pose proof (wf_capacity m Hwf) as Hc. unfold _keepLowerLoadFactor.
  destruct (Qltb (getLoadFactor m) (_lowerLoadFactor m)) eqn:Hcmp;
    destruct (Z.eqb_spec (_capacity m) 1) as [Hone|Hone]; simpl.
  - exists m. split_and!; [done | done | apply resized_refl |].
    right. split; [intros (_ & ?); done | done].
  - assert (Hhalf : 1 ≤ _capacity m ÷ 2 ≤ LONG_MAX).
    { rewrite Z.quot_div_nonneg by lia.
      split; [apply Z.div_le_lower_bound; lia | ].
      transitivity (_capacity m); [apply Z.div_le_upper_bound; lia | lia]. }
    destruct (reHash_spec m (_capacity m ÷ 2)) as (m' & Hre & Hwf' & Hres & Hcap);
      [done | done |].
    exists m'. unfold TABLE_FACTOR. split_and!; [done | done | done |].
    left. apply Qltb_true in Hcmp. split_and!; [done | done | done | lia].
  - exists m. split_and!; [done | done | apply resized_refl |].
    right. split; [intros (_ & ?); done | done].
  - exists m. split_and!; [done | done | apply resized_refl |].
    right. apply Qltb_false in Hcmp.
    split; [intros (Hlt & _); by apply (Qlt_not_le _ _ Hlt) | done].
Qed.

(** The fuel of the growth loop is enough: the loop ends with a capacity, or
    with the overflow of one. *)
Lemma grow_fuel_enough (fuel : nat) (s c : Z) (u : Q) :
  1 ≤ c ≤ LONG_MAX → 2 ^ 63 ≤ c * 2 ^ Z.of_nat fuel →
  grow fuel s c u ≠ Throw out_of_fuel.
Proof.
  revert c. induction fuel as [|fuel IH]; intros c Hc Hfuel.
  - unfold LONG_MAX in Hc. simpl in Hfuel. lia.
  - simpl. destruct (Qgtb (load s c) u); [|done].
    destruct (long_check (c * TABLE_FACTOR)) as [c2|e] eqn:Hcheck; simpl.
    + apply long_check_inv in Hcheck as [-> Hrange]. unfold TABLE_FACTOR in *.
      apply IH; [lia|].
      rewrite Nat2Z.inj_succ, Z.pow_succ_r in Hfuel by lia. lia.
    + unfold long_check in Hcheck.
      destruct (_ && _); [discriminate | by injection Hcheck as <-].
Qed.

Lemma keepUpper_fuel_enough m : wf m → _keepUpperLoadFactor m ≠ Throw out_of_fuel.
Proof.
  intros Hwf. pose proof (wf_capacity m Hwf) as Hc. unfold _keepUpperLoadFactor.
  destruct (Qgtb (getLoadFactor m) (_upperLoadFactor m)); [|done].
  destruct (grow grow_fuel (_size m) (_capacity m) (_upperLoadFactor m))
    as [c|e] eqn:Hgrow; simpl.
  - apply grow_inv in Hgrow as (j & -> & Hmax & _); [|done].
    destruct (reHash_spec m (_capacity m * 2 ^ Z.of_nat j)) as (m2 & -> & _); [done | |done].
    split; [|done].
    assert (1 ≤ 2 ^ Z.of_nat j) by (apply (Z.pow_le_mono_r 2 0); lia). nia.
  - intros [= ->]. revert Hgrow. apply grow_fuel_enough; [done|].
    unfold grow_fuel. simpl. lia.
Qed.
End Resizing.

(** ** One bucket replaced *)

Section Updates.
Context {K V : Type} `{!EqDecision K, !Hash K}.
Implicit Types (m : HashMap K V) (b : list (K * V)) (key : K) (value : V).

Lemma with_bucket_push m key value b :
  wf m → key ∉ (entries m).*1 → _size m + 1 ≤ LONG_MAX →
  _table m !! Z.to_nat (_getIndex key (_capacity m)) = Some b →
  let m1 := with_bucket m (_getIndex key (_capacity m)) (b ++ [(key, value)])
              (_size m + 1) in
  wf m1 ∧ entries m1 ≡ₚ (key, value) :: entries m.
Proof.
  intros Hwf Hfresh Hmax Hb m1.
  pose proof (_getIndex_range key _ (wf_capacity m Hwf)) as Hi.
  assert (Hperm : entries m1 ≡ₚ (key, value) :: entries m)
    by exact (concat_push _ _ _ _ Hb).
  split; [|done]. split; simpl.
  - apply (wf_capacity m Hwf).
  - rewrite length_insert. apply (wf_length m Hwf).
  - fold (entries m1). rewrite Hperm. simpl. rewrite (wf_size m Hwf). lia.
  - done.
  - apply placed_insert; [apply (wf_placed m Hwf)|].
    intros p [Hp|Hp]%elem_of_app.
    + rewrite (wf_placed m Hwf _ _ _ Hb Hp). lia.
    + apply list_elem_of_singleton in Hp as ->. simpl. lia.
  - fold (entries m1). rewrite Hperm. simpl. apply NoDup_cons.
    split; [done | apply (wf_keys m Hwf)].
Qed.

Lemma with_bucket_remove m (i : nat) b1 b2 (p : K * V) :
  wf m → _table m !! i = Some (b1 ++ p :: b2) →
  let m1 := with_bucket m (Z.of_nat i) (b1 ++ b2) (_size m - 1) in
  wf m1 ∧ entries m ≡ₚ p :: entries m1.
Proof.
  intros Hwf Hb m1.
  assert (Hperm : entries m ≡ₚ p :: entries m1).
  { unfold entries, m1, with_bucket. simpl. rewrite Nat2Z.id.
    rewrite (concat_insert_split _ _ _ _ Hb), (concat_lookup_split _ _ _ Hb).
    rewrite <- !app_assoc. simpl.
    rewrite !(app_assoc (concat (take i (_table m)))).
    by rewrite <- Permutation_middle. }
  split; [|done]. split; simpl.
  - apply (wf_capacity m Hwf).
  - rewrite length_insert. apply (wf_length m Hwf).
  - fold (entries m1). rewrite (wf_size m Hwf), Hperm. simpl. lia.
  - pose proof (wf_size_max m Hwf). lia.
  - rewrite Nat2Z.id. apply placed_insert; [apply (wf_placed m Hwf)|].
    intros q Hq. apply (wf_placed m Hwf _ _ _ Hb).
    apply elem_of_app in Hq as [Hq|Hq]; apply elem_of_app; [by left|].
    right. apply elem_of_cons. by right.
  - fold (entries m1). pose proof (wf_keys m Hwf) as Hnd.
    rewrite Hperm in Hnd. simpl in Hnd. by apply NoDup_cons in Hnd as [_ Hnd].
Qed.

Lemma with_bucket_overwrite m key value b :
  wf m → _table m !! Z.to_nat (_getIndex key (_capacity m)) = Some b →
  let m1 := with_bucket m (_getIndex key (_capacity m)) (overwrite key value b)
              (_size m) in
  wf m1 ∧ (entries m1).*1 = (entries m).*1
  ∧ ∀ k v, (k, v) ∈ entries m1 ↔
           (k = key ∧ v = value ∧ key ∈ b.*1) ∨ (k ≠ key ∧ (k, v) ∈ entries m).
Proof.
  intros Hwf Hb m1.
  pose proof (_getIndex_range key _ (wf_capacity m Hwf)) as Hi.
  assert (Hsplit : entries m1 = concat (take (Z.to_nat (_getIndex key (_capacity m))) (_table m))
                     ++ overwrite key value b
                     ++ concat (drop (S (Z.to_nat (_getIndex key (_capacity m)))) (_table m)))
    by exact (concat_insert_split _ _ _ _ Hb).
  assert (Hkeys : (entries m1).*1 = (entries m).*1).
  { rewrite Hsplit. unfold entries. rewrite (concat_lookup_split _ _ _ Hb).
    by rewrite !fmap_app, overwrite_keys. }
  split_and!; [split; simpl | done |].
  - apply (wf_capacity m Hwf).
  - rewrite length_insert. apply (wf_length m Hwf).
  - fold (entries m1). rewrite (wf_size m Hwf).
    by rewrite <- (length_fmap fst (entries m1)), Hkeys, length_fmap.
  - apply (wf_size_max m Hwf).
  - apply placed_insert; [apply (wf_placed m Hwf)|].
    intros [k v] [(-> & _)|(Hne & Hin)]%overwrite_elem; simpl.
    + lia.
    + pose proof (wf_placed m Hwf _ _ _ Hb Hin) as Hp. simpl in Hp. lia.
  - fold (entries m1). rewrite Hkeys. apply (wf_keys m Hwf).
  - intros k v. rewrite Hsplit. unfold entries.
    rewrite (concat_lookup_split _ _ _ Hb), !elem_of_app, overwrite_elem.
    assert (Hother : ∀ l : list (list (K * V)),
               (∀ bk, bk ∈ l → find_value key bk = None) →
               (k, v) ∈ concat l → k ≠ key).
    { intros l Hl Hin ->. apply find_value_concat_None in Hl.
      apply find_value_None in Hl. apply Hl. apply list_elem_of_fmap.
      by exists (key, v). }
    assert (Htake : (k, v) ∈ concat (take (Z.to_nat (_getIndex key (_capacity m))) (_table m))
                    → k ≠ key).
    { apply Hother. intros bk [j Hj]%list_elem_of_lookup.
      apply lookup_take_Some in Hj as [Hj Hlt].
      eapply placed_other_bucket; [apply (wf_placed m Hwf) | done | lia]. }
    assert (Hdrop : (k, v) ∈ concat (drop (S (Z.to_nat (_getIndex key (_capacity m)))) (_table m))
                    → k ≠ key).
    { apply Hother. intros bk [j Hj]%list_elem_of_lookup.
      rewrite lookup_drop in Hj.
      eapply placed_other_bucket; [apply (wf_placed m Hwf) | done | lia]. }
    split.
    + intros [Hin|[[Hin|[Hne Hin]]|Hin]]; auto.
    + intros [Hin|[Hne [Hin|[Hin|Hin]]]]; auto.
Qed.
End Updates.

(** ** The operations on well-formed tables *)

Section Operations.
Context {K V : Type} `{!EqDecision K, !Hash K, !Inhabited V}.
Implicit Types (m : HashMap K V) (b : list (K * V)) (key : K) (value : V).

Lemma containsKey_inv m key (r : bool) :
  containsKey m key = Ok r →
  ∃ b, read (_table m) (_getIndex key (_capacity m)) = Ok b ∧ has_key key b = r.
Proof.
  unfold containsKey. intros (b & Hread & [= <-])%bind_Ok_inv.
  exists b. split; [done|]. by destruct b.
Qed.

Lemma insert_present m key value :
  containsKey m key = Ok true → insert m key value = Ok (false, m).
Proof. intros Hc. unfold insert. by rewrite Hc. Qed.

(** [insert] of a key the table does not hold, up to the resize check. *)
Lemma insert_absent m key value :
  wf m → containsKey m key = Ok false →
  ∃ b, _table m !! Z.to_nat (_getIndex key (_capacity m)) = Some b
       ∧ key ∉ (entries m).*1
       ∧ insert m key value =
           (let! s := long_check (_size m + 1) in
            let! m' := _keepUpperLoadFactor
                         (with_bucket m (_getIndex key (_capacity m))
                            (b ++ [(key, value)]) s) in
            Ok (true, m')).
Proof.
  intros Hwf Hc. destruct (read_bucket m key Hwf) as (b & Hread & Hb & _).
  exists b. split; [done|]. split.
  - rewrite (containsKey_spec m key Hwf) in Hc. injection Hc as Hc.
    by apply bool_decide_eq_false in Hc.
  - unfold insert, _addToTable. rewrite Hc. simpl. rewrite Hread. done.
Qed.

Lemma insert_inv m key value (r : bool) m' :
  wf m → insert m key value = Ok (r, m') →
  (r = false ∧ m' = m ∧ key ∈ (entries m).*1)
  ∨ (r = true ∧ key ∉ (entries m).*1
     ∧ ∃ b, _table m !! Z.to_nat (_getIndex key (_capacity m)) = Some b
            ∧ _size m + 1 ≤ LONG_MAX
            ∧ _keepUpperLoadFactor
                (with_bucket m (_getIndex key (_capacity m)) (b ++ [(key, value)])
                   (_size m + 1)) = Ok m').
Proof.
  intros Hwf Hins. pose proof (containsKey_spec m key Hwf) as Hc.
  destruct (bool_decide (key ∈ (entries m).*1)) eqn:Hin.
  - rewrite (insert_present _ _ _ Hc) in Hins. injection Hins as <- <-.
    left. by apply bool_decide_eq_true in Hin.
  - destruct (insert_absent m key value Hwf Hc) as (b & Hb & Hfresh & Heq).
    rewrite Heq in Hins.
    apply bind_Ok_inv in Hins as (s & Hs & Hins).
    apply long_check_inv in Hs as [-> Hs].
    apply bind_Ok_inv in Hins as (m2 & Hkeep & [= <- <-]).
    right. split_and!; [done | done |]. exists b. split_and!; [done | lia | done].
Qed.

(** What [insert] of a new key leaves behind. *)
Lemma insert_true m key value m' :
  wf m → insert m key value = Ok (true, m') →
  wf m' ∧ key ∉ (entries m).*1
  ∧ entries m' ≡ₚ (key, value) :: entries m
  ∧ _size m' = _size m + 1
  ∧ _upperLoadFactor m' = _upperLoadFactor m
  ∧ _lowerLoadFactor m' = _lowerLoadFactor m
  ∧ (getLoadFactor m' <= _upperLoadFactor m')%Q
  ∧ ∃ j : nat, _capacity m' = _capacity m * 2 ^ Z.of_nat j
               ∧ ∀ i : nat, (i < j)%nat →
                   (_upperLoadFactor m
                    < load (_size m + 1) (_capacity m * 2 ^ Z.of_nat i))%Q.
Proof.
  intros Hwf [(? & _)|(_ & Hfresh & b & Hb & Hmax & Hkeep)]%insert_inv; [done | | done].
  destruct (with_bucket_push m key value b Hwf Hfresh Hmax Hb) as [Hwf1 Hperm1].
  destruct (keepUpper_spec _ _ Hwf1 Hkeep)
    as (Hwf' & (Hs & Hu & Hl & Hperm) & Hload & j & Hcap & Hmin).
  split_and!; [done | done | by rewrite Hperm | done | done | done | done |].
  by exists j.
Qed.

(** [insert] of a new key that the capacity still has room for. *)
Lemma insert_fits m key value :
  wf m → key ∉ (entries m).*1 → _size m + 1 ≤ LONG_MAX →
  (load (_size m + 1) (_capacity m) <= _upperLoadFactor m)%Q →
  ∃ b, _table m !! Z.to_nat (_getIndex key (_capacity m)) = Some b
       ∧ insert m key value =
           Ok (true, with_bucket m (_getIndex key (_capacity m))
                       (b ++ [(key, value)]) (_size m + 1)).
Proof.
  intros Hwf Hfresh Hmax Hload.
  destruct (insert_absent m key value Hwf) as (b & Hb & _ & ->).
  { rewrite (containsKey_spec m key Hwf). f_equal. by apply bool_decide_eq_false. }
  exists b. split; [done|].
  rewrite long_check_Ok, bind_Ok
    by (pose proof (wf_size m Hwf); unfold LONG_MIN; lia).
  by rewrite keepUpper_noop.
Qed.

Lemma insert_wf m key value (r : bool) m' :
  wf m → insert m key value = Ok (r, m') → wf m'.
Proof.
  intros Hwf Hins. destruct r.
  - by apply (insert_true m key value m').
  - apply insert_inv in Hins as [(_ & -> & _)|(? & _)]; done.
Qed.

Lemma erase_absent m key :
  containsKey m key = Ok false → erase m key = Ok (false, m).
Proof.
  intros (b & Hread & Hhas)%containsKey_inv. unfold erase. rewrite Hread. simpl.
  apply has_key_false, erase_first_None in Hhas. by rewrite Hhas.
Qed.

(** [erase] of a key the table holds, up to the resize check. *)
Lemma erase_present m key :
  wf m → containsKey m key = Ok true →
  ∃ b1 (v : V) b2,
    _table m !! Z.to_nat (_getIndex key (_capacity m)) = Some (b1 ++ (key, v) :: b2)
    ∧ key ∉ b1.*1
    ∧ erase m key =
        (let! m' := _keepLowerLoadFactor
                      (with_bucket m (_getIndex key (_capacity m)) (b1 ++ b2)
                         (_size m - 1)) in
         Ok (true, m')).
Proof.
  intros Hwf (b & Hread & Hhas)%containsKey_inv.
  pose proof (read_inv _ _ _ Hread) as [Hi Hb].
  destruct (erase_first key b) as [b'|] eqn:Her.
  - apply erase_first_Some in Her as (b1 & v & b2 & -> & -> & Hnot).
    exists b1, v, b2. split_and!; [done | done |].
    unfold erase. rewrite Hread. simpl.
    assert (Her : erase_first key (b1 ++ (key, v) :: b2) = Some (b1 ++ b2)).
    { clear -Hnot. induction b1 as [|[k0 v0] b1 IH]; simpl.
      - by rewrite decide_True.
      - simpl in Hnot. apply not_elem_of_cons in Hnot as [Hne Hnot].
        rewrite decide_False by done. by rewrite IH. }
    rewrite Her.
    assert (Hsize : 1 ≤ _size m ≤ LONG_MAX).
    { split; [|apply (wf_size_max m Hwf)]. rewrite (wf_size m Hwf). unfold entries.
      rewrite (concat_lookup_split _ _ _ Hb), !length_app. simpl. lia. }
    rewrite long_check_Ok by (unfold LONG_MIN, LONG_MAX in *; lia). done.
  - apply erase_first_None, has_key_false in Her. congruence.
Qed.

(** What [erase] leaves behind, whether or not it finds the key. *)
Lemma erase_spec m key :
  wf m →
  ∃ (r : bool) m',
    erase m key = Ok (r, m') ∧ wf m'
    ∧ _upperLoadFactor m' = _upperLoadFactor m
    ∧ _lowerLoadFactor m' = _lowerLoadFactor m
    ∧ ((r = false ∧ m' = m ∧ key ∉ (entries m).*1)
       ∨ (r = true ∧ _size m' = _size m - 1
          ∧ (∃ v, entries m ≡ₚ (key, v) :: entries m')
          ∧ (((load (_size m - 1) (_capacity m) < _lowerLoadFactor m)%Q
              ∧ _capacity m ≠ 1
              ∧ _capacity m' = _capacity m ÷ 2 ∧ 1 ≤ _capacity m')
             ∨ (¬ ((load (_size m - 1) (_capacity m) < _lowerLoadFactor m)%Q
                   ∧ _capacity m ≠ 1)
                ∧ _capacity m' = _capacity m)))).
Proof.
  intros Hwf. pose proof (containsKey_spec m key Hwf) as Hc.
  destruct (bool_decide (key ∈ (entries m).*1)) eqn:Hin.
  - destruct (erase_present m key Hwf Hc) as (b1 & v & b2 & Hb & Hnot & Heq).
    pose proof (_getIndex_range key _ (wf_capacity m Hwf)) as Hi.
    destruct (with_bucket_remove m (Z.to_nat (_getIndex key (_capacity m)))
                b1 b2 (key, v) Hwf Hb) as [Hwf1 Hperm1].
    rewrite Z2Nat.id in Hwf1, Hperm1 by lia.
    destruct (keepLower_spec _ Hwf1) as (m' & Hkeep & Hwf' & (Hs & Hu & Hl & Hperm) & Hcase).
    exists true, m'. rewrite Heq, Hkeep. simpl.
    split_and!; [done | done | done | done |].
    right. split_and!; [done | done | exists v; by rewrite Hperm |].
    destruct Hcase as [(Hlt & Hne & Hcap & Hone)|(Hnot' & ->)]; [left | right]; done.
  - exists false, m. rewrite (erase_absent _ _ Hc).
    split_and!; [done | done | done | done |].
    left. split_and!; [done | done |]. by apply bool_decide_eq_false in Hin.
Qed.

(** [operator[]] finds the value of the key, or adds the key with the value
    [ValueT()] and finds that one. *)
Lemma subscript_spec m key (v : V) m' :
  wf m → subscript m key = Ok (v, m') →
  wf m'
  ∧ _upperLoadFactor m' = _upperLoadFactor m
  ∧ _lowerLoadFactor m' = _lowerLoadFactor m
  ∧ ((find_value key (entries m) = Some v ∧ m' = m)
     ∨ (key ∉ (entries m).*1 ∧ v = inhabitant
        ∧ entries m' ≡ₚ (key, inhabitant) :: entries m
        ∧ _size m' = _size m + 1
        ∧ (getLoadFactor m' <= _upperLoadFactor m')%Q
        ∧ ∃ j : nat, _capacity m' = _capacity m * 2 ^ Z.of_nat j)).
Proof.
  intros Hwf. destruct (read_bucket m key Hwf) as (b & Hread & Hb & Hfind).
  unfold subscript. simpl. rewrite Hread. simpl. rewrite Hfind.
  destruct (find_value key (entries m)) as [v0|] eqn:Hf.
  - intros [= <- <-]. split_and!; [done | done | done | by left].
  - intros (s & Hs & Hrest)%bind_Ok_inv.
    apply long_check_inv in Hs as [-> Hs].
    apply bind_Ok_inv in Hrest as (m2 & Hkeep & Hrest).
    apply find_value_None in Hf.
    destruct (with_bucket_push m key inhabitant b Hwf Hf) as [Hwf1 Hperm1];
      [lia | done |].
    destruct (keepUpper_spec _ _ Hwf1 Hkeep)
      as (Hwf2 & (Hs2 & Hu & Hl & Hperm) & Hload & j & Hcap & _).
    destruct (read_bucket m2 key Hwf2) as (b2 & Hread2 & _ & Hfind2).
    rewrite Hread2 in Hrest. simpl in Hrest. rewrite Hfind2 in Hrest.
    rewrite (find_value_perm key (entries m2) ((key, inhabitant) :: entries m)) in Hrest;
      [|apply (wf_keys m2 Hwf2) | by rewrite Hperm].
    simpl in Hrest. rewrite decide_True in Hrest by done.
    injection Hrest as <- <-.
    split_and!; [done | done | done |].
    right. split_and!; [done | done | by rewrite Hperm | done | done | by exists j].
Qed.

Lemma subscript_unfold m key :
  subscript m key =
  (let! b := read (_table m) (_getIndex key (_capacity m)) in
   match find_value key b with
   | Some v => Ok (v, m)
   | None =>
       let! s := long_check (_size m + 1) in
       let! m' := _keepUpperLoadFactor
                    (with_bucket m (_getIndex key (_capacity m))
                       (b ++ [(key, inhabitant)]) s) in
       let! b' := read (_table m') (_getIndex key (_capacity m')) in
       match find_value key b' with
       | Some v => Ok (v, m')
       | None => Throw out_of_fuel
       end
   end).
Proof. reflexivity. Qed.

Lemma subscript_total m key :
  wf m → (0 <= _upperLoadFactor m)%Q →
  (inject_Z (_size m + 1) <= _upperLoadFactor m * inject_Z (2 ^ 62))%Q →
  _size m + 1 ≤ LONG_MAX →
  ∃ v m', subscript m key = Ok (v, m').
Proof.
  intros Hwf Hu Hfit Hmax. destruct (read_bucket m key Hwf) as (b & Hread & Hb & Hfind).
  rewrite subscript_unfold, Hread, bind_Ok, Hfind.
  destruct (find_value key (entries m)) as [v0|] eqn:Hf; [by eexists _, _|].
  pose proof (wf_size m Hwf) as Hsize.
  rewrite long_check_Ok, bind_Ok by (unfold LONG_MIN; lia).
  apply find_value_None in Hf.
  destruct (with_bucket_push m key inhabitant b Hwf Hf) as [Hwf1 Hperm1]; [lia | done |].
  destruct (keepUpper_total _ Hwf1) as (m2 & Hkeep); [done | done |].
  rewrite Hkeep, bind_Ok.
  destruct (keepUpper_spec _ _ Hwf1 Hkeep) as (Hwf2 & (_ & _ & _ & Hperm) & _).
  destruct (read_bucket m2 key Hwf2) as (b2 & Hread2 & _ & Hfind2).
  rewrite Hread2, bind_Ok, Hfind2.
  rewrite (find_value_perm key (entries m2) ((key, inhabitant) :: entries m));
    [|apply (wf_keys m2 Hwf2) | by rewrite Hperm].
  simpl. rewrite decide_True by done. by eexists _, _.
Qed.

(** The one call of [operator[]] to itself is enough on a well-formed table. *)
Lemma subscript_fuel_enough m key : wf m → subscript m key ≠ Throw out_of_fuel.
Proof.
  intros Hwf. destruct (read_bucket m key Hwf) as (b & Hread & Hb & Hfind).
  rewrite subscript_unfold, Hread, bind_Ok, Hfind.
  destruct (find_value key (entries m)) as [v0|] eqn:Hf; [done|].
  destruct (long_check (_size m + 1)) as [s|e] eqn:Hs; cbn [bind].
  - apply long_check_inv in Hs as [-> Hs]. apply find_value_None in Hf.
    destruct (with_bucket_push m key inhabitant b Hwf Hf) as [Hwf1 Hperm1]; [lia | done |].
    pose proof (keepUpper_fuel_enough _ Hwf1) as Hfuel.
    destruct (_keepUpperLoadFactor _) as [m2|e] eqn:Hkeep; cbn [bind]; [|congruence].
    destruct (keepUpper_spec _ _ Hwf1 Hkeep) as (Hwf2 & (_ & _ & _ & Hperm) & _).
    destruct (read_bucket m2 key Hwf2) as (b2 & Hread2 & _ & Hfind2).
    rewrite Hread2, bind_Ok, Hfind2.
    rewrite (find_value_perm key (entries m2) ((key, inhabitant) :: entries m));
      [|apply (wf_keys m2 Hwf2) | by rewrite Hperm].
    simpl. by rewrite decide_True.
  - unfold long_check in Hs. destruct (_ && _); [discriminate | by injection Hs as <-].
Qed.


Lemma clear_from_spec (fuel : nat) (t : list (list (K * V))) (i : nat) :
  (i ≤ length t)%nat → (length t - i ≤ fuel)%nat →
  clear_from fuel t (Z.of_nat (length t)) (Z.of_nat i)
  = Ok (take i t ++ replicate (length t - i) []).
Proof.
  revert t i. induction fuel as [|fuel IH]; intros t i Hi Hfuel; simpl;
    destruct (Z.ltb_spec (Z.of_nat i) (Z.of_nat (length t))) as [Hlt|Hge];
    try lia.
  - replace (length t - i)%nat with 0%nat by lia.
    by rewrite take_ge, app_nil_r by lia.
  - destruct (lookup_lt_is_Some_2 t i) as [b Hb]; [lia|].
    rewrite (read_lookup _ _ _ Hb), bind_Ok, Nat2Z.id.
    replace (Z.of_nat i + 1) with (Z.of_nat (S i)) by lia.
    rewrite <- (length_insert t i []) at 1. rewrite IH; rewrite ?length_insert; [|lia..].
    f_equal.
    rewrite (take_S_r _ _ []) by (apply list_lookup_insert_eq; lia).
    rewrite take_insert_ge by lia. rewrite <- app_assoc. f_equal.
    replace (length t - i)%nat with (S (length t - S i)) by lia. done.
  - replace (length t - i)%nat with 0%nat by lia.
    by rewrite take_ge, app_nil_r by lia.
Qed.

Lemma wf_empty (c : Z) (u l : Q) :
  1 ≤ c ≤ LONG_MAX →
  wf (K := K) (V := V)
     {| _capacity := c; _size := 0; _upperLoadFactor := u; _lowerLoadFactor := l;
        _table := replicate (Z.to_nat c) [] |}.
Proof.
  intros Hc. split; simpl; unfold entries; simpl.
  - done.
  - rewrite length_replicate. lia.
  - by rewrite concat_replicate_nil.
  - unfold LONG_MAX. lia.
  - apply placed_replicate.
  - rewrite concat_replicate_nil. constructor.
Qed.

(** [clear] empties every bucket and keeps the capacity. *)
Lemma clear_spec m :
  wf m →
  clear m = Ok {| _capacity := _capacity m; _size := 0;
                  _upperLoadFactor := _upperLoadFactor m;
                  _lowerLoadFactor := _lowerLoadFactor m;
                  _table := replicate (Z.to_nat (_capacity m)) [] |}.
Proof.
  intros Hwf. pose proof (wf_length m Hwf) as Hlen. unfold clear.
  rewrite <- Hlen at 1 2. change 0 with (Z.of_nat 0) at 1.
  rewrite clear_from_spec, bind_Ok by lia.
  rewrite take_0, Nat.sub_0_r, <- Hlen, Nat2Z.id. done.
Qed.

(** *** Construction *)

Lemma HashMap_loadFactors_inv (l u : Q) m :
  HashMap_loadFactors l u = Ok m →
  m = {| _capacity := INITIAL_CAPACITY; _size := 0; _upperLoadFactor := u;
         _lowerLoadFactor := l;
         _table := replicate (Z.to_nat INITIAL_CAPACITY) [] |}
  ∧ (l <= u)%Q ∧ (0 <= l)%Q ∧ (u <= 1)%Q.
Proof.
  unfold HashMap_loadFactors. simpl.
  destruct (Qltb u l) eqn:Hul; [discriminate|].
  destruct (Qltb l 0) eqn:Hl; [discriminate|].
  destruct (Qgtb u 1) eqn:Hu; [discriminate|]. simpl.
  intros [= <-]. apply Qltb_false in Hul, Hl. apply Qgtb_false in Hu. done.
Qed.

Lemma HashMap_loadFactors_wf (l u : Q) m : HashMap_loadFactors l u = Ok m → wf m.
Proof.
  intros (-> & _)%HashMap_loadFactors_inv. apply wf_empty.
  unfold INITIAL_CAPACITY, LONG_MAX. lia.
Qed.

Lemma load_pair_total m key value :
  wf m → _size m + 1 ≤ LONG_MAX → ∃ m', load_pair m key value = Ok m'.
Proof.
  intros Hwf Hmax. pose proof (containsKey_spec m key Hwf) as Hc.
  destruct (read_bucket m key Hwf) as (b & Hread & Hb & Hfind).
  unfold load_pair, _addToTable. rewrite Hc, bind_Ok, Hread.
  destruct (bool_decide (key ∈ (entries m).*1)); [by eexists|].
  rewrite !bind_Ok, long_check_Ok, bind_Ok
    by (pose proof (wf_size m Hwf); unfold LONG_MIN; lia).
  by eexists.
Qed.

(** One round of the vector constructor: the key gets the value, and no
    other key changes. *)
Lemma load_pair_spec m key value m' :
  wf m → load_pair m key value = Ok m' →
  wf m'
  ∧ _capacity m' = _capacity m
  ∧ _upperLoadFactor m' = _upperLoadFactor m
  ∧ _lowerLoadFactor m' = _lowerLoadFactor m
  ∧ ∀ k, find_value k (entries m') =
         if decide (key = k) then Some value else find_value k (entries m).
Proof.
  intros Hwf. pose proof (containsKey_spec m key Hwf) as Hc.
  destruct (read_bucket m key Hwf) as (b & Hread & Hb & Hfind).
  unfold load_pair, _addToTable. rewrite Hc, bind_Ok, Hread.
  destruct (bool_decide (key ∈ (entries m).*1)) eqn:Hin.
  - rewrite bind_Ok. intros [= <-].
    destruct (with_bucket_overwrite m key value b Hwf Hb) as (Hwf1 & Hkeys & Helem).
    split_and!; [done | done | done | done |].
    assert (Hkey : key ∈ b.*1).
    { apply containsKey_inv in Hc as (b' & Hread' & Hhas).
      rewrite Hread in Hread'. injection Hread' as <-. by apply has_key_true. }
    intros k. destruct (decide (key = k)) as [<-|Hne].
    + apply find_value_unique; [apply (wf_keys _ Hwf1)|]. apply Helem. by left.
    + destruct (find_value k (entries m)) as [v|] eqn:Hf.
      * apply find_value_unique; [apply (wf_keys _ Hwf1)|]. apply Helem.
        right. split; [done | by apply find_value_Some].
      * apply find_value_None. fold (with_bucket m (_getIndex key (_capacity m))
          (overwrite key value b) (_size m)). rewrite Hkeys. by apply find_value_None.
  - rewrite !bind_Ok. intros (s & Hs & [= <-])%bind_Ok_inv.
    apply long_check_inv in Hs as [-> Hs].
    apply bool_decide_eq_false in Hin.
    destruct (with_bucket_push m key value b Hwf Hin) as (Hwf1 & Hperm); [lia | done |].
    split_and!; [done | done | done | done |].
    intros k.
    rewrite (find_value_perm k _ ((key, value) :: entries m));
      [done | apply (wf_keys _ Hwf1) | done].
Qed.

Lemma int_check_Ok (z : Z) : INT_MIN ≤ z ≤ INT_MAX → int_check z = Ok z.
Proof.
  intros [Hlo Hhi]. unfold int_check.
  destruct (Z.leb_spec INT_MIN z), (Z.leb_spec z INT_MAX); simpl; first done; lia.
Qed.

Lemma load_pairs_total (pairs : list (K * V)) m (i : Z) :
  wf m → _size m + Z.of_nat (length pairs) ≤ LONG_MAX →
  0 ≤ i → i + Z.of_nat (length pairs) ≤ INT_MAX →
  ∃ m', load_pairs m i pairs = Ok m'.
Proof.
  revert m i. induction pairs as [|[key value] pairs IH]; intros m i Hwf Hmax Hi Himax.
  - by exists m.
  - simpl in Hmax, Himax. destruct (load_pair_total m key value Hwf) as (m1 & Hm1); [lia|].
    pose proof (load_pair_spec _ _ _ _ Hwf Hm1) as (Hwf1 & _).
    assert (Hs1 : _size m1 ≤ _size m + 1).
    { revert Hm1. unfold load_pair, _addToTable.
      destruct (containsKey m key) as [[|]|]; simpl; try discriminate;
        destruct (read (_table m) (_getIndex key (_capacity m))); simpl;
        try discriminate.
      - intros [= <-]. simpl. lia.
      - intros (s & [-> _]%long_check_inv & [= <-])%bind_Ok_inv. simpl. lia. }
    destruct (IH m1 (i + 1) Hwf1) as (m' & Hm'); [lia | lia | lia |].
    exists m'. simpl.
    by rewrite Hm1, bind_Ok, int_check_Ok, bind_Ok by (unfold INT_MIN; lia).
Qed.

(** The loop of the vector constructor: a key ends with the value of its last
    pair, and the capacity does not change on the way. *)
Lemma load_pairs_spec (pairs : list (K * V)) m (i : Z) m' :
  wf m → load_pairs m i pairs = Ok m' →
  wf m'
  ∧ _capacity m' = _capacity m
  ∧ _upperLoadFactor m' = _upperLoadFactor m
  ∧ _lowerLoadFactor m' = _lowerLoadFactor m
  ∧ ∀ k, find_value k (entries m') =
         match find_value k (reverse pairs) with
         | Some v => Some v
         | None => find_value k (entries m)
         end.
Proof.
  revert m i. induction pairs as [|[key value] pairs IH]; intros m i Hwf; simpl.
  - intros [= <-]. by split_and!.
  - intros (m1 & Hm1 & (i' & _ & Hm')%bind_Ok_inv)%bind_Ok_inv.
    destruct (load_pair_spec m key value m1 Hwf Hm1) as (Hwf1 & Hc1 & Hu1 & Hl1 & Hf1).
    destruct (IH m1 i' Hwf1 Hm') as (Hwf' & Hc' & Hu' & Hl' & Hf').
    split_and!; [done | congruence | congruence | congruence |].
    intros k. rewrite Hf', Hf1, reverse_cons, find_value_app. simpl.
    by destruct (find_value k (reverse pairs)), (decide (key = k)).
Qed.

Lemma HashMap_copy_spec (other : HashMap K V) :
  wf other →
  ∃ m, HashMap_copy other = Ok m ∧ wf m ∧ resized other m
       ∧ _capacity m = _capacity other.
Proof.
  intros Hwf. pose proof (wf_capacity _ Hwf) as Hc.
  destruct (fill_fresh other (_capacity other)) as (t & Hnew & Hfill & Hlen & Hpl & Hperm);
    [by apply wf_shape | done |].
  unfold HashMap_copy. rewrite Hnew, bind_Ok, Hfill, bind_Ok.
  eexists. split; [done|].
  assert (Hres : resized other {| _capacity := _capacity other; _size := _size other;
                                  _upperLoadFactor := _upperLoadFactor other;
                                  _lowerLoadFactor := _lowerLoadFactor other;
                                  _table := t |}) by by split_and!.
  split_and!; [|done|done]. by eapply resized_wf.
Qed.
End Operations.

(** ** Comparison of two tables *)

Section Comparison.
Context {K V : Type} `{!EqDecision K, !Hash K, !EqDecision V}.
Implicit Types (m other : HashMap K V).

Lemma same_entries_spec m (l : list (K * V)) :
  wf m →
  fold_control (same_entry m) l tt
  = Ok (if decide (all_found m l) then Continue tt else Return false).
Proof.
  intros Hwf. unfold all_found. induction l as [|p l IH]; cbn [fold_control].
  - by rewrite decide_True by constructor.
  - unfold same_entry at 1. rewrite (at_spec m p.1 Hwf).
    destruct (find_value p.1 (entries m)) as [v|] eqn:Hf; cbn [lookup_result].
    + destruct (decide (v = p.2)) as [->|Hne]; cbn [bind].
      * rewrite IH. destruct (decide (Forall _ l)) as [Hall|Hnot].
        -- by rewrite decide_True by by constructor.
        -- rewrite decide_False; [done|]. by intros [_ ?]%Forall_cons.
      * rewrite decide_False; [done|]. intros [Heq _]%Forall_cons. congruence.
    + rewrite decide_False; [done|]. intros [Heq _]%Forall_cons. congruence.
Qed.

Lemma eqb_spec m other :
  wf m → wf other →
  ∃ r : bool,
    eqb m other = Ok r
    ∧ (r = true ↔
       _size m = _size other
       ∧ (_upperLoadFactor m == _upperLoadFactor other)%Q
       ∧ (_lowerLoadFactor m == _lowerLoadFactor other)%Q
       ∧ _capacity m = _capacity other
       ∧ all_found m (entries other)).
Proof.
  intros Hwf Hwfo. unfold eqb.
  destruct (Z.eqb_spec (_size m) (_size other)) as [Hs|Hs]; simpl;
    [|exists false; split; [done | split; [done | intros (? & _); done]]].
  destruct (Qeq_bool (_upperLoadFactor m) (_upperLoadFactor other)) eqn:Hu; simpl;
    [apply Qeq_bool_iff in Hu
    |exists false; split; [done | split; [done | intros (_ & Heq & _)]];
     apply Qeq_bool_iff in Heq; congruence].
  destruct (Qeq_bool (_lowerLoadFactor m) (_lowerLoadFactor other)) eqn:Hl; simpl;
    [apply Qeq_bool_iff in Hl
    |exists false; split; [done | split; [done | intros (_ & _ & Heq & _)]];
     apply Qeq_bool_iff in Heq; congruence].
  destruct (Z.eqb_spec (_capacity m) (_capacity other)) as [Hc|Hc]; simpl;
    [|exists false; split; [done | split; [done | intros (_ & _ & _ & ? & _); done]]].
  rewrite range_for_spec by by apply wf_shape.
  fold (entries other). rewrite (same_entries_spec m _ Hwf), bind_Ok.
  destruct (decide (all_found m (entries other))) as [Hall|Hnot].
  - exists true. by split.
  - exists false. split; [done|]. split; [done | intros (_ & _ & _ & _ & ?); done].
Qed.

(** Between tables of one size the test of the pairs goes both ways. *)
Lemma all_found_sym m other :
  wf m → wf other → _size m = _size other →
  all_found m (entries other) → all_found other (entries m).
Proof.
  intros Hwf Hwfo Hsize Hall. unfold all_found in *. rewrite Forall_forall in Hall.
  assert (Hperm : entries other ≡ₚ entries m).
  { apply submseteq_length_Permutation.
    - apply NoDup_submseteq.
      + eapply NoDup_fmap_1. apply (wf_keys other Hwfo).
      + intros [k v] Hin. apply find_value_Some. by apply (Hall (k, v)).
    - apply Nat2Z.inj_le. rewrite <- (wf_size m Hwf), <- (wf_size other Hwfo). lia. }
  apply Forall_forall. intros [k v] Hin. simpl.
  apply find_value_unique; [apply (wf_keys other Hwfo) | by rewrite Hperm].
Qed.

Lemma eqb_sym m other : wf m → wf other → eqb other m = eqb m other.
Proof.
  intros Hwf Hwfo.
  destruct (eqb_spec m other Hwf Hwfo) as (r & -> & Hr).
  destruct (eqb_spec other m Hwfo Hwf) as (r' & -> & Hr').
  f_equal. apply eq_true_iff_eq. change (r' = true ↔ r = true). rewrite Hr, Hr'.
  split; intros (Hs & Hu & Hl & Hc & Hall);
    (split_and!; [done | by symmetry | by symmetry | done |]);
    apply all_found_sym; done.
Qed.
End Comparison.

(** ** Invariants of reachable tables *)

Lemma load_mono (s s' c : Z) : s ≤ s' → 0 < c → (load s c <= load s' c)%Q.
Proof.
  intros Hs Hc. apply load_le; [done|]. unfold load.
  setoid_replace (inject_Z s' / inject_Z c * inject_Z c)%Q with (inject_Z s')
    using relation Qeq.
  - by rewrite <- Zle_Qle.
  - field. intros Heq. pose proof (inject_Z_pos c Hc) as Hpos.
    rewrite Heq in Hpos. by apply Qlt_irrefl in Hpos.
Qed.

(** Halving the capacity of a table that is below the lower bound keeps it
    within an upper bound of at least twice the lower one. *)
Lemma load_halved (s h : Z) (l u : Q) :
  0 < h → (2 * l <= u)%Q → (load s (2 * h) < l)%Q → (load s h <= u)%Q.
Proof.
  intros Hh Hlu Hlt. apply load_lt in Hlt; [|lia]. apply load_le; [done|].
  rewrite inject_Z_mult in Hlt. pose proof (inject_Z_pos h Hh) as Hpos.
  change (inject_Z 2) with 2%Q in Hlt.
  apply Qlt_le_weak. eapply Qlt_le_trans; [exact Hlt|].
  setoid_replace (l * (2 * inject_Z h))%Q with (2 * l * inject_Z h)%Q
    using relation Qeq by ring.
  apply Qmult_le_compat_r; [done | by apply Qlt_le_weak].
Qed.

Lemma power_of_two_pos (c : Z) : power_of_two c → 1 ≤ c.
Proof. intros [j ->]. apply (Z.pow_le_mono_r 2 0); lia. Qed.

Lemma power_of_two_double (c : Z) (j : nat) :
  power_of_two c → power_of_two (c * 2 ^ Z.of_nat j).
Proof.
  intros [i ->]. exists (i + j)%nat. rewrite Nat2Z.inj_add, Z.pow_add_r by lia. done.
Qed.

Lemma power_of_two_half (c : Z) :
  power_of_two c → c ≠ 1 → power_of_two (c ÷ 2) ∧ c = 2 * (c ÷ 2).
Proof.
  intros [[|j] ->] Hne; [done|].
  rewrite Nat2Z.inj_succ, Z.pow_succ_r by lia.
  assert (Hq : (2 * 2 ^ Z.of_nat j) ÷ 2 = 2 ^ Z.of_nat j).
  { rewrite Z.mul_comm. apply Z.quot_mul. lia. }
  rewrite Hq. split; [by exists j | done].
Qed.

Section Reachable.
Context {K V : Type} `{!EqDecision K, !Hash K, !Inhabited V}.
Implicit Types (m : HashMap K V).

Lemma HashMap_vectors_inv (keyVector : list K) (valueVector : list V) m :
  HashMap_vectors keyVector valueVector = Ok m →
  ∃ m0 m1, HashMap_default = Ok m0
           ∧ length keyVector = length valueVector
           ∧ load_pairs m0 0 (zip keyVector valueVector) = Ok m1
           ∧ _keepUpperLoadFactor m1 = Ok m.
Proof.
  unfold HashMap_vectors. intros (m0 & Hm0 & Hrest)%bind_Ok_inv.
  destruct (Nat.eqb_spec (length keyVector) (length valueVector)) as [Hlen|];
    [|discriminate]. simpl in Hrest.
  apply bind_Ok_inv in Hrest as (m1 & Hm1 & Hm). by exists m0, m1.
Qed.

Lemma constructed_inv m : constructed m → table_inv m.
Proof.
  intros [(l & u & Hm)|(ks & vs & Hm)].
  - pose proof (HashMap_loadFactors_wf _ _ _ Hm) as Hwf.
    apply HashMap_loadFactors_inv in Hm as (-> & Hlu & Hl & Hu).
    split; simpl; [done | by exists 4%nat | done |].
    intros _. unfold getLoadFactor. simpl. rewrite load_zero.
    by apply Qle_trans with l.
  - apply HashMap_vectors_inv in Hm as (m0 & m1 & Hm0 & _ & Hm1 & Hm).
    unfold HashMap_default in Hm0.
    pose proof (HashMap_loadFactors_wf _ _ _ Hm0) as Hwf0.
    apply HashMap_loadFactors_inv in Hm0 as (Heq0 & Hlu & Hl & Hu).
    destruct (load_pairs_spec _ _ _ _ Hwf0 Hm1) as (Hwf1 & Hc1 & Hu1 & Hl1 & _).
    destruct (keepUpper_spec _ _ Hwf1 Hm) as (Hwf & (_ & Hu2 & Hl2 & _) & Hload & j & Hc & _).
    rewrite Heq0 in Hc1, Hu1, Hl1. simpl in Hc1, Hu1, Hl1.
    split; [done | | | done].
    + rewrite Hc, Hc1. apply power_of_two_double. by exists 4%nat.
    + rewrite Hu2, Hl2, Hu1, Hl1. done.
Qed.

Lemma apply_operation_inv m (o : operation K V) m' :
  table_inv m → apply_operation m o = Ok m' → table_inv m'.
Proof.
  intros [Hwf Hpow Hbounds Hupper]. destruct o as [key value|key|key|]; simpl.
  - intros ([r m2] & Hins & [= <-])%bind_Ok_inv. destruct r.
    + destruct (insert_true _ _ _ _ Hwf Hins)
        as (Hwf' & _ & _ & _ & Hu & Hl & Hload & j & Hc & _).
      split; [done | | by rewrite Hu, Hl | done].
      rewrite Hc. by apply power_of_two_double.
    + apply insert_inv in Hins as [(_ & -> & _)|(? & _)]; done.
  - destruct (erase_spec m key Hwf) as (r & m2 & Her & Hwf' & Hu & Hl & Hcase).
    rewrite Her. intros [= <-]. simpl.
    destruct Hcase as [(_ & -> & _)|(_ & Hs & _ & Hcap)]; [done|].
    pose proof (wf_capacity m Hwf) as Hc.
    destruct Hcap as [(Hlt & Hne & Hcap & Hone)|(Hnot & Hcap)].
    * destruct (power_of_two_half _ Hpow Hne) as [Hpow' Hdouble].
      split; [done | by rewrite Hcap | by rewrite Hu, Hl |].
      rewrite Hu, Hl. intros Hlu. unfold getLoadFactor. rewrite Hs, Hcap.
      apply (load_halved _ _ (_lowerLoadFactor m)); [lia | done |].
      by rewrite <- Hdouble.
    * split; [done | by rewrite Hcap | by rewrite Hu, Hl |].
      rewrite Hu, Hl. intros Hlu. unfold getLoadFactor. rewrite Hs, Hcap.
      eapply Qle_trans; [|exact (Hupper Hlu)]. apply load_mono; lia.
  - intros ([v m2] & Hsub & [= <-])%bind_Ok_inv.
    destruct (subscript_spec _ _ _ _ Hwf Hsub) as (Hwf' & Hu & Hl & Hcase).
    destruct Hcase as [(_ & ->)|(_ & _ & _ & _ & Hload & j & Hc)]; [done|].
    split; [done | | by rewrite Hu, Hl | done].
    rewrite Hc. by apply power_of_two_double.
  - rewrite (clear_spec m Hwf). intros [= <-]. split; simpl; [| done | done |].
    + apply wf_empty. apply (wf_capacity m Hwf).
    + intros _. unfold getLoadFactor. simpl. rewrite load_zero.
      destruct Hbounds as (Hl & Hlu & _). by apply Qle_trans with (_lowerLoadFactor m).
Qed.

Lemma run_inv (calls : list (operation K V)) m m' :
  table_inv m → run m calls = Ok m' → table_inv m'.
Proof.
  revert m. induction calls as [|o calls IH]; intros m Hinv; simpl.
  - by intros [= <-].
  - intros (m1 & Hm1 & Hrun)%bind_Ok_inv.
    eapply IH; [|done]. by eapply apply_operation_inv.
Qed.

(** A call changes neither bound, and leaves the capacity alone, doubles it
    some number of times, or halves it once. *)
Lemma apply_operation_step m (o : operation K V) m' :
  wf m → apply_operation m o = Ok m' →
  _upperLoadFactor m' = _upperLoadFactor m
  ∧ _lowerLoadFactor m' = _lowerLoadFactor m
  ∧ ((∃ j : nat, _capacity m' = _capacity m * 2 ^ Z.of_nat j)
     ∨ (_capacity m ≠ 1 ∧ _capacity m' = _capacity m ÷ 2)).
Proof.
  intros Hwf.
  assert (Hsame : ∃ j : nat, _capacity m = _capacity m * 2 ^ Z.of_nat j)
    by (exists 0%nat; simpl; lia).
  destruct o as [key value|key|key|]; simpl.
  - intros ([r m2] & Hins & [= <-])%bind_Ok_inv. destruct r.
    + destruct (insert_true _ _ _ _ Hwf Hins)
        as (_ & _ & _ & _ & Hu & Hl & _ & j & Hc & _).
      split_and!; [done | done |]. left. by exists j.
    + apply insert_inv in Hins as [(_ & -> & _)|(? & _)]; [|done..].
      split_and!; [done | done | by left].
  - destruct (erase_spec m key Hwf) as (r & m2 & Her & _ & Hu & Hl & Hcase).
    rewrite Her. intros [= <-]. simpl. split_and!; [done | done |].
    destruct Hcase as [(_ & -> & _)|(_ & _ & _ & Hcap)]; [by left|].
    destruct Hcap as [(_ & Hne & Hcap & _)|(_ & Hcap)]; [by right|].
    left. exists 0%nat. simpl. lia.
  - intros ([v m2] & Hsub & [= <-])%bind_Ok_inv.
    destruct (subscript_spec _ _ _ _ Hwf Hsub) as (_ & Hu & Hl & Hcase).
    split_and!; [done | done |]. left.
    destruct Hcase as [(_ & ->)|(_ & _ & _ & _ & _ & j & Hc)]; [done | by exists j].
  - rewrite (clear_spec m Hwf). intros [= <-]. simpl.
    split_and!; [done | done | by left].
Qed.

Lemma run_bounds (calls : list (operation K V)) m m' :
  table_inv m → run m calls = Ok m' →
  _upperLoadFactor m' = _upperLoadFactor m
  ∧ _lowerLoadFactor m' = _lowerLoadFactor m.
Proof.
  revert m. induction calls as [|o calls IH]; intros m Hinv; simpl.
  - by intros [= <-].
  - intros (m1 & Hm1 & Hrun)%bind_Ok_inv.
    destruct (apply_operation_step _ _ _ (inv_wf m Hinv) Hm1) as (Hu & Hl & _).
    destruct (IH m1) as [Hu' Hl']; [by eapply apply_operation_inv | done |].
    split; congruence.
Qed.

End Reachable.

(** ** Lookups across an update *)

Section Frame.
Context {K V : Type} `{!EqDecision K, !Hash K}.
Implicit Types (m : HashMap K V) (key : K).

Lemma same_entries_lookup m m' key :
  wf m → wf m' → find_value key (entries m') = find_value key (entries m) →
  at_ m' key = at_ m key ∧ containsKey m' key = containsKey m key.
Proof.
  intros Hwf Hwf' Hfind. rewrite !at_spec, !containsKey_spec, Hfind by done.
  split; [done|]. f_equal. apply bool_decide_ext.
  pose proof (find_value_None (V := V) key (entries m)) as Hm.
  pose proof (find_value_None (V := V) key (entries m')) as Hm'.
  rewrite Hfind in Hm'. split; intros Hin; apply dec_stable; intros Hnot.
  - apply Hm in Hnot. by apply Hm' in Hnot.
  - apply Hm' in Hnot. by apply Hm in Hnot.
Qed.

Lemma resized_lookup m m' key :
  wf m → resized m m' → find_value key (entries m') = find_value key (entries m).
Proof.
  intros Hwf (_ & _ & _ & Hperm). symmetry.
  by apply find_value_perm; [apply (wf_keys m Hwf)|].
Qed.

(** A pair more, or a pair less, does not change what another key finds. *)
Lemma added_lookup (l l' : list (K * V)) key key' (v : V) :
  NoDup l'.*1 → l' ≡ₚ (key, v) :: l → key ≠ key' →
  find_value key' l' = find_value key' l.
Proof.
  intros Hnd Hperm Hne. rewrite (find_value_perm key' l' _ Hnd Hperm). simpl.
  by rewrite decide_False.
Qed.
End Frame.

(** ** Construction and comparison at work *)

Section Constructors.
Context {K V : Type} `{!EqDecision K, !Hash K, !EqDecision V, !Inhabited V}.
Implicit Types (m : HashMap K V) (key : K) (value : V).

Lemma length_remove_dups_le (l : list K) : (length (remove_dups l) ≤ length l)%nat.
Proof.
  induction l as [|x l IH]; simpl; [done|].
  destruct (decide_rel elem_of x l); simpl; lia.
Qed.

(** A table whose lookups are those of a list of pairs holds as many pairs as
    the list has different keys. *)
Lemma distinct_keys_count m (pairs : list (K * V)) :
  wf m → (∀ k, find_value k (entries m) = find_value k (reverse pairs)) →
  length (entries m) = length (remove_dups pairs.*1).
Proof.
  intros Hwf Hfind. rewrite <- (length_fmap fst (entries m)).
  apply Permutation_length, NoDup_Permutation;
    [apply (wf_keys m Hwf) | apply NoDup_remove_dups |].
  intros k. rewrite elem_of_remove_dups, <- (elem_of_reverse k pairs.*1), <- fmap_reverse.
  pose proof (find_value_None (V := V) k (entries m)) as Hm.
  pose proof (find_value_None (V := V) k (reverse pairs)) as Hp.
  rewrite Hfind in Hm. split; intros Hin; apply dec_stable; intros Hnot.
  - apply Hp, Hm in Hnot. done.
  - apply Hm, Hp in Hnot. done.
Qed.

(** The constructor from two vectors of one length that an [int] can index. *)
Lemma HashMap_vectors_spec (ks : list K) (vs : list V) :
  length ks = length vs → Z.of_nat (length ks) ≤ INT_MAX →
  ∃ m0 m1 m,
    HashMap_default = Ok m0
    ∧ load_pairs m0 0 (zip ks vs) = Ok m1
    ∧ _capacity m1 = INITIAL_CAPACITY
    ∧ _keepUpperLoadFactor m1 = Ok m
    ∧ HashMap_vectors ks vs = Ok m
    ∧ wf m
    ∧ _size m = Z.of_nat (length (remove_dups ks))
    ∧ ∀ k, at_ m k = lookup_result (find_value k (reverse (zip ks vs))).
Proof.
  intros Hlen Hsmall.
  destruct (HashMap_default (K := K) (V := V)) as [m0|] eqn:Hm0; [|discriminate].
  pose proof Hm0 as Hnew. unfold HashMap_default in Hnew.
  pose proof (HashMap_loadFactors_wf _ _ _ Hnew) as Hwf0.
  pose proof (HashMap_loadFactors_inv _ _ _ Hnew) as (Heq0 & _).
  assert (Hempty : entries m0 = []).
  { rewrite Heq0. unfold entries. simpl. done. }
  unfold INT_MAX in Hsmall.
  destruct (load_pairs_total (zip ks vs) m0 0 Hwf0) as (m1 & Hm1).
  { rewrite (wf_size m0 Hwf0), Hempty, length_zip. unfold LONG_MAX. simpl. lia. }
  { done. }
  { rewrite length_zip. unfold INT_MAX. lia. }
  destruct (load_pairs_spec _ _ _ _ Hwf0 Hm1) as (Hwf1 & Hc1 & Hu1 & Hl1 & Hf1).
  assert (Hfind1 : ∀ k, find_value k (entries m1) = find_value k (reverse (zip ks vs))).
  { intros k. rewrite Hf1, Hempty. by destruct (find_value k (reverse (zip ks vs))). }
  pose proof (distinct_keys_count m1 _ Hwf1 Hfind1) as Hcount.
  rewrite fst_zip in Hcount by lia.
  rewrite Heq0 in Hc1, Hu1. simpl in Hc1, Hu1.
  destruct (keepUpper_total m1 Hwf1) as (m & Hm).
  { by rewrite Hu1. }
  { rewrite Hu1, (wf_size m1 Hwf1), Hcount.
    pose proof (length_remove_dups_le ks) as Hle.
    apply Qle_trans with (inject_Z (2 ^ 31)); [rewrite <- Zle_Qle; lia | done]. }
  destruct (keepUpper_spec _ _ Hwf1 Hm) as (Hwf & Hres & _).
  exists m0, m1, m. split_and!; [done | done | done | done | | done | |].
  - unfold HashMap_vectors. rewrite Hm0, bind_Ok.
    destruct (Nat.eqb_spec (length ks) (length vs)); [|done]. simpl.
    by rewrite Hm1, bind_Ok.
  - destruct Hres as (-> & _). by rewrite (wf_size m1 Hwf1), Hcount.
  - intros k. by rewrite (at_spec m k Hwf), (resized_lookup _ _ k Hwf1 Hres), Hfind1.
Qed.

Lemma lookup_result_Ok (o : option V) (v : V) : lookup_result o = Ok v ↔ o = Some v.
Proof. destruct o; simpl; split; intros [= ->] || discriminate; done. Qed.

(** Two different keys inserted into a default table: no resize, two pairs. *)
Lemma default_two_inserts (x y : K) (v w : V) :
  x ≠ y →
  ∃ m0 m1 m2 : HashMap K V,
    HashMap_default = Ok m0
    ∧ insert m0 x v = Ok (true, m1) ∧ insert m1 y w = Ok (true, m2)
    ∧ wf m1 ∧ wf m2
    ∧ entries m1 ≡ₚ [(x, v)] ∧ entries m2 ≡ₚ [(y, w); (x, v)]
    ∧ _size m1 = 1 ∧ _size m2 = 2
    ∧ _capacity m1 = INITIAL_CAPACITY ∧ _capacity m2 = INITIAL_CAPACITY
    ∧ _upperLoadFactor m1 = DEFAULT_UPPER_LOAD_FACTOR
    ∧ _upperLoadFactor m2 = DEFAULT_UPPER_LOAD_FACTOR
    ∧ _lowerLoadFactor m1 = DEFAULT_LOWER_LOAD_FACTOR
    ∧ _lowerLoadFactor m2 = DEFAULT_LOWER_LOAD_FACTOR.
Proof.
  intros Hne.
  destruct (HashMap_default (K := K) (V := V)) as [m0|] eqn:Hm0; [|discriminate].
  pose proof Hm0 as Hnew. unfold HashMap_default in Hnew.
  pose proof (HashMap_loadFactors_wf _ _ _ Hnew) as Hwf0.
  pose proof (HashMap_loadFactors_inv _ _ _ Hnew) as (Heq0 & _).
  assert (Hempty : entries m0 = []) by (by rewrite Heq0).
  assert (Hs0 : _size m0 = 0) by (by rewrite Heq0).
  assert (Hc0 : _capacity m0 = INITIAL_CAPACITY) by (by rewrite Heq0).
  assert (Hu0 : _upperLoadFactor m0 = DEFAULT_UPPER_LOAD_FACTOR) by (by rewrite Heq0).
  assert (Hl0 : _lowerLoadFactor m0 = DEFAULT_LOWER_LOAD_FACTOR) by (by rewrite Heq0).
  assert (Hfresh0 : x ∉ (entries m0).*1) by (rewrite Hempty; apply not_elem_of_nil).
  destruct (insert_fits m0 x v Hwf0 Hfresh0) as (b0 & Hb0 & Hins1).
  { rewrite Hs0. unfold LONG_MAX. lia. }
  { by rewrite Hs0, Hc0, Hu0. }
  destruct (with_bucket_push m0 x v b0 Hwf0 Hfresh0) as [Hwf1 Hperm1]; [|done|].
  { rewrite Hs0. unfold LONG_MAX. lia. }
  set (m1 := with_bucket m0 (_getIndex x (_capacity m0)) (b0 ++ [(x, v)]) (_size m0 + 1))
    in *.
  rewrite Hempty in Hperm1.
  assert (Hfresh1 : y ∉ (entries m1).*1).
  { rewrite Hperm1. simpl. intros [->|[]%elem_of_nil]%elem_of_cons. done. }
  assert (Hs1 : _size m1 = 1) by (simpl; lia).
  destruct (insert_fits m1 y w Hwf1 Hfresh1) as (b1 & Hb1 & Hins2).
  { rewrite Hs1. unfold LONG_MAX. lia. }
  { rewrite Hs1. simpl. by rewrite Hc0, Hu0. }
  destruct (with_bucket_push m1 y w b1 Hwf1 Hfresh1) as [Hwf2 Hperm2]; [|done|].
  { rewrite Hs1. unfold LONG_MAX. lia. }
  rewrite Hperm1 in Hperm2.
  eexists m0, m1, _.
  split_and!; [done | done | exact Hins2 | done | done | done | done | done
              | simpl; lia | done | done | done | done | done | done].
Qed.

(** What the constructor with two bounds does, for all bounds. *)
Lemma HashMap_loadFactors_spec (l u : Q) :
  HashMap_loadFactors (K := K) (V := V) l u =
  if Qltb u l then Throw (invalid_argument INVALID_LOAD_FACTORS_LOWER_HIGHER)
  else if Qltb l 0 || Qgtb u 1
       then Throw (invalid_argument INVALID_LOAD_FACTORS_OUT_RANGE)
       else Ok {| _capacity := 16; _size := 0; _upperLoadFactor := u;
                  _lowerLoadFactor := l; _table := replicate 16 [] |}.
Proof. reflexivity. Qed.

Lemma HashMap_loadFactors_throws (l u : Q) :
  (∃ msg, HashMap_loadFactors (K := K) (V := V) l u = Throw (invalid_argument msg))
  ↔ (u < l)%Q ∨ (l < 0)%Q ∨ (1 < u)%Q.
Proof.
  rewrite HashMap_loadFactors_spec.
  destruct (Qltb u l) eqn:Hul; [apply Qltb_true in Hul|apply Qltb_false in Hul].
  { split; [by left | by eexists]. }
  destruct (Qltb l 0) eqn:Hl; [apply Qltb_true in Hl|apply Qltb_false in Hl]; simpl.
  { split; [by right; left | by eexists]. }
  destruct (Qgtb u 1) eqn:Hu; [apply Qgtb_true in Hu|apply Qgtb_false in Hu].
  { split; [by right; right | by eexists]. }
  split; [intros [msg [=]]|].
  intros [Hlt|[Hlt|Hlt]]; exfalso; eapply Qlt_not_le; done.
Qed.
End Constructors.

(** ** Buckets as filters; one doubling *)

Section Order.
Context {K V : Type} `{!EqDecision K, !Hash K, !Inhabited V}.
Implicit Types (m : HashMap K V) (key : K) (value : V) (t : list (list (K * V)))
  (keys : list K).

Lemma filter_all {A : Type} (P : A → Prop) `{!∀ x, Decision (P x)} (l : list A) :
  Forall P l → filter P l = l.
Proof.
  induction 1 as [|x l Hx _ IH]; [done|]. by rewrite filter_cons_True, IH.
Qed.

Lemma filter_none {A : Type} (P : A → Prop) `{!∀ x, Decision (P x)} (l : list A) :
  Forall (λ x, ¬ P x) l → filter P l = [].
Proof.
  induction 1 as [|x l Hx _ IH]; [done|]. by rewrite filter_cons_False, IH.
Qed.

Lemma filter_concat_none {A : Type} (P : A → Prop) `{!∀ x, Decision (P x)}
    (ls : list (list A)) :
  (∀ l x, l ∈ ls → x ∈ l → ¬ P x) → filter P (concat ls) = [].
Proof.
  induction ls as [|l ls IH]; intros Hnone; simpl; [done|].
  rewrite filter_app, IH, app_nil_r.
  - apply filter_none, Forall_forall. intros x Hx.
    apply (Hnone l); [apply elem_of_cons; by left | done].
  - intros l' x Hl' Hx. apply (Hnone l'); [apply elem_of_cons; by right | done].
Qed.

(** In a table with every pair in its place, a bucket is the pairs of the
    table whose keys hash to it, in the order of a traversal. *)
Lemma bucket_is_filter (c i : Z) t b :
  placed c t → 0 ≤ i → t !! Z.to_nat i = Some b →
  filter (λ p, _getIndex p.1 c = i) (concat t) = b.
Proof.
  intros Hpl Hi Hb. rewrite (concat_lookup_split _ _ _ Hb), !filter_app.
  rewrite filter_concat_none, (filter_all _ b), filter_concat_none.
  - by rewrite app_nil_r.
  - intros l x [j Hj]%list_elem_of_lookup Hx. rewrite lookup_drop in Hj.
    rewrite (Hpl _ _ _ Hj Hx). lia.
  - apply Forall_forall. intros x Hx. rewrite (Hpl _ _ _ Hb Hx). lia.
  - intros l x [j Hj]%list_elem_of_lookup Hx.
    apply lookup_take_Some in Hj as [Hj Hlt]. rewrite (Hpl _ _ _ Hj Hx). lia.
Qed.

(** Filling a table adds to each bucket the pairs that hash to it, in the
    order in which they come. *)
Lemma fill_lookup (c : Z) (l : list (K * V)) t t' :
  1 ≤ c ≤ LONG_MAX → Z.of_nat (length t) = c →
  fold_control (add_entry c) l t = Ok (Continue t') →
  ∀ (j : nat) b0, t !! j = Some b0 →
    t' !! j = Some (b0 ++ filter (λ p, _getIndex p.1 c = Z.of_nat j) l).
Proof.
  intros Hc. revert t. induction l as [|[k v] l IH]; intros t Hlen Hfold j b0 Hj.
  - simpl in Hfold. injection Hfold as <-. by rewrite app_nil_r.
  - pose proof (_getIndex_range k c Hc) as Hi.
    destruct (read_in_range t (_getIndex k c)) as (b & Hread & Hb); [lia|].
    cbn [fold_control] in Hfold. unfold add_entry at 1, _addToTable in Hfold.
    cbn [fst snd] in Hfold. rewrite Hread, !bind_Ok in Hfold.
    destruct (decide (_getIndex k c = Z.of_nat j)) as [Heq|Hne].
    + rewrite Heq, Nat2Z.id in Hb, Hfold. simplify_eq.
      rewrite (IH _ ltac:(by rewrite length_insert) Hfold j (b0 ++ [(k, v)]))
        by (apply list_lookup_insert_eq; by eapply lookup_lt_Some).
      rewrite filter_cons_True by done. by rewrite <- app_assoc.
    + rewrite (IH _ ltac:(by rewrite length_insert) Hfold j b0)
        by (rewrite list_lookup_insert_ne by lia; done).
      by rewrite filter_cons_False by done.
Qed.

(** With an upper bound of a half or more, a table that respects the bound
    respects it with one pair more in twice the capacity. *)
Lemma load_next_doubled (s c : Z) (u : Q) :
  0 ≤ s → 1 ≤ c → (1 # 2 <= u)%Q → (load s c <= u)%Q →
  (load (s + 1) (c * 2) <= u)%Q.
Proof.
  intros Hs Hc Hu Hle. apply load_le in Hle; [|lia]. apply load_le; [lia|].
  rewrite inject_Z_plus, inject_Z_mult.
  change (inject_Z 1) with 1%Q. change (inject_Z 2) with 2%Q.
  assert (HC : (1 <= inject_Z c)%Q) by (change 1%Q with (inject_Z 1); by rewrite <- Zle_Qle).
  assert (Hhalf : ((1 # 2) * inject_Z c <= u * inject_Z c)%Q).
  { apply Qmult_le_compat_r; [done|]. apply inject_Z_nonneg. lia. }
  destruct (decide (s = 0)) as [->|Hne].
  - change (inject_Z 0) with 0%Q in *. set (x := (u * inject_Z c)%Q) in *.
    setoid_replace (u * (inject_Z c * 2))%Q with (2 * x)%Q using relation Qeq
      by (unfold x; ring).
    lra.
  - assert (HS : (1 <= inject_Z s)%Q)
      by (change 1%Q with (inject_Z 1); rewrite <- Zle_Qle; lia).
    set (x := (u * inject_Z c)%Q) in *.
    setoid_replace (u * (inject_Z c * 2))%Q with (2 * x)%Q using relation Qeq
      by (unfold x; ring).
    lra.
Qed.

(** When twice the capacity is enough, the loop of [_keepUpperLoadFactor]
    doubles once at most. *)
Lemma grow_at_most_once (fuel : nat) (s c : Z) (u : Q) :
  1 ≤ c → c * 2 ≤ LONG_MAX → (load s (c * 2) <= u)%Q →
  grow (S (S fuel)) s c u = Ok c ∨ grow (S (S fuel)) s c u = Ok (c * 2).
Proof.
  intros Hc Hmax Hle. cbn [grow].
  destruct (Qgtb (load s c) u); [|by left]. right.
  rewrite long_check_Ok by (unfold TABLE_FACTOR, LONG_MIN; lia).
  cbn [bind]. unfold TABLE_FACTOR. apply Qgtb_false in Hle. by rewrite Hle.
Qed.

Lemma keepUpper_at_most_once m :
  wf m → _capacity m * 2 ≤ LONG_MAX →
  (load (_size m) (_capacity m * 2) <= _upperLoadFactor m)%Q →
  ∃ m', _keepUpperLoadFactor m = Ok m'
        ∧ (_capacity m' = _capacity m ∨ _capacity m' = _capacity m * 2).
Proof.
  intros Hwf Hmax Hle. pose proof (wf_capacity m Hwf) as Hc.
  unfold _keepUpperLoadFactor.
  destruct (Qgtb (getLoadFactor m) (_upperLoadFactor m)); [|exists m; auto].
  change grow_fuel with (S (S 62)).
  destruct (grow_at_most_once 62 (_size m) (_capacity m) (_upperLoadFactor m))
    as [-> | ->]; [lia | done | done | |]; cbn [bind].
  - destruct (reHash_spec m (_capacity m) Hwf Hc) as (m' & -> & _ & _ & Hcap).
    exists m'. auto.
  - destruct (reHash_spec m (_capacity m * 2) Hwf) as (m' & -> & _ & _ & Hcap); [lia|].
    exists m'. auto.
Qed.

(** [insert] of a key that is absent returns true, in a table that respects
    an upper bound of a half or more, with one doubling at most. *)
Lemma insert_returns m key value :
  wf m → containsKey m key = Ok false →
  (getLoadFactor m <= _upperLoadFactor m)%Q → (1 # 2 <= _upperLoadFactor m)%Q →
  _capacity m * 2 ≤ LONG_MAX → _size m + 1 ≤ LONG_MAX →
  ∃ m', insert m key value = Ok (true, m')
        ∧ (_capacity m' = _capacity m ∨ _capacity m' = _capacity m * 2).
Proof.
  intros Hwf Hc Hload Hhalf Hcap Hmax.
  destruct (insert_absent m key value Hwf Hc) as (b & Hb & Hfresh & ->).
  rewrite long_check_Ok by (pose proof (wf_size m Hwf); unfold LONG_MIN; lia).
  cbn [bind].
  destruct (with_bucket_push m key value b Hwf Hfresh Hmax Hb) as [Hwf1 _].
  destruct (keepUpper_at_most_once
              (with_bucket m (_getIndex key (_capacity m)) (b ++ [(key, value)])
                 (_size m + 1)) Hwf1) as (m' & -> & Hcases); [done | |].
  - cbn [with_bucket _size _capacity _upperLoadFactor].
    apply load_next_doubled; [rewrite (wf_size m Hwf); lia | | done | done].
    apply (wf_capacity m Hwf).
  - exists m'. by cbn [bind].
Qed.

















End Order.

(** * The properties the specification states *)

Section Claims.
Context {K V : Type} `{!EqDecision K, !Hash K, !EqDecision V, !Inhabited V}.
Implicit Types (m : HashMap K V) (key : K) (value : V).

(** C1, amended. After any sequence of calls on a constructed table whose
    upper bound is at least twice its lower bound, the load is at most the
    upper bound. *)
Theorem load_factor_upper_invariant (calls : list (operation K V)) m0 m :
  constructed m0 → run m0 calls = Ok m →
  (2 * _lowerLoadFactor m0 <= _upperLoadFactor m0)%Q →
  (getLoadFactor m <= _upperLoadFactor m)%Q.
Proof.
  intros Hm0%constructed_inv Hrun Hlu.
  destruct (run_bounds _ _ _ Hm0 Hrun) as [Hu Hl].
  apply (inv_upper m (run_inv _ _ _ Hm0 Hrun)). by rewrite Hu, Hl.
Qed.

(** C2. Round trip.  [insert(k, v)] returns true exactly for a key that was
    absent; after it has returned true [at(k)] returns [v], and whatever it
    has returned the key is in the table.  For an absent key it does return
    true when the table respects an upper bound of a half or more and twice
    its capacity is an [int], as [capacity()] has it.  [erase(k)] returns,
    true exactly for a key that was present, and after it [containsKey(k)]
    is false. *)
Theorem insert_at_erase_containsKey m key value :
  wf m →
  (∀ (r : bool) m', insert m key value = Ok (r, m') →
     (r = true ↔ containsKey m key = Ok false)
     ∧ (r = true → at_ m' key = Ok value)
     ∧ containsKey m' key = Ok true)
  ∧ (containsKey m key = Ok false →
     (getLoadFactor m <= _upperLoadFactor m)%Q →
     (1 # 2 <= _upperLoadFactor m)%Q →
     _capacity m * 2 ≤ INT_MAX → _size m + 1 ≤ LONG_MAX →
     ∃ m', insert m key value = Ok (true, m')
           ∧ at_ m' key = Ok value ∧ containsKey m' key = Ok true)
  ∧ (∃ (r : bool) m', erase m key = Ok (r, m')
       ∧ (r = true ↔ containsKey m key = Ok true)
       ∧ containsKey m' key = Ok false).
Proof.
  intros Hwf.
  assert (Hround : ∀ (r : bool) m', insert m key value = Ok (r, m') →
            (r = true ↔ containsKey m key = Ok false)
            ∧ (r = true → at_ m' key = Ok value)
            ∧ containsKey m' key = Ok true).
  { intros r m' Hins. rewrite (containsKey_spec m key Hwf). destruct r.
    - destruct (insert_true _ _ _ _ Hwf Hins) as (Hwf' & Hfresh & Hperm & _).
      rewrite (containsKey_spec m' key Hwf'), (at_spec m' key Hwf').
      rewrite (find_value_perm key _ _ (wf_keys m' Hwf') Hperm). simpl.
      rewrite decide_True by done. rewrite bool_decide_eq_false_2 by done.
      rewrite bool_decide_eq_true_2; [done|].
      rewrite Hperm. simpl. apply elem_of_cons. by left.
    - apply insert_inv in Hins as [(_ & -> & Hin)|(? & _)]; [|done..].
      rewrite ?(containsKey_spec m key Hwf), bool_decide_eq_true_2 by done.
      split_and!; [|done..]. split; intros [=]. }
  split_and!.
  - exact Hround.
  - intros Hc Hload Hhalf Hcap Hmax.
    assert (Hlong : _capacity m * 2 ≤ LONG_MAX) by (unfold INT_MAX, LONG_MAX in *; lia).
    destruct (insert_returns m key value Hwf Hc Hload Hhalf Hlong Hmax)
      as (m' & Hins & _).
    destruct (Hround true m' Hins) as (_ & Hat & Hc'). exists m'. auto.
  - destruct (erase_spec m key Hwf) as (r & m' & Her & Hwf' & _ & _ & Hcase).
    exists r, m'. split; [done|].
    rewrite (containsKey_spec m key Hwf), (containsKey_spec m' key Hwf').
    destruct Hcase as [(-> & -> & Hnot)|(-> & _ & (v & Hperm) & _)].
    + rewrite bool_decide_eq_false_2 by done. split; [|done]. split; intros [=].
    + pose proof (wf_keys m Hwf) as Hnd. rewrite Hperm in Hnd. simpl in Hnd.
      apply NoDup_cons in Hnd as [Hnot _].
      rewrite (bool_decide_eq_false_2 (key ∈ (entries m').*1)) by done.
      rewrite bool_decide_eq_true_2; [done|].
      rewrite Hperm. simpl. apply elem_of_cons. by left.
Qed.



(** C5. After any sequence of calls on a constructed table the capacity is
    a power of two, and so at least 1; one more call leaves it alone, doubles
    it some number of times, or halves it once, and then it was not 1. *)
Theorem capacity_power_of_two (calls : list (operation K V)) m0 m :
  constructed m0 → run m0 calls = Ok m →
  power_of_two (_capacity m) ∧ 1 ≤ _capacity m
  ∧ ∀ (o : operation K V) m', apply_operation m o = Ok m' →
      (∃ j : nat, _capacity m' = _capacity m * 2 ^ Z.of_nat j)
      ∨ (_capacity m ≠ 1 ∧ _capacity m' = _capacity m ÷ 2).
Proof.
  intros Hm0%constructed_inv Hrun.
  pose proof (run_inv _ _ _ Hm0 Hrun) as [Hwf Hpow _ _].
  split_and!; [done | by apply power_of_two_pos |].
  intros o m' Ho. by destruct (apply_operation_step _ _ _ Hwf Ho) as (_ & _ & ?).
Qed.

(** C6. The constructor from two vectors throws [invalid_argument] when
    their lengths differ.  Otherwise it loads the pairs in order into a
    default table without changing the capacity, whatever the number of
    pairs, runs [_keepUpperLoadFactor] once on the result, and returns a
    table that holds every key once, with the value of the last pair that has
    the key (it does return for vectors that the [int] index of its loop can
    run over).  That one check leaves the table within the upper bound 3/4,
    at the first capacity among 16, 32, 64, ... that is enough for its size.
    From keys [a, a] and values [v1, v2] it makes a table of size 1 in which
    [a] has the value [v2]. *)
Theorem HashMap_vectors_behaviour (keyVector : list K) (valueVector : list V) :
  (length keyVector ≠ length valueVector →
   HashMap_vectors keyVector valueVector
   = Throw (invalid_argument DIFFERENT_SIZE_VECTORS_ERROR_MSG))
  ∧ (length keyVector = length valueVector →
     Z.of_nat (length keyVector) ≤ INT_MAX →
     ∃ m0 m1 m,
       HashMap_default = Ok m0
       ∧ load_pairs m0 0 (zip keyVector valueVector) = Ok m1
       ∧ _capacity m1 = INITIAL_CAPACITY
       ∧ _keepUpperLoadFactor m1 = Ok m
       ∧ HashMap_vectors keyVector valueVector = Ok m
       ∧ wf m
       ∧ _size m = Z.of_nat (length (remove_dups keyVector))
       ∧ (∀ k, at_ m k
               = lookup_result (find_value k (reverse (zip keyVector valueVector))))
       ∧ _size m1 = _size m
       ∧ _upperLoadFactor m = DEFAULT_UPPER_LOAD_FACTOR
       ∧ (getLoadFactor m <= DEFAULT_UPPER_LOAD_FACTOR)%Q
       ∧ ∃ j : nat,
           _capacity m = INITIAL_CAPACITY * 2 ^ Z.of_nat j
           ∧ ∀ i : nat, (i < j)%nat →
               (DEFAULT_UPPER_LOAD_FACTOR
                < load (_size m) (INITIAL_CAPACITY * 2 ^ Z.of_nat i))%Q)
  ∧ (∀ (a : K) (v1 v2 : V),
       ∃ m, HashMap_vectors [a; a] [v1; v2] = Ok m
            ∧ _size m = 1 ∧ at_ m a = Ok v2).
Proof.
  split_and!.
  - intros Hlen. unfold HashMap_vectors.
    destruct (HashMap_default (K := K) (V := V)) as [m0|] eqn:Hm0; [|discriminate].
    rewrite bind_Ok. by destruct (Nat.eqb_spec (length keyVector) (length valueVector)).
  - intros Hlen Hmax.
    destruct (HashMap_vectors_spec keyVector valueVector Hlen Hmax)
      as (m0 & m1 & m & Hm0 & Hload & Hcap1 & Hkeep & Hm & Hwf & Hsize & Hat).
    pose proof Hm0 as Hdefault. unfold HashMap_default in Hdefault.
    pose proof (HashMap_loadFactors_wf _ _ _ Hdefault) as Hwf0.
    apply HashMap_loadFactors_inv in Hdefault as [Hrecord _].
    destruct (load_pairs_spec _ _ _ _ Hwf0 Hload) as (Hwf1 & _ & Hu1 & _).
    destruct (keepUpper_spec m1 m Hwf1 Hkeep)
      as (_ & (Hs & Hu & _) & Hle & j & Hcap & Hmin).
    assert (Hupper : _upperLoadFactor m = DEFAULT_UPPER_LOAD_FACTOR).
    { rewrite Hu, Hu1, Hrecord. done. }
    exists m0, m1, m.
    split_and!; [done | done | done | done | done | done | done | done | done
                | done | by rewrite <- Hupper |].
    exists j. rewrite Hcap, Hcap1. split; [done|]. intros i Hi.
    rewrite <- Hupper, Hu, Hs, <- Hcap1. by apply Hmin.
  - intros a v1 v2.
    destruct (HashMap_vectors_spec [a; a] [v1; v2])
      as (m0 & m1 & m & _ & _ & _ & _ & Hm & _ & Hsize & Hat);
      [done | unfold INT_MAX; simpl; lia |].
    exists m. split_and!; [done | |].
    + rewrite Hsize. cbn [remove_dups].
      destruct (decide_rel elem_of a [a]) as [_|Hn];
        [|exfalso; apply Hn; by apply list_elem_of_singleton].
      destruct (decide_rel elem_of a []) as [Hin|_]; [by apply elem_of_nil in Hin | done].
    + rewrite Hat. simpl. by rewrite decide_True.
Qed.

(** C7. [operator==] of two tables returns, and returns true exactly when
    the sizes, the two bounds and the capacities are equal and every pair of
    the other table is found with its value in this one, wherever the pair
    sits in its bucket; which of the two tables is asked makes no difference.
    Two default tables that got the same two pairs in
    the two possible orders are equal, and neither is equal to the table
    that got only the first pair. *)
Theorem eqb_behaviour m other (a b : K) (v1 v2 : V) :
  wf m → wf other → a ≠ b →
  (∃ r : bool,
     eqb m other = Ok r
     ∧ (r = true ↔
        _size m = _size other
        ∧ (_upperLoadFactor m == _upperLoadFactor other)%Q
        ∧ (_lowerLoadFactor m == _lowerLoadFactor other)%Q
        ∧ _capacity m = _capacity other
        ∧ ∀ key value, (key, value) ∈ concat (_table other) →
                       at_ m key = Ok value))
  ∧ eqb other m = eqb m other
  ∧ (∃ m0 ma mab mb mba,
       HashMap_default = Ok m0
       ∧ insert m0 a v1 = Ok (true, ma) ∧ insert ma b v2 = Ok (true, mab)
       ∧ insert m0 b v2 = Ok (true, mb) ∧ insert mb a v1 = Ok (true, mba)
       ∧ eqb mab mba = Ok true ∧ eqb mba mab = Ok true
       ∧ eqb mab ma = Ok false ∧ eqb ma mab = Ok false).
Proof.
  intros Hwf Hwfo Hne. split_and!.
  - destruct (eqb_spec m other Hwf Hwfo) as (r & Hr & Hiff). exists r.
    split; [done|]. rewrite Hiff. unfold all_found.
    rewrite Forall_forall. fold (entries other).
    split; intros (Hs & Hu & Hl & Hc & Hall); split_and!; try done.
    + intros key value Hin. rewrite (at_spec m key Hwf).
      apply lookup_result_Ok. by apply (Hall (key, value)).
    + intros [key value] Hin. simpl. apply lookup_result_Ok.
      rewrite <- (at_spec m key Hwf). by apply Hall.
  - by apply eqb_sym.
  - destruct (default_two_inserts a b v1 v2 Hne)
      as (m0 & ma & mab & Hm0 & Ha & Hab & Hwfa & Hwfab & Hpa & Hpab
          & Hsa & Hsab & Hca & Hcab & Hua & Huab & Hla & Hlab).
    destruct (default_two_inserts b a v2 v1) as
        (m0' & mb & mba & Hm0' & Hb & Hba & Hwfb & Hwfba & Hpb & Hpba
         & Hsb & Hsba & Hcb & Hcba & Hub & Huba & Hlb & Hlba); [done|].
    rewrite Hm0 in Hm0'. injection Hm0' as <-.
    exists m0, ma, mab, mb, mba.
    assert (Hfound : ∀ (m1 m2 : HashMap K V), wf m1 →
               entries m2 ≡ₚ entries m1 → all_found m1 (entries m2)).
    { intros m1 m2 Hwf1 Hperm. apply Forall_forall. intros [k v] Hin. simpl.
      apply find_value_unique; [apply (wf_keys m1 Hwf1) | by rewrite <- Hperm]. }
    assert (Hswap : entries mba ≡ₚ entries mab).
    { rewrite Hpab, Hpba. apply perm_swap. }
    split_and!; [done | done | done | done | done | | | |].
    + destruct (eqb_spec mab mba Hwfab Hwfba) as ([|] & Hr & Hiff); [done|].
      destruct Hiff as [_ Hiff]. discriminate Hiff.
      split_and!; [congruence | by rewrite Huab, Huba | by rewrite Hlab, Hlba
                  | congruence | by apply Hfound].
    + destruct (eqb_spec mba mab Hwfba Hwfab) as ([|] & Hr & Hiff); [done|].
      destruct Hiff as [_ Hiff]. discriminate Hiff.
      split_and!; [congruence | by rewrite Huab, Huba | by rewrite Hlab, Hlba
                  | congruence | by apply Hfound].
    + destruct (eqb_spec mab ma Hwfab Hwfa) as ([|] & Hr & Hiff); [|done].
      destruct Hiff as [Hiff _]. destruct (Hiff eq_refl) as (Hs & _). lia.
    + destruct (eqb_spec ma mab Hwfa Hwfab) as ([|] & Hr & Hiff); [|done].
      destruct Hiff as [Hiff _]. destruct (Hiff eq_refl) as (Hs & _). lia.
Qed.


(** C9, at the input where the code leaves the claim: the constructor
    accepts a lower bound equal to the upper bound. *)
Theorem HashMap_loadFactors_accepts_equal_bounds :
  HashMap_loadFactors (K := K) (V := V) (1 # 2) (1 # 2)
  = Ok {| _capacity := 16; _size := 0; _upperLoadFactor := 1 # 2;
          _lowerLoadFactor := 1 # 2; _table := replicate 16 [] |}.
Proof. reflexivity. Qed.

(** C10. [insert], [erase] and [operator[]] on one key leave every other key
    as it was: [at] and [containsKey] answer for it as before, whether or
    not the call resized the table; and [_reHash] itself changes the answer
    for no key. *)
Theorem other_keys_untouched m key key' :
  wf m → key ≠ key' →
  (∀ value (r : bool) m', insert m key value = Ok (r, m') →
     at_ m' key' = at_ m key' ∧ containsKey m' key' = containsKey m key')
  ∧ (∀ (r : bool) m', erase m key = Ok (r, m') →
       at_ m' key' = at_ m key' ∧ containsKey m' key' = containsKey m key')
  ∧ (∀ (v : V) m', subscript m key = Ok (v, m') →
       at_ m' key' = at_ m key' ∧ containsKey m' key' = containsKey m key')
  ∧ (∀ (c : Z) m', 1 ≤ c ≤ LONG_MAX → _reHash m c = Ok m' →
       ∀ k, at_ m' k = at_ m k ∧ containsKey m' k = containsKey m k).
Proof.
  intros Hwf Hne. split_and!.
  - intros value r m' Hins. destruct r.
    + destruct (insert_true _ _ _ _ Hwf Hins) as (Hwf' & _ & Hperm & _).
      apply same_entries_lookup; [done | done |].
      by apply (added_lookup _ _ key key' value); [apply (wf_keys m' Hwf')| |].
    + apply insert_inv in Hins as [(_ & -> & _)|(? & _)]; done.
  - intros r m' Her.
    destruct (erase_spec m key Hwf) as (r0 & m0 & Her0 & Hwf' & _ & _ & Hcase).
    rewrite Her in Her0. injection Her0 as <- <-.
    destruct Hcase as [(_ & -> & _)|(_ & _ & (v & Hperm) & _)]; [done|].
    apply same_entries_lookup; [done | done |]. symmetry.
    by apply (added_lookup _ _ key key' v); [apply (wf_keys m Hwf)| |].
  - intros v m' Hsub.
    destruct (subscript_spec _ _ _ _ Hwf Hsub) as (Hwf' & _ & _ & Hcase).
    destruct Hcase as [(_ & ->)|(_ & _ & Hperm & _)]; [done|].
    apply same_entries_lookup; [done | done |].
    by apply (added_lookup _ _ key key' inhabitant); [apply (wf_keys m' Hwf')| |].
  - intros c m' Hc Hre k.
    destruct (reHash_spec m c Hwf Hc) as (m2 & Hre2 & Hwf' & Hres & _).
    rewrite Hre in Hre2. injection Hre2 as <-.
    apply same_entries_lookup; [done | done |]. by apply resized_lookup.
Qed.
End Claims.

(** * Further properties of the code *)

(** ** Queries, [clear] and construction *)

Section Queries.
Context {K V : Type} `{!EqDecision K, !Hash K}.
Implicit Types (m : HashMap K V) (key : K).

Lemma lookup_result_inj (o1 o2 : option V) :
  lookup_result o1 = lookup_result o2 → o1 = o2.
Proof. destruct o1, o2; simpl; intros [=]; congruence. Qed.

Lemma entries_nil_no_key m :
  wf m → entries m = [] ↔ ∀ key, containsKey m key = Ok false.
Proof.
  intros Hwf. split.
  - intros Hnil key. rewrite (containsKey_spec m key Hwf), Hnil.
    by rewrite bool_decide_eq_false_2 by apply not_elem_of_nil.
  - intros Hnone. destruct (entries m) as [|[k v] l] eqn:Hentries; [done|].
    specialize (Hnone k). rewrite (containsKey_spec m k Hwf), Hentries in Hnone.
    injection Hnone as Hnone. apply bool_decide_eq_false in Hnone.
    exfalso. apply Hnone. simpl. apply elem_of_cons. by left.
Qed.

(** X1. [containsKey] never throws on a well-formed table, and it answers
    true exactly when [at] returns a value; [at] throws [out_of_range] exactly
    when [containsKey] answers false. *)
Theorem containsKey_at_agree m key :
  wf m →
  (∃ c : bool, containsKey m key = Ok c)
  ∧ (containsKey m key = Ok true ↔ ∃ v, at_ m key = Ok v)
  ∧ (containsKey m key = Ok false
     ↔ at_ m key = Throw (out_of_range KEY_DOSENT_EXIST_ERROR)).
Proof.
  intros Hwf. rewrite (containsKey_spec m key Hwf), (at_spec m key Hwf).
  pose proof (find_value_None (V := V) key (entries m)) as Hnone.
  destruct (find_value key (entries m)) as [v|] eqn:Hf; cbn [lookup_result].
  - assert (Hin : key ∈ (entries m).*1).
    { apply dec_stable. intros Hnot. apply Hnone in Hnot. discriminate. }
    rewrite bool_decide_eq_true_2 by done.
    split_and!; [by eexists | split; [by eexists | done] | split; discriminate].
  - rewrite bool_decide_eq_false_2 by by apply Hnone.
    split_and!; [by eexists | split; [discriminate | intros [v [=]]] | done].
Qed.

(** X2. [clear] returns on a well-formed table: the capacity and the bounds
    stay, the size is 0, a traversal yields nothing, and no key is found. *)
Theorem clear_behaviour m :
  wf m →
  ∃ m', clear m = Ok m' ∧ wf m'
        ∧ _capacity m' = _capacity m
        ∧ _upperLoadFactor m' = _upperLoadFactor m
        ∧ _lowerLoadFactor m' = _lowerLoadFactor m
        ∧ _size m' = 0 ∧ empty m' = true
        ∧ iterate m' = Ok []
        ∧ ∀ key, containsKey m' key = Ok false
                 ∧ at_ m' key = Throw (out_of_range KEY_DOSENT_EXIST_ERROR).
Proof.
  intros Hwf. rewrite (clear_spec m Hwf). eexists. split; [done|].
  assert (Hwf' : wf (K := K) (V := V)
                   {| _capacity := _capacity m; _size := 0;
                      _upperLoadFactor := _upperLoadFactor m;
                      _lowerLoadFactor := _lowerLoadFactor m;
                      _table := replicate (Z.to_nat (_capacity m)) [] |})
    by (apply wf_empty; apply (wf_capacity m Hwf)).
  split_and!; [done | done | done | done | done | done | |].
  - rewrite iterate_spec by by apply wf_shape. simpl. by rewrite concat_replicate_nil.
  - intros key. rewrite (containsKey_spec _ key Hwf'), (at_spec _ key Hwf').
    unfold entries. cbn [_table]. rewrite concat_replicate_nil.
    by rewrite bool_decide_eq_false_2 by apply not_elem_of_nil.
Qed.

(** X3. The accessors of a well-formed table whose size and capacity an [int]
    can hold: [size()] is the number of pairs a traversal yields, [capacity()]
    the number of buckets, [empty()] holds exactly when [size()] is 0, which
    is exactly when no key is found, and the load factor is not negative. *)
Theorem accessors_behaviour m :
  wf m → _size m ≤ INT_MAX → _capacity m ≤ INT_MAX →
  size m = Z.of_nat (length (concat (_table m)))
  ∧ capacity m = Z.of_nat (length (_table m))
  ∧ (empty m = true ↔ size m = 0)
  ∧ (empty m = true ↔ ∀ key, containsKey m key = Ok false)
  ∧ (0 <= getLoadFactor m)%Q.
Proof.
  intros Hwf Hsize Hcap. pose proof (wf_size m Hwf) as Hs.
  pose proof (wf_capacity m Hwf) as Hc. pose proof (wf_length m Hwf) as Hl.
  unfold entries in Hs.
  assert (Hsz : size m = _size m).
  { unfold size. apply to_int_small. unfold INT_MIN. lia. }
  assert (Hcp : capacity m = _capacity m).
  { unfold capacity. apply to_int_small. unfold INT_MIN. lia. }
  assert (Hempty : empty m = true ↔ _size m = 0) by (unfold empty; apply Z.eqb_eq).
  split_and!.
  - by rewrite Hsz.
  - by rewrite Hcp.
  - by rewrite Hsz.
  - rewrite Hempty, <- (entries_nil_no_key m Hwf). unfold entries. rewrite Hs.
    split; [intros Hz; apply length_zero_iff_nil; lia | by intros ->].
  - unfold getLoadFactor. apply load_nonneg; lia.
Qed.

(** X4. The constructor with two bounds throws [invalid_argument] with the
    message about the order of the bounds when the upper bound is below the
    lower one, and with the message about their range when they are in order
    but the lower is negative or the upper above 1.  For all other bounds it
    returns a well-formed table of 16 empty buckets in which no key is
    found. *)
Theorem HashMap_loadFactors_behaviour (l u : Q) :
  ((u < l)%Q →
   HashMap_loadFactors (K := K) (V := V) l u
   = Throw (invalid_argument INVALID_LOAD_FACTORS_LOWER_HIGHER))
  ∧ ((l <= u)%Q → (l < 0)%Q ∨ (1 < u)%Q →
     HashMap_loadFactors (K := K) (V := V) l u
     = Throw (invalid_argument INVALID_LOAD_FACTORS_OUT_RANGE))
  ∧ ((0 <= l)%Q → (l <= u)%Q → (u <= 1)%Q →
     ∃ m : HashMap K V,
       HashMap_loadFactors l u = Ok m ∧ wf m
       ∧ _capacity m = 16 ∧ _size m = 0
       ∧ _lowerLoadFactor m = l ∧ _upperLoadFactor m = u
       ∧ iterate m = Ok []
       ∧ ∀ key, containsKey m key = Ok false).
Proof.
  unfold HashMap_loadFactors. cbn [new_table INITIAL_CAPACITY Z.ltb Z.compare bind].
  split_and!.
  - intros Hul%Qltb_true. by rewrite Hul.
  - intros Hlu%Qltb_false Hout. rewrite Hlu.
    destruct Hout as [Hl%Qltb_true|Hu%Qgtb_true].
    + by rewrite Hl.
    + rewrite Hu. by rewrite orb_true_r.
  - intros Hl%Qltb_false Hlu%Qltb_false Hu%Qgtb_false. rewrite Hlu, Hl, Hu. simpl.
    eexists. split; [done|].
    assert (Hwf : wf (K := K) (V := V)
                    {| _capacity := 16; _size := 0; _upperLoadFactor := u;
                       _lowerLoadFactor := l; _table := replicate 16 [] |}).
    { apply (wf_empty 16 u l). unfold LONG_MAX. lia. }
    split_and!; [done | done | done | done | done | |].
    + by rewrite iterate_spec by by apply wf_shape.
    + by apply (entries_nil_no_key _ Hwf).
Qed.

(** X5. The bucket of a key is the remainder of its hash by the capacity
    whenever the capacity is a power of two, and it is a bucket of the array
    for every capacity from 1 on. *)
Theorem getIndex_is_remainder key (j : nat) (c : Z) :
  Z.of_nat j ≤ 62 → 1 ≤ c ≤ LONG_MAX →
  _getIndex key (2 ^ Z.of_nat j) = hash key mod 2 ^ Z.of_nat j
  ∧ 0 ≤ _getIndex key c < c.
Proof.
  intros Hj Hc. split; [|by apply _getIndex_range].
  assert (Hpow : 1 ≤ 2 ^ Z.of_nat j ≤ 2 ^ 62).
  { split; [apply (Z.pow_le_mono_r 2 0); lia | apply Z.pow_le_mono_r; lia]. }
  unfold _getIndex, to_size_t, to_long. rewrite (Z.mod_small (_ - 1)) by lia.
  replace (2 ^ Z.of_nat j - 1) with (Z.ones (Z.of_nat j))
    by (rewrite Z.ones_equiv; lia).
  rewrite Z.land_ones by lia.
  pose proof (Z.mod_pos_bound (hash key) (2 ^ Z.of_nat j)) as Hmod.
  destruct (Z.ltb_spec (hash key mod 2 ^ Z.of_nat j) (2 ^ 63)); lia.
Qed.
End Queries.

(** ** Buckets as filters of the pairs; copies *)

Section Copies.
Context {K V : Type} `{!EqDecision K, !Hash K, !EqDecision V}.
Implicit Types (m : HashMap K V) (key : K) (t : list (list (K * V))).

(** Filling a fresh array of the same capacity with the pairs in traversal
    order rebuilds every bucket. *)
Lemma HashMap_copy_id m : wf m → HashMap_copy m = Ok m.
Proof.
  intros Hwf. pose proof (wf_capacity m Hwf) as Hc.
  destruct (fill_fresh m (_capacity m)) as (t & Hnew & Hfill & Hlen & _ & _);
    [by apply wf_shape | done |].
  unfold HashMap_copy. rewrite Hnew, bind_Ok, Hfill, bind_Ok.
  rewrite range_for_spec in Hfill by by apply wf_shape.
  assert (Hfresh : Z.of_nat (length (replicate (Z.to_nat (_capacity m)) (@nil (K * V))))
                   = _capacity m) by (rewrite length_replicate; lia).
  assert (Ht : t = _table m).
  { apply list_eq. intros j.
    destruct (decide (j < length (_table m))%nat) as [Hlt|Hge].
    - destruct (lookup_lt_is_Some_2 _ _ Hlt) as [b Hb].
      rewrite (fill_lookup _ _ _ _ Hc Hfresh Hfill j []), Hb.
      + simpl. f_equal. apply bucket_is_filter; [apply (wf_placed m Hwf) | lia |].
        by rewrite Nat2Z.id.
      + apply lookup_replicate. split; [done|]. pose proof (wf_length m Hwf). lia.
    - rewrite !lookup_ge_None_2; [done | lia |].
      pose proof (wf_length m Hwf). lia. }
  rewrite Ht. by destruct m.
Qed.

(** X6. The copy constructor returns, for a well-formed table, a table with
    the same capacity, size and bounds and the same buckets, pair for pair in
    the same order. *)
Theorem HashMap_copy_exact m :
  wf m →
  ∃ m', HashMap_copy m = Ok m'
        ∧ _table m' = _table m
        ∧ _capacity m' = _capacity m ∧ _size m' = _size m
        ∧ _upperLoadFactor m' = _upperLoadFactor m
        ∧ _lowerLoadFactor m' = _lowerLoadFactor m.
Proof. intros Hwf. exists m. by rewrite (HashMap_copy_id m Hwf). Qed.

Lemma all_found_refl m : wf m → all_found m (entries m).
Proof.
  intros Hwf. apply Forall_forall. intros [k v] Hin. simpl.
  by apply find_value_unique; [apply (wf_keys m Hwf)|].
Qed.

Lemma all_found_trans (a b c : HashMap K V) :
  all_found a (entries b) → all_found b (entries c) → all_found a (entries c).
Proof.
  unfold all_found. rewrite !Forall_forall. intros Hab Hbc p Hp.
  apply (Hab (p.1, p.2)). apply find_value_Some. by apply Hbc.
Qed.

(** X7. On well-formed tables [operator==] is symmetric and transitive, and
    reflexive at a table whose bounds are equal to themselves, as they are
    unless a bound is a NaN; [operator!=] returns the opposite answer. *)
Theorem eqb_equivalence (a b c : HashMap K V) :
  wf a → wf b → wf c →
  (bounds_are_numbers a → eqb a a = Ok true)
  ∧ (eqb a b = Ok true → eqb b c = Ok true → eqb a c = Ok true)
  ∧ (eqb a b = Ok true → eqb b a = Ok true)
  ∧ (eqb a b = Ok true → bounds_are_numbers a ∧ bounds_are_numbers b)
  ∧ (∃ r : bool, eqb a b = Ok r ∧ neqb a b = Ok (negb r)).
Proof.
  intros Ha Hb Hc. split_and!.
  - intros [Hu Hl]. destruct (eqb_spec a a Ha Ha) as (r & -> & Hr). f_equal.
    apply Hr. apply Qeq_bool_iff in Hu, Hl.
    split_and!; [done | done | done | done | by apply all_found_refl].
  - destruct (eqb_spec a b Ha Hb) as (r1 & -> & Hr1).
    destruct (eqb_spec b c Hb Hc) as (r2 & -> & Hr2).
    destruct (eqb_spec a c Ha Hc) as (r3 & -> & Hr3).
    intros [= ->] [= ->]. f_equal. apply Hr3.
    destruct Hr1 as [Hr1 _], Hr2 as [Hr2 _].
    destruct (Hr1 eq_refl) as (Hs1 & Hu1 & Hl1 & Hc1 & Hf1).
    destruct (Hr2 eq_refl) as (Hs2 & Hu2 & Hl2 & Hc2 & Hf2).
    split_and!; [congruence | by rewrite Hu1 | by rewrite Hl1 | congruence
                | by eapply all_found_trans].
  - by rewrite (eqb_sym a b).
  - destruct (eqb_spec a b Ha Hb) as (r & -> & [Hr _]). intros [= ->].
    destruct (Hr eq_refl) as (_ & Hu & Hl & _).
    unfold bounds_are_numbers. rewrite !Qeq_bool_iff. done.
  - destruct (eqb_spec a b Ha Hb) as (r & Hr & _). exists r. split; [done|].
    unfold neqb. by rewrite Hr.
Qed.

(** X8. [operator=] from a well-formed table returns, whatever this table
    was, a table that holds what the argument holds, bucket for bucket; and
    [operator==] finds that table and the argument equal when the bounds of
    the argument are equal to themselves, as they are unless a bound is a
    NaN. *)
Theorem operator_assign_behaviour (this other : HashMap K V) :
  wf other →
  operator_assign this other = Ok other
  ∧ (bounds_are_numbers other →
     ∀ m', operator_assign this other = Ok m' →
           eqb m' other = Ok true ∧ eqb other m' = Ok true).
Proof.
  intros Hwf.
  assert (Hassign : operator_assign this other = Ok other).
  { unfold operator_assign. rewrite (HashMap_copy_id other Hwf), bind_Ok.
    simpl. by destruct other. }
  split; [done|]. intros [Hu Hl] m'. rewrite Hassign. intros [= <-].
  destruct (eqb_spec other other Hwf Hwf) as (r & -> & Hr).
  assert (r = true) as ->; [|done].
  apply Hr. apply Qeq_bool_iff in Hu, Hl.
  split_and!; [done | done | done | done | by apply all_found_refl].
Qed.

(** X9. [bucketSize] throws [out_of_range] for a key that the table does not
    hold; for a key that it holds it returns the number of pairs whose keys
    hash to the bucket of the key, which is at least 1 and at most the size
    (for tables of a size that an [int] can hold). *)
Theorem bucketSize_behaviour m key :
  wf m → _size m ≤ INT_MAX →
  (containsKey m key = Ok false →
   bucketSize m key = Throw (out_of_range KEY_DOSENT_EXIST_ERROR))
  ∧ (containsKey m key = Ok true →
     ∃ n : Z,
       bucketSize m key = Ok n
       ∧ 1 ≤ n ≤ _size m
       ∧ n = Z.of_nat (length (filter
               (λ p, _getIndex p.1 (_capacity m) = _getIndex key (_capacity m))
               (concat (_table m))))).
Proof.
  intros Hwf Hmax. split.
  - intros Hc. unfold bucketSize. by rewrite Hc.
  - intros Hc. unfold bucketSize. rewrite Hc, bind_Ok.
    destruct (read_bucket m key Hwf) as (b & Hread & Hb & _).
    pose proof (_getIndex_range key _ (wf_capacity m Hwf)) as Hi.
    rewrite Hread, bind_Ok.
    rewrite (bucket_is_filter _ _ _ b (wf_placed m Hwf)) by (lia || done).
    assert (Hlen : 1 ≤ Z.of_nat (length b) ≤ _size m).
    { split.
      - apply containsKey_inv in Hc as (b' & Hread' & Hhas).
        rewrite Hread in Hread'. injection Hread' as <-.
        destruct b; [discriminate | simpl; lia].
      - rewrite (wf_size m Hwf). unfold entries.
        rewrite (concat_lookup_split _ _ _ Hb), !length_app. lia. }
    exists (Z.of_nat (length b)). split_and!; [|lia|lia|done].
    f_equal. apply to_int_small. unfold INT_MIN. lia.
Qed.
End Copies.

(** ** Iterators, one step at a time *)

Section Iterators.
Context {K V : Type} `{!Hash K}.
Implicit Types (m : HashMap K V) (i e : PointerToPair).

(** What an iterator that has the pairs [l] before it does: it is the end
    iterator when [l] is empty, and otherwise it is not, it points at the
    first pair of [l], and an increment leaves it before the rest. *)
Lemma position_step m i e (l : list (K * V)) :
  shape m → end_ m = Ok e → position m i l →
  match l with
  | [] => iterator_eqb i e = true
  | p :: l' =>
      iterator_eqb i e = false ∧ deref m i = Ok p
      ∧ ∃ i', incr m i = Ok i' ∧ position m i' l'
  end.
Proof.
  intros Hshape He Hpos.
  destruct (end_spec m Hshape) as (e' & last & He' & Hend & Hlast & Hvi).
  rewrite He in He'. injection He' as <-.
  destruct Hpos as [i Hi|i b o bk Hi Hidx Hvec Hbk Ho].
  - unfold iterator_eqb. by rewrite Hi, Hend.
  - destruct (lookup_lt_is_Some_2 bk o Ho) as [p Hp].
    rewrite (drop_S _ _ _ Hp). simpl. split_and!.
    + unfold iterator_eqb, vector_iterator_eqb. rewrite Hi, Hvec, Hvi. simpl.
      destruct (Z.eqb_spec (Z.of_nat b) (_capacity m - 1)) as [Heq|]; [|done].
      rewrite <- Heq, Nat2Z.id in Hlast. simplify_eq. simpl.
      apply Z.eqb_neq. lia.
    + unfold deref. rewrite Hvec. simpl. rewrite (read_lookup _ _ _ Hbk), bind_Ok.
      destruct (Z.leb_spec 0 (Z.of_nat o)); [|lia]. by rewrite Nat2Z.id, Hp.
    + by apply (incr_spec m i b o bk).
Qed.

Lemma advance_position m (n : nat) i (l : list (K * V)) :
  shape m → position m i l → (n ≤ length l)%nat →
  ∃ i', advance n m i = Ok i' ∧ position m i' (drop n l).
Proof.
  intros Hshape. destruct (end_spec m Hshape) as (e & _ & He & _).
  revert i l. induction n as [|n IH]; intros i l Hpos Hn.
  - exists i. by rewrite drop_0.
  - destruct l as [|p l]; [simpl in Hn; lia|].
    destruct (position_step m i e _ Hshape He Hpos) as (_ & _ & i1 & Hi1 & Hpos1).
    destruct (IH i1 l Hpos1) as (i' & Hi' & Hpos'); [simpl in Hn; lia|].
    exists i'. simpl. by rewrite Hi1, bind_Ok.
Qed.

(** X10. From [begin()], [n] increments lead, for every [n] up to the number
    of pairs, to an iterator that is equal to [end()] exactly when [n] is the
    number of pairs, and that otherwise points at pair number [n] of the
    traversal; so [begin()] is [end()] exactly for a table without pairs. *)
Theorem advance_behaviour m (n : nat) :
  wf m → Z.of_nat n ≤ _size m →
  ∃ b e i,
    begin m = Ok b ∧ end_ m = Ok e ∧ advance n m b = Ok i
    ∧ (iterator_eqb i e = true ↔ Z.of_nat n = _size m)
    ∧ (iterator_neqb i e = true ↔ Z.of_nat n < _size m)
    ∧ ∀ p, concat (_table m) !! n = Some p → deref m i = Ok p.
Proof.
  intros Hwf Hn. pose proof (wf_shape m Hwf) as Hshape.
  pose proof (wf_size m Hwf) as Hsize. unfold entries in Hsize.
  destruct (begin_spec m Hshape) as (b & Hb & Hpos).
  destruct (end_spec m Hshape) as (e & _ & He & _).
  destruct (advance_position m n b _ Hshape Hpos) as (i & Hi & Hposi); [lia|].
  exists b, e, i. split_and!; [done | done | done | | |].
  - pose proof (position_step m i e _ Hshape He Hposi) as Hstep.
    destruct (drop n (concat (_table m))) as [|p l] eqn:Hdrop.
    + apply (f_equal length) in Hdrop. rewrite length_drop in Hdrop. simpl in Hdrop.
      split; [lia | done].
    + apply (f_equal length) in Hdrop. rewrite length_drop in Hdrop. simpl in Hdrop.
      destruct Hstep as (-> & _). split; [done | lia].
  - pose proof (position_step m i e _ Hshape He Hposi) as Hstep.
    unfold iterator_neqb.
    destruct (drop n (concat (_table m))) as [|p l] eqn:Hdrop.
    + apply (f_equal length) in Hdrop. rewrite length_drop in Hdrop. simpl in Hdrop.
      rewrite Hstep. split; [done | lia].
    + apply (f_equal length) in Hdrop. rewrite length_drop in Hdrop. simpl in Hdrop.
      destruct Hstep as (-> & _). split; [lia | done].
  - intros p Hp. rewrite (drop_S _ _ _ Hp) in Hposi.
    by destruct (position_step m i e _ Hshape He Hposi) as (_ & ? & _).
Qed.
Lemma advance_snoc m (n : nat) i i1 i2 :
  advance n m i = Ok i1 → incr m i1 = Ok i2 → advance (S n) m i = Ok i2.
Proof.
  revert i. induction n as [|n IH]; intros i; cbn [advance].
  - intros [= ->] Hincr. by rewrite Hincr.
  - intros (i' & Hi' & Hadv)%bind_Ok_inv Hincr. rewrite Hi', bind_Ok.
    by apply IH.
Qed.

(** X11. The postfix increment of an iterator that [n] increments have led
    from [cbegin()] to a pair returns the iterator as it was, which still
    points at pair number [n], and leaves the iterator that [n + 1]
    increments lead to, which is [cend()] exactly when that was the last
    pair. *)
Theorem incr_post_behaviour m (n : nat) :
  wf m → Z.of_nat n < _size m →
  ∃ b e i old i',
    cbegin m = Ok b ∧ cend m = Ok e ∧ advance n m b = Ok i
    ∧ incr_post m i = Ok (old, i') ∧ old = i
    ∧ advance (S n) m b = Ok i'
    ∧ (∀ p, concat (_table m) !! n = Some p → deref m old = Ok p)
    ∧ (iterator_eqb i' e = true ↔ Z.of_nat (S n) = _size m).
Proof.
  intros Hwf Hn. pose proof (wf_shape m Hwf) as Hshape.
  pose proof (wf_size m Hwf) as Hsize. unfold entries in Hsize.
  destruct (begin_spec m Hshape) as (b & Hb & Hpos).
  destruct (end_spec m Hshape) as (e & _ & He & _).
  destruct (advance_position m n b _ Hshape Hpos) as (i & Hi & Hposi); [lia|].
  destruct (lookup_lt_is_Some_2 (concat (_table m)) n ltac:(lia)) as [p Hp].
  rewrite (drop_S _ _ _ Hp) in Hposi.
  destruct (position_step m i e _ Hshape He Hposi) as (_ & Hderef & i' & Hincr & Hpos').
  exists b, e, i, i, i'. unfold cbegin, cend, incr_post. rewrite Hincr, bind_Ok.
  split_and!; [done | done | done | done | done | by eapply advance_snoc | |].
  - intros p' Hp'. congruence.
  - pose proof (position_step m i' e _ Hshape He Hpos') as Hstep.
    destruct (drop (S n) (concat (_table m))) as [|q l] eqn:Hdrop.
    + apply (f_equal length) in Hdrop. rewrite length_drop in Hdrop. simpl in Hdrop.
      split; [lia | done].
    + apply (f_equal length) in Hdrop. rewrite length_drop in Hdrop. simpl in Hdrop.
      destruct Hstep as (-> & _). split; [done | lia].
Qed.
End Iterators.

(** ** Calls in sequence *)

Section Compositions.
Context {K V : Type} `{!EqDecision K, !Hash K, !Inhabited V}.
Implicit Types (m : HashMap K V) (key : K) (value : V) (f : K → option V).

Lemma model_step_ext f g (o : operation K V) :
  (∀ k, f k = g k) → ∀ k, model_step f o k = model_step g o k.
Proof.
  intros Hfg k. destruct o as [key value|key|key|]; simpl; [| |  |done].
  - destruct (decide (k = key)); [by rewrite Hfg | done].
  - by destruct (decide (k = key)).
  - destruct (decide (k = key)); [by rewrite Hfg | done].
Qed.

(** One call, seen on the pairs of the table. *)
Lemma apply_operation_contents m (o : operation K V) m' :
  wf m → apply_operation m o = Ok m' →
  wf m'
  ∧ ∀ k, find_value k (entries m')
         = model_step (λ k, find_value k (entries m)) o k.
Proof.
  intros Hwf. destruct o as [key value|key|key|]; simpl.
  - intros ([r m2] & Hins & [= <-])%bind_Ok_inv. simpl. destruct r.
    + destruct (insert_true _ _ _ _ Hwf Hins) as (Hwf' & Hfresh & Hperm & _).
      split; [done|]. intros k. destruct (decide (k = key)) as [->|Hne].
      * apply find_value_None in Hfresh. rewrite Hfresh.
        rewrite (find_value_perm key _ _ (wf_keys m2 Hwf') Hperm). simpl.
        by rewrite decide_True.
      * by apply (added_lookup _ _ key k value); [apply (wf_keys m2 Hwf')| |].
    + apply insert_inv in Hins as [(_ & -> & Hin)|(? & _)]; [|done..].
      split; [done|]. intros k. destruct (decide (k = key)) as [->|Hne]; [|done].
      destruct (find_value key (entries m)) eqn:Hf; [done|].
      by apply find_value_None in Hf.
  - destruct (erase_spec m key Hwf) as (r & m2 & Her & Hwf' & _ & _ & Hcase).
    rewrite Her. intros [= <-]. simpl. split; [done|]. intros k.
    destruct Hcase as [(_ & -> & Hnot)|(_ & _ & (v & Hperm) & _)].
    + destruct (decide (k = key)) as [->|Hne]; [by apply find_value_None | done].
    + destruct (decide (k = key)) as [->|Hne].
      * apply find_value_None. pose proof (wf_keys m Hwf) as Hnd.
        rewrite Hperm in Hnd. simpl in Hnd. by apply NoDup_cons in Hnd as [? _].
      * symmetry. by apply (added_lookup _ _ key k v); [apply (wf_keys m Hwf)| |].
  - intros ([v m2] & Hsub & [= <-])%bind_Ok_inv. simpl.
    destruct (subscript_spec _ _ _ _ Hwf Hsub) as (Hwf' & _ & _ & Hcase).
    split; [done|]. intros k.
    destruct Hcase as [(Hf & ->)|(Hfresh & -> & Hperm & _)].
    + destruct (decide (k = key)) as [->|Hne]; [by rewrite Hf | done].
    + destruct (decide (k = key)) as [->|Hne].
      * apply find_value_None in Hfresh. rewrite Hfresh.
        rewrite (find_value_perm key _ _ (wf_keys m2 Hwf') Hperm). simpl.
        by rewrite decide_True.
      * by apply (added_lookup _ _ key k inhabitant); [apply (wf_keys m2 Hwf')| |].
  - rewrite (clear_spec m Hwf). intros [= <-]. split.
    + apply wf_empty. apply (wf_capacity m Hwf).
    + intros k. unfold entries. simpl. by rewrite concat_replicate_nil.
Qed.

(** X12. A table behaves as a partial function from keys to values: when
    the lookups of a well-formed table are those of [f], then after any
    sequence of [insert], [erase], [operator[]] and [clear] calls that returns
    they are those of [f] after the same calls, where [insert] adds only an
    absent key, [erase] removes its key, [operator[]] adds an absent key with
    the default value and [clear] removes every key. *)
Theorem run_refines_model (calls : list (operation K V)) m f m' :
  wf m → (∀ k, at_ m k = lookup_result (f k)) → run m calls = Ok m' →
  ∀ k, at_ m' k = lookup_result (model_run f calls k)
       ∧ containsKey m' k = Ok (bool_decide (is_Some (model_run f calls k))).
Proof.
  revert m f. induction calls as [|o calls IH]; intros m f Hwf Hf; simpl.
  - intros [= <-] k. split; [done|].
    rewrite (containsKey_spec m k Hwf). f_equal. apply bool_decide_ext.
    specialize (Hf k). rewrite (at_spec m k Hwf) in Hf.
    apply lookup_result_inj in Hf. rewrite <- Hf.
    pose proof (find_value_None (V := V) k (entries m)) as Hnone.
    rewrite <- not_eq_None_Some, Hnone. split; [auto | apply dec_stable].
  - intros (m1 & Hm1 & Hrun)%bind_Ok_inv.
    destruct (apply_operation_contents m o m1 Hwf Hm1) as (Hwf1 & Hstep).
    apply (IH m1 (model_step f o) Hwf1); [|done].
    intros k. rewrite (at_spec m1 k Hwf1), Hstep. f_equal.
    apply model_step_ext. intros k'. apply lookup_result_inj.
    by rewrite <- Hf, (at_spec m k' Hwf).
Qed.

(** X13. [erase] after an [insert] that added the key takes the key out
    again: it returns true and leaves the size, the pairs (up to their order)
    and so every lookup as they were before the [insert]. *)
Theorem insert_then_erase m key value m1 :
  wf m → insert m key value = Ok (true, m1) →
  ∃ m2, erase m1 key = Ok (true, m2)
        ∧ _size m2 = _size m
        ∧ concat (_table m2) ≡ₚ concat (_table m)
        ∧ ∀ k, at_ m2 k = at_ m k ∧ containsKey m2 k = containsKey m k.
Proof.
  intros Hwf Hins.
  destruct (insert_true _ _ _ _ Hwf Hins) as (Hwf1 & Hfresh & Hperm1 & Hs1 & _).
  destruct (erase_spec m1 key Hwf1) as (r & m2 & Her & Hwf2 & _ & _ & Hcase).
  destruct Hcase as [(_ & _ & Hnot)|(-> & Hs2 & (v & Hperm2) & _)].
  { exfalso. apply Hnot. rewrite Hperm1. simpl. apply elem_of_cons. by left. }
  assert (v = value) as ->.
  { assert (Hv : find_value key (entries m1) = Some v).
    { apply find_value_unique; [apply (wf_keys m1 Hwf1)|].
      rewrite Hperm2. apply elem_of_cons. by left. }
    assert (Hvalue : find_value key (entries m1) = Some value).
    { apply find_value_unique; [apply (wf_keys m1 Hwf1)|].
      rewrite Hperm1. apply elem_of_cons. by left. }
    congruence. }
  assert (Hperm : entries m2 ≡ₚ entries m).
  { apply (Permutation_cons_inv (a := (key, value))). by rewrite <- Hperm2, Hperm1. }
  exists m2. split_and!; [done | lia | done |].
  intros k. apply same_entries_lookup; [done | done |].
  apply find_value_perm; [apply (wf_keys m2 Hwf2) | done].
Qed.

(** X14. After [operator[]] has returned a value for a key, the key is in
    the table with that value.  Was the key there before, the table is as it
    was; was it not, the value is [ValueT()] and the size is one more. *)
Theorem subscript_behaviour m key (v : V) m' :
  wf m → subscript m key = Ok (v, m') →
  at_ m' key = Ok v ∧ containsKey m' key = Ok true
  ∧ (containsKey m key = Ok true → m' = m ∧ at_ m key = Ok v)
  ∧ (containsKey m key = Ok false → v = inhabitant ∧ _size m' = _size m + 1).
Proof.
  intros Hwf Hsub.
  destruct (subscript_spec _ _ _ _ Hwf Hsub) as (Hwf' & _ & _ & Hcase).
  rewrite !containsKey_spec, !at_spec by done.
  destruct Hcase as [(Hf & ->)|(Hfresh & -> & Hperm & Hs & _)].
  - assert (Hin : key ∈ (entries m).*1).
    { apply dec_stable. intros Hnot. apply find_value_None in Hnot. congruence. }
    rewrite Hf, bool_decide_eq_true_2 by done. split_and!; [done | done | done |].
    intros [=].
  - assert (Hf' : find_value key (entries m') = Some inhabitant).
    { rewrite (find_value_perm key _ _ (wf_keys m' Hwf') Hperm). simpl.
      by rewrite decide_True. }
    assert (Hin : key ∈ (entries m').*1).
    { rewrite Hperm. simpl. apply elem_of_cons. by left. }
    rewrite Hf', bool_decide_eq_true_2, bool_decide_eq_false_2 by done.
    split_and!; [done | done | intros [=] | done].
Qed.
End Compositions.

(** ** Writes through the references of [at] and [operator[]] *)

Section Writes.
Context {K V : Type} `{!EqDecision K, !Hash K, !Inhabited V}.
Implicit Types (m : HashMap K V) (key : K) (value : V) (b : list (K * V)).

Lemma put_first_None key value b : key ∉ b.*1 → put_first key value b = None.
Proof.
  induction b as [|p b IH]; simpl; [done|].
  rewrite not_elem_of_cons. intros [Hne Hnot].
  rewrite decide_False by done. by rewrite IH.
Qed.

Lemma overwrite_absent key value b : key ∉ b.*1 → overwrite key value b = b.
Proof.
  induction b as [|p b IH]; simpl; [done|].
  rewrite not_elem_of_cons. intros [Hne Hnot].
  rewrite decide_False by done. by rewrite IH.
Qed.

(** In a bucket without a repeated key the first pair with the key is the
    only one. *)
Lemma put_first_overwrite key value b :
  NoDup b.*1 → key ∈ b.*1 → put_first key value b = Some (overwrite key value b).
Proof.
  induction b as [|p b IH]; simpl; intros Hnd Hin.
  - by apply elem_of_nil in Hin.
  - apply NoDup_cons in Hnd as [Hfresh Hnd].
    destruct (decide (p.1 = key)) as [Heq|Hne].
    + rewrite overwrite_absent; [done | by rewrite <- Heq].
    + apply elem_of_cons in Hin as [Heq|Hin]; [done|]. by rewrite IH.
Qed.

Lemma bucket_NoDup m (i : nat) b : wf m → _table m !! i = Some b → NoDup b.*1.
Proof.
  intros Hwf Hb. pose proof (wf_keys m Hwf) as Hnd. unfold entries in Hnd.
  rewrite (concat_lookup_split _ _ _ Hb), !fmap_app in Hnd.
  apply NoDup_app in Hnd as (_ & _ & Hnd). by apply NoDup_app in Hnd as (Hnd & _).
Qed.

Lemma at_assign_spec m key value :
  wf m →
  (key ∉ (entries m).*1 →
   at_assign m key value = Throw (out_of_range KEY_DOSENT_EXIST_ERROR))
  ∧ (key ∈ (entries m).*1 →
     ∃ m', at_assign m key value = Ok m' ∧ wf m'
           ∧ _size m' = _size m ∧ _capacity m' = _capacity m
           ∧ _upperLoadFactor m' = _upperLoadFactor m
           ∧ _lowerLoadFactor m' = _lowerLoadFactor m
           ∧ (entries m').*1 = (entries m).*1
           ∧ find_value key (entries m') = Some value
           ∧ ∀ k, k ≠ key → find_value k (entries m') = find_value k (entries m)).
Proof.
  intros Hwf. destruct (read_bucket m key Hwf) as (b & Hread & Hb & Hfind).
  assert (Hin : key ∈ b.*1 ↔ key ∈ (entries m).*1).
  { pose proof (find_value_None (V := V) key b) as H1.
    pose proof (find_value_None (V := V) key (entries m)) as H2.
    rewrite Hfind in H1. split; intros H; apply dec_stable; intros Hnot.
    - apply H2 in Hnot. by apply H1 in Hnot.
    - apply H1 in Hnot. by apply H2 in Hnot. }
  unfold at_assign. rewrite Hread, bind_Ok. split.
  - intros Hnot. rewrite put_first_None; [done | by rewrite Hin].
  - intros Hkey. apply Hin in Hkey as Hkeyb.
    rewrite (put_first_overwrite key value b (bucket_NoDup m _ b Hwf Hb) Hkeyb).
    destruct (with_bucket_overwrite m key value b Hwf Hb) as (Hwf' & Hkeys & Helem).
    eexists. split; [done|]. unfold with_bucket in *.
    split_and!; [done..| |].
    + apply find_value_unique; [apply (wf_keys _ Hwf')|]. apply Helem. by left.
    + intros k Hne. destruct (find_value k (entries m)) as [v|] eqn:Hf.
      * apply find_value_unique; [apply (wf_keys _ Hwf')|]. apply Helem. right.
        split; [done | by apply find_value_Some].
      * apply find_value_None. rewrite Hkeys. by apply find_value_None.
Qed.

(** X15. A write through the reference of the non-const [at]: for a key
    that is not in the table [at] throws [out_of_range] and nothing is
    written; for a key of the table the write returns, the key has the new
    value afterwards, the size and the capacity are as before and every other
    key finds what it found. *)
Theorem at_assign_behaviour m key value :
  wf m →
  (containsKey m key = Ok false →
   at_assign m key value = Throw (out_of_range KEY_DOSENT_EXIST_ERROR))
  ∧ (containsKey m key = Ok true →
     ∃ m', at_assign m key value = Ok m' ∧ wf m'
           ∧ _size m' = _size m ∧ _capacity m' = _capacity m
           ∧ at_ m' key = Ok value ∧ containsKey m' key = Ok true
           ∧ ∀ k, k ≠ key →
                  at_ m' k = at_ m k ∧ containsKey m' k = containsKey m k).
Proof.
  intros Hwf. destruct (at_assign_spec m key value Hwf) as [Habsent Hpresent].
  rewrite (containsKey_spec m key Hwf). split.
  - intros [= Hc]. apply Habsent. by apply bool_decide_eq_false in Hc.
  - intros [= Hc]. apply bool_decide_eq_true in Hc.
    destruct (Hpresent Hc) as (m' & Hat & Hwf' & Hs & Hcap & _ & _ & Hkeys & Hf & Hother).
    exists m'. split_and!; [done..| | |].
    + by rewrite (at_spec m' key Hwf'), Hf.
    + rewrite (containsKey_spec m' key Hwf'), Hkeys. by rewrite bool_decide_eq_true_2.
    + intros k Hne. by apply same_entries_lookup; [| |apply Hother].
Qed.

(** X16. The statement [m[key] = value], with which [createDatabaseMap]
    fills its table: when it returns, the key has that value, every other
    key finds what it found before, and the size is as before for a key that
    was in the table and one more for a key that was not. *)
Theorem subscript_assign_behaviour m key value m' :
  wf m → subscript_assign m key value = Ok m' →
  wf m'
  ∧ at_ m' key = Ok value ∧ containsKey m' key = Ok true
  ∧ (∀ k, k ≠ key → at_ m' k = at_ m k ∧ containsKey m' k = containsKey m k)
  ∧ ((containsKey m key = Ok true ∧ _size m' = _size m
      ∧ _capacity m' = _capacity m)
     ∨ (containsKey m key = Ok false ∧ _size m' = _size m + 1)).
Proof.
  intros Hwf ([v m1] & Hsub & Hat)%bind_Ok_inv. simpl in Hat.
  destruct (subscript_spec _ _ _ _ Hwf Hsub) as (Hwf1 & _ & _ & Hcase).
  destruct (at_assign_spec m1 key value Hwf1) as [Habsent Hpresent].
  assert (Hkey1 : key ∈ (entries m1).*1).
  { destruct Hcase as [(Hf & ->)|(_ & _ & Hperm & _)].
    - apply dec_stable. intros Hnot. apply find_value_None in Hnot. congruence.
    - rewrite Hperm. simpl. apply elem_of_cons. by left. }
  destruct (Hpresent Hkey1)
    as (m2 & Hat2 & Hwf2 & Hs & Hcap & _ & _ & Hkeys & Hf & Hother).
  rewrite Hat2 in Hat. injection Hat as <-.
  assert (Hfind1 : ∀ k, k ≠ key →
            find_value k (entries m1) = find_value k (entries m)).
  { intros k Hne. destruct Hcase as [(_ & ->)|(_ & _ & Hperm & _)]; [done|].
    by apply (added_lookup _ _ key k inhabitant); [apply (wf_keys m1 Hwf1)| |]. }
  split_and!; [done | | | |].
  - by rewrite (at_spec m2 key Hwf2), Hf.
  - rewrite (containsKey_spec m2 key Hwf2), Hkeys. by rewrite bool_decide_eq_true_2.
  - intros k Hne. apply same_entries_lookup; [done | done |].
    by rewrite Hother, Hfind1.
  - rewrite (containsKey_spec m key Hwf).
    destruct Hcase as [(Hfm & ->)|(Hfresh & _ & _ & Hs1 & _)].
    + left. rewrite bool_decide_eq_true_2; [done|].
      apply dec_stable. intros Hnot. apply find_value_None in Hnot. congruence.
    + right. rewrite bool_decide_eq_false_2 by done. split; [done | lia].
Qed.
End Writes.

(** ** Growth and failure *)

Section Growth.
Context {K V : Type} `{!EqDecision K, !Hash K, !Inhabited V}.
Implicit Types (m : HashMap K V) (key : K) (value : V).

Lemma long_check_throw (z : Z) e : long_check z = Throw e → e = undefined_behaviour.
Proof. unfold long_check. destruct (_ && _); [discriminate | by intros [= <-]]. Qed.

Lemma grow_throw (fuel : nat) (s c : Z) (u : Q) e :
  grow fuel s c u = Throw e → e = undefined_behaviour ∨ e = out_of_fuel.
Proof.
  revert c. induction fuel as [|fuel IH]; intros c; simpl.
  - destruct (Qgtb (load s c) u); [|discriminate]. intros [= <-]. by right.
  - destruct (Qgtb (load s c) u); [|discriminate].
    destruct (long_check (c * TABLE_FACTOR)) as [c2|e2] eqn:Hcheck; simpl.
    + apply IH.
    + intros [= <-]. left. by apply long_check_throw in Hcheck.
Qed.

Lemma keepUpper_throw m e :
  wf m → _keepUpperLoadFactor m = Throw e → e = undefined_behaviour.
Proof.
  intros Hwf Hthrow. pose proof (keepUpper_fuel_enough m Hwf) as Hfuel.
  pose proof (wf_capacity m Hwf) as Hc. unfold _keepUpperLoadFactor in *.
  destruct (Qgtb (getLoadFactor m) (_upperLoadFactor m)); [|discriminate].
  destruct (grow grow_fuel (_size m) (_capacity m) (_upperLoadFactor m))
    as [c|e2] eqn:Hgrow; cbn [bind] in *.
  - apply grow_inv in Hgrow as (j & -> & Hmax & _); [|done].
    destruct (reHash_spec m (_capacity m * 2 ^ Z.of_nat j)) as (m2 & Hre & _);
      [done | | congruence].
    split; [|done].
    assert (1 ≤ 2 ^ Z.of_nat j) by (apply (Z.pow_le_mono_r 2 0); lia). nia.
  - injection Hthrow as <-. apply grow_throw in Hgrow as [->| ->]; done.
Qed.


Lemma subscript_throw m key e :
  wf m → subscript m key = Throw e → e = undefined_behaviour.
Proof.
  intros Hwf Hthrow. pose proof (subscript_fuel_enough m key Hwf) as Hfuel.
  destruct (read_bucket m key Hwf) as (b & Hread & Hb & Hfind).
  rewrite subscript_unfold, Hread, bind_Ok in Hthrow, Hfuel.
  destruct (find_value key b) eqn:Hf; [discriminate|].
  assert (Hfresh : key ∉ (entries m).*1) by (apply find_value_None; congruence).
  destruct (long_check (_size m + 1)) as [s|e2] eqn:Hcheck; simpl in *.
  - apply long_check_inv in Hcheck as [-> [_ Hmax]].
    destruct (with_bucket_push m key inhabitant b Hwf Hfresh Hmax Hb) as [Hwf1 _].
    destruct (_keepUpperLoadFactor _) as [m2|e2] eqn:Hkeep; simpl in *.
    + apply keepUpper_spec in Hkeep as (Hwf2 & _); [|done].
      destruct (read_bucket m2 key Hwf2) as (b2 & Hread2 & _).
      rewrite Hread2, bind_Ok in Hthrow, Hfuel.
      destruct (find_value key b2); [discriminate | done].
    + injection Hthrow as <-. by apply keepUpper_throw in Hkeep.
  - injection Hthrow as <-. by apply long_check_throw in Hcheck.
Qed.

(** X17. A table that calls have reached from a constructor with bounds
    [2 * lower <= upper] and [1/2 <= upper] (the default bounds are such)
    grows by one doubling at most in an [insert]: the capacity stays when the
    new pair fits under the upper bound, and is doubled once when it does
    not. *)
Theorem insert_doubles_at_most_once (calls : list (operation K V)) m0 m key value
    (r : bool) m' :
  constructed m0 → run m0 calls = Ok m →
  (2 * _lowerLoadFactor m0 <= _upperLoadFactor m0)%Q →
  (1 # 2 <= _upperLoadFactor m0)%Q →
  insert m key value = Ok (r, m') →
  (r = false ∧ m' = m)
  ∨ (r = true ∧ _capacity m' = _capacity m
     ∧ (load (_size m + 1) (_capacity m) <= _upperLoadFactor m)%Q)
  ∨ (r = true ∧ _capacity m' = 2 * _capacity m
     ∧ (_upperLoadFactor m < load (_size m + 1) (_capacity m))%Q).
Proof.
  intros Hcons Hrun Hgap Hhalf Hins.
  pose proof (constructed_inv m0 Hcons) as Hinv0.
  pose proof (run_inv calls m0 m Hinv0 Hrun) as Hinv.
  destruct (run_bounds calls m0 m Hinv0 Hrun) as [Hu Hl].
  pose proof (inv_wf m Hinv) as Hwf. pose proof (wf_capacity m Hwf) as Hc.
  assert (Hload : (getLoadFactor m <= _upperLoadFactor m)%Q).
  { apply (inv_upper m Hinv). by rewrite Hu, Hl. }
  assert (Hs : 0 ≤ _size m) by (rewrite (wf_size m Hwf); lia).
  destruct r.
  - destruct (insert_true _ _ _ _ Hwf Hins)
      as (_ & _ & _ & Hs' & Hu' & _ & Hload' & j & Hcap & Hmin).
    right. destruct j as [|[|j]].
    + left. rewrite Z.pow_0_r, Z.mul_1_r in Hcap. split_and!; [done | done |].
      unfold getLoadFactor in Hload'. by rewrite Hs', Hu', Hcap in Hload'.
    + right. split_and!; [done | rewrite Hcap; simpl; lia |].
      specialize (Hmin 0%nat ltac:(lia)). simpl in Hmin.
      by rewrite Z.mul_1_r in Hmin.
    + exfalso. specialize (Hmin 1%nat ltac:(lia)).
      change (2 ^ Z.of_nat 1) with 2 in Hmin.
      apply (Qlt_not_le _ _ Hmin). apply load_next_doubled; [done | lia | | done].
      by rewrite Hu.
  - left. apply insert_inv in Hins as [(_ & -> & _)|(? & _)]; done.
Qed.


(** X19. Every table that calls reach from a constructor is well formed:
    it has [_capacity] buckets, [_size] counts its pairs, no key is in it
    twice, every pair is in the bucket its key hashes to, and the traversal
    from [begin()] to [end()] returns exactly these pairs. *)
Theorem reachable_tables_well_formed (calls : list (operation K V)) m0 m :
  constructed m0 → run m0 calls = Ok m →
  Z.of_nat (length (_table m)) = _capacity m
  ∧ _size m = Z.of_nat (length (concat (_table m)))
  ∧ NoDup (concat (_table m)).*1
  ∧ (∀ (j : nat) b p, _table m !! j = Some b → p ∈ b →
       _getIndex p.1 (_capacity m) = Z.of_nat j)
  ∧ iterate m = Ok (concat (_table m)).
Proof.
  intros Hcons Hrun.
  pose proof (run_inv calls m0 m (constructed_inv m0 Hcons) Hrun) as Hinv.
  pose proof (inv_wf m Hinv) as Hwf.
  split_and!.
  - apply (wf_length m Hwf).
  - apply (wf_size m Hwf).
  - apply (wf_keys m Hwf).
  - apply (wf_placed m Hwf).
  - apply iterate_spec. by apply wf_shape.
Qed.
End Growth.

(** ** Lower case *)

Section LowerCase.
Implicit Types (str : list Z) (c : Z).

Lemma tolower_idemp c : tolower (tolower c) = tolower c.
Proof.
  unfold tolower. destruct ((65 <=? c) && (c <=? 90)) eqn:Hup; [|by rewrite Hup].
  apply andb_true_iff in Hup as [?%Z.leb_le ?%Z.leb_le].
  destruct ((65 <=? c + 32) && (c + 32 <=? 90)) eqn:Hup'; [|done].
  apply andb_true_iff in Hup' as [?%Z.leb_le ?%Z.leb_le]. lia.
Qed.

Lemma tolower_range c : ¬ (65 ≤ tolower c ≤ 90) ∧ (0 ≤ c < 256 → 0 ≤ tolower c < 256).
Proof.
  unfold tolower. destruct ((65 <=? c) && (c <=? 90)) eqn:Hup.
  - apply andb_true_iff in Hup as [?%Z.leb_le ?%Z.leb_le]. lia.
  - apply andb_false_iff in Hup as [?%Z.leb_gt | ?%Z.leb_gt]; lia.
Qed.

(** X20. [makeStringLowerCase] keeps the length of the string and every
    byte that is not one of the letters A to Z; its result has none of these
    letters, and the function changes nothing when applied again. *)
Theorem makeStringLowerCase_behaviour str :
  length (makeStringLowerCase str) = length str
  ∧ makeStringLowerCase (makeStringLowerCase str) = makeStringLowerCase str
  ∧ Forall (λ c, ¬ (65 ≤ c ≤ 90)) (makeStringLowerCase str)
  ∧ (Forall (λ c, 0 ≤ c < 256) str →
     Forall (λ c, 0 ≤ c < 256) (makeStringLowerCase str))
  ∧ (∀ (i : nat) c, str !! i = Some c →
       makeStringLowerCase str !! i
       = Some (if bool_decide (65 ≤ c ≤ 90) then c + 32 else c)).
Proof.
  unfold makeStringLowerCase. split_and!.
  - apply length_fmap.
  - rewrite <- list_fmap_compose. apply list_fmap_ext. intros _ c _. simpl.
    apply tolower_idemp.
  - apply Forall_fmap, Forall_true. intros c. apply tolower_range.
  - intros Hbytes. apply Forall_fmap. eapply Forall_impl; [done|].
    intros c. apply tolower_range.
  - intros i c Hi. rewrite list_lookup_fmap, Hi. simpl. f_equal. unfold tolower.
    destruct ((65 <=? c) && (c <=? 90)) eqn:Hup.
    + apply andb_true_iff in Hup as [?%Z.leb_le ?%Z.leb_le].
      by rewrite bool_decide_eq_true_2.
    + rewrite bool_decide_eq_false_2; [done|].
      apply andb_false_iff in Hup as [?%Z.leb_gt | ?%Z.leb_gt]; lia.
Qed.
End LowerCase.

(** ** The lines of a database file *)

Section Lines.
Implicit Types (r s : regex) (str line : list Z) (c : Z).

Lemma nullable_spec r : nullable r = true ↔ matches r [].
Proof.
  split.
  - induction r as [| |p|r1 IH1 r2 IH2|r1 IH1 r2 IH2|r IH]; simpl; try discriminate.
    + constructor.
    + intros [H1 H2]%andb_true_iff. apply (matches_seq r1 r2 [] []); auto.
    + intros [H1|H2]%orb_true_iff; [apply matches_alt_l | apply matches_alt_r]; auto.
    + constructor.
  - intros H. remember (@nil Z) as w eqn:Hw.
    induction H as [|p c Hp|r1 r2 u v H1 IH1 H2 IH2|r1 r2 u H1 IH1|r1 r2 u H2 IH2
                   |r|r u v H1 IH1 H2 IH2]; simpl; try done.
    + apply app_eq_nil in Hw as [-> ->]. by rewrite IH1, IH2.
    + by rewrite IH1.
    + rewrite IH2 by done. apply orb_true_r.
Qed.

Lemma derive_sound c r str : matches (derive c r) str → matches r (c :: str).
Proof.
  revert str. induction r as [| |p|r1 IH1 r2 IH2|r1 IH1 r2 IH2|r IH];
    intros str; simpl.
  - inversion 1.
  - inversion 1.
  - destruct (p c) eqn:Hp; inversion 1; subst. by constructor.
  - assert (Hleft : matches (re_seq (derive c r1) r2) str → matches (re_seq r1 r2) (c :: str)).
    { inversion 1 as [| |? ? u v Hu Hv| | | |]; subst.
      apply (matches_seq r1 r2 (c :: u) v); auto. }
    destruct (nullable r1) eqn:Hnull; [|done].
    inversion 1 as [| | |? ? ? Hl|? ? ? Hr| |]; subst; [auto|].
    apply (matches_seq r1 r2 [] (c :: str)); [by apply nullable_spec | auto].
  - inversion 1; subst; [apply matches_alt_l | apply matches_alt_r]; auto.
  - inversion 1 as [| |? ? u v Hu Hv| | | |]; subst.
    apply (matches_star_cons r (c :: u) v); auto.
Qed.

Lemma derive_complete c r str : matches r (c :: str) → matches (derive c r) str.
Proof.
  intros H. remember (c :: str) as w eqn:Hw. revert str Hw.
  induction H as [|p c' Hp|r1 r2 u v H1 IH1 H2 IH2|r1 r2 u H1 IH1|r1 r2 u H2 IH2
                 |r|r u v H1 IH1 H2 IH2]; intros str Hw; simpl; try done.
  - injection Hw as -> <-. rewrite Hp. constructor.
  - destruct u as [|c' u]; simpl in Hw.
    + subst v. apply nullable_spec in H1. rewrite H1.
      apply matches_alt_r. by apply IH2.
    + injection Hw as -> <-.
      assert (Hleft : matches (re_seq (derive c r1) r2) (u ++ v))
        by (apply matches_seq; [by apply IH1 | done]).
      destruct (nullable r1); [by apply matches_alt_l | done].
  - apply matches_alt_l. by apply IH1.
  - apply matches_alt_r. by apply IH2.
  - destruct u as [|c' u]; simpl in Hw.
    + subst v. by apply IH2.
    + injection Hw as -> <-. apply matches_seq; [by apply IH1 | done].
Qed.

Lemma regex_match_spec str r : regex_match str r = true ↔ matches r str.
Proof.
  unfold regex_match. revert r. induction str as [|c str IH]; intros r; simpl.
  - apply nullable_spec.
  - rewrite IH. split; [apply derive_sound | apply derive_complete].
Qed.

Lemma matches_seq_inv r s str :
  matches (re_seq r s) str ↔ ∃ u v, str = u ++ v ∧ matches r u ∧ matches s v.
Proof.
  split.
  - inversion 1; subst. eauto.
  - intros (u & v & -> & Hu & Hv). by constructor.
Qed.

Lemma matches_class_inv p str :
  matches (re_class p) str ↔ ∃ c, str = [c] ∧ p c = true.
Proof.
  split.
  - inversion 1; subst. eauto.
  - intros (c & -> & Hp). by constructor.
Qed.

Lemma matches_star_class p str :
  matches (re_star (re_class p)) str ↔ Forall (λ c, p c = true) str.
Proof.
  split.
  - intros H. remember (re_star (re_class p)) as r eqn:Hr.
    induction H as [| | | | | |r u v H1 _ H2 IH2]; try done.
    injection Hr as ->. apply matches_class_inv in H1 as (c & -> & Hp).
    constructor; auto.
  - induction 1 as [|c str Hp _ IH]; [constructor|].
    apply (matches_star_cons _ [c] str); [by constructor | done].
Qed.

Lemma matches_plus_class p str :
  matches (re_plus (re_class p)) str ↔ str ≠ [] ∧ Forall (λ c, p c = true) str.
Proof.
  unfold re_plus. rewrite matches_seq_inv. split.
  - intros (u & v & -> & (c & -> & Hp)%matches_class_inv & Hv%matches_star_class).
    split; [done | by constructor].
  - intros [Hne Hall]. destruct Hall as [|c str Hp Hall]; [done|].
    exists [c], str. split; [done|]. split; [by constructor|].
    by apply matches_star_class.
Qed.

Lemma matches_opt_class p str :
  matches (re_opt (re_class p)) str ↔ str = [] ∨ ∃ c, str = [c] ∧ p c = true.
Proof.
  unfold re_opt. split.
  - inversion 1 as [| | |? ? ? Hl|? ? ? Hr| |]; subst.
    + right. by apply matches_class_inv.
    + left. by inversion Hr.
  - intros [->|Hc]; [apply matches_alt_r; constructor|].
    apply matches_alt_l. by apply matches_class_inv.
Qed.

Lemma isdigit_spec c : isdigit c = true ↔ 48 ≤ c ≤ 57.
Proof. unfold isdigit. rewrite andb_true_iff, !Z.leb_le. done. Qed.

(** The lines that [VALID_LINE] accepts. *)
Lemma VALID_LINE_spec line :
  regex_match line VALID_LINE = true ↔
  ∃ sequence digits tail,
    line = sequence ++ COMMA :: digits ++ tail
    ∧ sequence ≠ [] ∧ Forall (λ c, c ≠ COMMA) sequence
    ∧ digits ≠ [] ∧ Forall (λ c, 48 ≤ c ≤ 57) digits
    ∧ (tail = [] ∨ tail = [10] ∨ tail = [13]).
Proof.
  rewrite regex_match_spec. unfold VALID_LINE. rewrite matches_seq_inv. split.
  - intros (sequence & v & -> & [Hne Hseq]%matches_plus_class & Hv).
    apply matches_seq_inv in Hv as (u & v2 & -> & (c & -> & Hc)%matches_class_inv & Hv).
    apply matches_seq_inv in Hv
      as (digits & tail & -> & [Hdne Hdigits]%matches_plus_class & Htail%matches_opt_class).
    apply Z.eqb_eq in Hc as ->.
    exists sequence, digits, tail. split_and!; [done | done | | done | |].
    + eapply Forall_impl; [done|]. intros c Hc ->. by rewrite Z.eqb_refl in Hc.
    + eapply Forall_impl; [done|]. intros c. apply isdigit_spec.
    + destruct Htail as [->|(c & -> & Hc)]; [by left|]. right.
      apply orb_true_iff in Hc as [->%Z.eqb_eq| ->%Z.eqb_eq]; auto.
  - intros (sequence & digits & tail & -> & Hne & Hseq & Hdne & Hdigits & Htail).
    exists sequence, (COMMA :: digits ++ tail). split; [done|]. split.
    + apply matches_plus_class. split; [done|]. eapply Forall_impl; [done|].
      intros c Hc. simpl in Hc. apply negb_true_iff. by apply Z.eqb_neq.
    + apply matches_seq_inv. exists [COMMA], (digits ++ tail). split; [done|]. split.
      { by constructor. }
      apply matches_seq_inv. exists digits, tail. split; [done|]. split.
      * apply matches_plus_class. split; [done|]. eapply Forall_impl; [done|].
        intros c. apply isdigit_spec.
      * apply matches_opt_class. destruct Htail as [->|[->| ->]]; [by left|..];
          right; eexists; split; done.
Qed.
End Lines.

(** ** [createDatabaseMap] *)

Section Assignment.
Context {K V : Type} `{!EqDecision K, !Hash K, !Inhabited V}.
Implicit Types (m : HashMap K V) (key : K) (value : V).

(** [m[key] = value] returns while the table has room. *)
Lemma subscript_assign_spec m key value :
  wf m → (0 <= _upperLoadFactor m)%Q →
  (inject_Z (_size m + 1) <= _upperLoadFactor m * inject_Z (2 ^ 62))%Q →
  _size m + 1 ≤ LONG_MAX →
  ∃ m', subscript_assign m key value = Ok m' ∧ wf m'
        ∧ _upperLoadFactor m' = _upperLoadFactor m
        ∧ _size m ≤ _size m' ≤ _size m + 1
        ∧ ∀ k, find_value k (entries m')
               = if decide (k = key) then Some value else find_value k (entries m).
Proof.
  intros Hwf Hu Hfit Hmax.
  destruct (subscript_total m key Hwf Hu Hfit Hmax) as (v & m1 & Hsub).
  destruct (subscript_spec _ _ _ _ Hwf Hsub) as (Hwf1 & Hu1 & _ & Hcase).
  destruct (at_assign_spec m1 key value Hwf1) as [_ Hpresent].
  assert (Hkey1 : key ∈ (entries m1).*1).
  { destruct Hcase as [(Hf & ->)|(_ & _ & Hperm & _)].
    - apply dec_stable. intros Hnot. apply find_value_None in Hnot. congruence.
    - rewrite Hperm. simpl. apply elem_of_cons. by left. }
  destruct (Hpresent Hkey1)
    as (m2 & Hat2 & Hwf2 & Hs & _ & Hu2 & _ & _ & Hf & Hother).
  exists m2. unfold subscript_assign. rewrite Hsub, bind_Ok. simpl.
  split_and!; [done | done | congruence | | |].
  - destruct Hcase as [(_ & ->)|(_ & _ & _ & Hs1 & _)]; lia.
  - destruct Hcase as [(_ & ->)|(_ & _ & _ & Hs1 & _)]; lia.
  - intros k. destruct (decide (k = key)) as [->|Hne]; [done|].
    rewrite (Hother k Hne).
    destruct Hcase as [(_ & ->)|(_ & _ & Hperm & _)]; [done|].
    by apply (added_lookup _ _ key k inhabitant); [apply (wf_keys m1 Hwf1)| |].
Qed.

(** [m[key] = value] keeps the table well formed, and fails by overflow
    only. *)
Lemma subscript_assign_cases m key value :
  wf m →
  match subscript_assign m key value with
  | Ok m' => wf m'
  | Throw e => e = undefined_behaviour
  end.
Proof.
  intros Hwf. unfold subscript_assign.
  destruct (subscript m key) as [[v m1]|e] eqn:Hsub; cbn [bind snd].
  - destruct (subscript_spec _ _ _ _ Hwf Hsub) as (Hwf1 & _ & _ & Hcase).
    destruct (at_assign_spec m1 key value Hwf1) as [_ Hpresent].
    assert (Hkey1 : key ∈ (entries m1).*1).
    { destruct Hcase as [(Hf & ->)|(_ & _ & Hperm & _)].
      - apply dec_stable. intros Hnot. apply find_value_None in Hnot. congruence.
      - rewrite Hperm. simpl. apply elem_of_cons. by left. }
    destruct (Hpresent Hkey1) as (m2 & -> & Hwf2 & _). done.
  - by eapply subscript_throw.
Qed.
End Assignment.

Section Database.
Context `{!Hash (list Z)}.
#[local] Existing Instance int_default.
Implicit Types (m : HashMap (list Z) Z) (w : gset nat) (f : ifstream)
  (line sequence digits tail : list Z) (rows : list row).

Lemma find_from_app (c : Z) (u v : list Z) (i : Z) :
  Forall (λ x, x ≠ c) u → find_from c (u ++ c :: v) i = i + Z.of_nat (length u).
Proof.
  intros Hu. revert i.
  induction Hu as [|x u Hx _ IH]; intros i; cbn [app find_from length].
  - rewrite decide_True by done. lia.
  - rewrite decide_False by done. rewrite IH. lia.
Qed.

Lemma take_line_line (l rest : list Z) :
  Forall (λ c, c ≠ 10) l → take_line (l ++ 10 :: rest) = (l, Some rest).
Proof.
  induction 1 as [|x l Hx _ IH]; cbn [app take_line].
  - by rewrite decide_True.
  - rewrite decide_False by done. by rewrite IH.
Qed.

Lemma take_line_end (l : list Z) :
  Forall (λ c, c ≠ 10) l → take_line l = (l, None).
Proof.
  induction 1 as [|x l Hx _ IH]; cbn [take_line]; [done|].
  rewrite decide_False by done. by rewrite IH.
Qed.

Lemma decimal_value_le (acc : Z) digits :
  0 ≤ acc → Forall (λ c, 48 ≤ c ≤ 57) digits → acc ≤ decimal_value acc digits.
Proof.
  intros Hacc Hd. revert acc Hacc. induction Hd as [|c digits Hc _ IH]; intros acc Hacc.
  - done.
  - simpl. etrans; [|apply IH]; lia.
Qed.

Lemma take_while_digits digits tail :
  Forall (λ c, 48 ≤ c ≤ 57) digits → tail = [] ∨ tail = [10] ∨ tail = [13] →
  take_while isdigit (digits ++ tail) = digits.
Proof.
  intros Hd Htail. induction Hd as [|c digits Hc _ IH]; simpl.
  - by destruct Htail as [->|[->| ->]].
  - apply isdigit_spec in Hc. by rewrite Hc, IH.
Qed.

(** [stoi] on the digits of a line: their value, which is not negative, or
    [out_of_range]. *)
Lemma stoi_digits digits tail :
  digits ≠ [] → Forall (λ c, 48 ≤ c ≤ 57) digits →
  tail = [] ∨ tail = [10] ∨ tail = [13] →
  0 ≤ decimal_value 0 digits
  ∧ stoi (digits ++ tail)
    = if decimal_value 0 digits <=? INT_MAX then Returns (decimal_value 0 digits)
      else Throws stoi_out_of_range.
Proof.
  intros Hne Hd Htail.
  pose proof (decimal_value_le 0 digits ltac:(done) Hd) as Hv. split; [done|].
  pose proof (take_while_digits digits tail Hd Htail) as Htake.
  destruct digits as [|d ds]; [done|].
  apply Forall_cons in Hd as [Hd0 _].
  assert (Hspace : isspace d = false).
  { unfold isspace. apply orb_false_iff. split; [apply Z.eqb_neq; lia|].
    apply andb_false_iff. right. apply Z.leb_gt. lia. }
  assert (H45 : (d =? 45) = false) by (apply Z.eqb_neq; lia).
  assert (H43 : (d =? 43) = false) by (apply Z.eqb_neq; lia).
  unfold stoi. cbn [app drop_while]. rewrite Hspace, H45, H43.
  change (d :: ds ++ tail) with ((d :: ds) ++ tail). rewrite Htake.
  assert (Hmin : (INT_MIN <=? decimal_value 0 (d :: ds)) = true)
    by (apply Z.leb_le; unfold INT_MIN; lia).
  by rewrite Hmin.
Qed.

(** The cuts of a line that [VALID_LINE] accepts. *)
Lemma cut_line sequence digits tail :
  Forall (λ c, c ≠ COMMA) sequence →
  Z.of_nat (length (sequence ++ COMMA :: digits ++ tail)) < 2 ^ 64 →
  string_find (sequence ++ COMMA :: digits ++ tail) COMMA = Z.of_nat (length sequence)
  ∧ substr (sequence ++ COMMA :: digits ++ tail) 0 (Z.of_nat (length sequence))
    = Returns sequence
  ∧ substr (sequence ++ COMMA :: digits ++ tail)
      (to_size_t (Z.of_nat (length sequence) + 1)) npos
    = Returns (digits ++ tail).
Proof.
  intros Hseq Hlen. rewrite length_app in Hlen. simpl in Hlen. split_and!.
  - unfold string_find. rewrite find_from_app by done. lia.
  - unfold substr. rewrite length_app. simpl length.
    destruct (Z.ltb_spec (Z.of_nat (length sequence + S (length (digits ++ tail)))) 0);
      [lia|].
    f_equal. rewrite Z.min_l by lia. rewrite Nat2Z.id.
    change (Z.to_nat 0) with 0%nat. by rewrite drop_0, take_app_length.
  - unfold substr, to_size_t, npos. rewrite length_app. simpl length.
    rewrite Z.mod_small by lia.
    destruct (Z.ltb_spec (Z.of_nat (length sequence + S (length (digits ++ tail))))
                (Z.of_nat (length sequence) + 1)); [lia|].
    f_equal. rewrite Z.min_r by lia.
    replace (Z.to_nat (Z.of_nat (length sequence) + 1)) with (S (length sequence)) by lia.
    replace (sequence ++ COMMA :: digits ++ tail)
      with ((sequence ++ [COMMA]) ++ digits ++ tail) by (by rewrite <- app_assoc).
    rewrite drop_app_length' by (rewrite length_app; simpl; lia).
    apply take_ge. lia.
Qed.

(** A round of the loop on a line that [VALID_LINE] accepts. *)
Lemma createDatabaseMap_loop_line (fuel : nat) f f' m w line sequence digits tail :
  good f = true →
  getline f line = (f', sequence ++ COMMA :: digits ++ tail) →
  sequence ≠ [] → Forall (λ c, c ≠ COMMA) sequence →
  digits ≠ [] → Forall (λ c, 48 ≤ c ≤ 57) digits →
  tail = [] ∨ tail = [10] ∨ tail = [13] →
  Z.of_nat (length (sequence ++ COMMA :: digits ++ tail)) < 2 ^ 64 →
  createDatabaseMap_loop (S fuel) f m w line
  = if decimal_value 0 digits <=? INT_MAX then
      let? m' := of_result (subscript_assign m (makeStringLowerCase sequence)
                              (decimal_value 0 digits)) in
      createDatabaseMap_loop fuel f' m' ({[length sequence]} ∪ w)
        (sequence ++ COMMA :: digits ++ tail)
    else Throws stoi_out_of_range.
Proof.
  intros Hgood Hget Hne Hseq Hdne Hd Htail Hlen.
  assert (Hmatch : regex_match (sequence ++ COMMA :: digits ++ tail) VALID_LINE = true).
  { apply VALID_LINE_spec. by exists sequence, digits, tail. }
  destruct (cut_line sequence digits tail Hseq Hlen) as (Hfind & Hsub1 & Hsub2).
  destruct (stoi_digits digits tail Hdne Hd Htail) as [Hv Hstoi].
  cbn [createDatabaseMap_loop]. rewrite Hgood, Hget, Hmatch. cbn [negb].
  rewrite Hfind, Hsub1. cbn [outcome_bind]. rewrite Hsub2. cbn [outcome_bind].
  rewrite Hstoi. destruct (decimal_value 0 digits <=? INT_MAX); [|done].
  cbn [outcome_bind]. destruct (Z.ltb_spec (decimal_value 0 digits) 0); [lia|].
  unfold makeStringLowerCase. by rewrite length_fmap.
Qed.

Lemma forallb_Forall (p : Z → bool) (l : list Z) :
  forallb p l = true → Forall (λ c, p c = true) l.
Proof.
  induction l as [|c l IH]; simpl; [constructor|].
  intros [Hc Hl]%andb_true_iff. constructor; auto.
Qed.

Lemma well_formed_row_spec (r : row) :
  well_formed_row r = true →
  row_sequence r ≠ [] ∧ Forall (λ c, c ≠ COMMA) (row_sequence r)
  ∧ row_digits r ≠ [] ∧ Forall (λ c, 48 ≤ c ≤ 57) (row_digits r)
  ∧ ((if row_cr r then [13] else []) = []
     ∨ (if row_cr r then [13] else []) = [10]
     ∨ (if row_cr r then [13] else []) = [13])
  ∧ Forall (λ c, c ≠ 10) (row_line r)
  ∧ row_line r ≠ [].
Proof.
  unfold well_formed_row. rewrite !andb_true_iff, !negb_true_iff, !bool_decide_eq_false.
  intros [[[Hne Hseq%forallb_Forall] Hdne] Hd%forallb_Forall].
  assert (Hdigits : Forall (λ c, 48 ≤ c ≤ 57) (row_digits r)).
  { eapply Forall_impl; [done|]. intros c. apply isdigit_spec. }
  split_and!; [done | | done | done | | |].
  - eapply Forall_impl; [done|]. simpl. intros c [Hc _]%andb_true_iff ->.
    by rewrite Z.eqb_refl in Hc.
  - destruct (row_cr r); auto.
  - unfold row_line. apply Forall_app. split; [|constructor; [done|apply Forall_app; split]].
    + eapply Forall_impl; [done|]. simpl. intros c [_ Hc]%andb_true_iff ->.
      by rewrite Z.eqb_refl in Hc.
    + eapply Forall_impl; [done|]. simpl. intros c Hc. lia.
    + destruct (row_cr r); [|constructor]. by constructor.
  - unfold row_line. by destruct (row_sequence r).
Qed.

(** A round of the loop on a line of the file that a line feed ends. *)
Lemma createDatabaseMap_loop_row (fuel : nat) (r : row) (rest : list Z) m w line :
  well_formed_row r = true → Z.of_nat (length (row_line r)) < 2 ^ 64 →
  createDatabaseMap_loop (S fuel) (opened (row_line r ++ 10 :: rest)) m w line
  = if row_score r <=? INT_MAX then
      let? m' := of_result (subscript_assign m (row_key r) (row_score r)) in
      createDatabaseMap_loop fuel (opened rest) m' ({[length (row_sequence r)]} ∪ w)
        (row_line r)
    else Throws stoi_out_of_range.
Proof.
  intros (Hne & Hseq & Hdne & Hd & Htail & Hline & _)%well_formed_row_spec Hlen.
  apply createDatabaseMap_loop_line; try done.
  unfold getline, opened. cbn [good eofbit failbit negb andb content].
  by rewrite take_line_line.
Qed.

(** A round of the loop on a last line that no line feed ends. *)
Lemma createDatabaseMap_loop_last_row (fuel : nat) (r : row) m w line :
  well_formed_row r = true → Z.of_nat (length (row_line r)) < 2 ^ 64 →
  createDatabaseMap_loop (S fuel) (opened (row_line r)) m w line
  = if row_score r <=? INT_MAX then
      let? m' := of_result (subscript_assign m (row_key r) (row_score r)) in
      Returns ({| content := []; eofbit := true; failbit := false |}, m',
               {[length (row_sequence r)]} ∪ w)
    else Throws stoi_out_of_range.
Proof.
  intros (Hne & Hseq & Hdne & Hd & Htail & Hline & Hnonempty)%well_formed_row_spec Hlen.
  rewrite (createDatabaseMap_loop_line fuel _
             {| content := []; eofbit := true; failbit := false |}
             m w line (row_sequence r) (row_digits r)
             (if row_cr r then [13] else [])); try done.
  - unfold row_score, row_key.
    destruct (decimal_value 0 (row_digits r) <=? INT_MAX); [|done].
    destruct (subscript_assign m _ _); [|done]. cbn [of_result outcome_bind].
    by destruct fuel.
  - unfold getline, opened. cbn [good eofbit failbit negb andb content].
    fold (row_line r). rewrite take_line_end by done.
    by rewrite bool_decide_eq_false_2.
Qed.

Lemma store_rows_ext (f g : list Z → option Z) rows :
  (∀ k, f k = g k) → ∀ k, store_rows f rows k = store_rows g rows k.
Proof.
  revert f g. induction rows as [|r rows IH]; intros f g Hfg k; simpl; [done|].
  apply IH. intros k'. unfold store_row. by rewrite Hfg.
Qed.

Lemma database_text_length rows : (length rows ≤ length (database_text rows))%nat.
Proof.
  induction rows as [|r rows IH]; [done|].
  unfold database_text in *. rewrite fmap_cons. cbn [concat].
  rewrite !length_app. simpl. lia.
Qed.

(** The rounds of the loop on the lines of a database. *)
Lemma createDatabaseMap_loop_rows rows (fuel : nat) (rest : list Z) m w line :
  forallb valid_row rows = true →
  Z.of_nat (length (database_text rows ++ rest)) < 2 ^ 64 →
  wf m → (0 <= _upperLoadFactor m)%Q →
  (inject_Z (_size m + Z.of_nat (length rows))
   <= _upperLoadFactor m * inject_Z (2 ^ 62))%Q →
  _size m + Z.of_nat (length rows) ≤ LONG_MAX →
  ∃ m' line',
    createDatabaseMap_loop (length rows + fuel)
      (opened (database_text rows ++ rest)) m w line
    = createDatabaseMap_loop fuel (opened rest) m'
        (list_to_set (length ∘ row_sequence <$> rows) ∪ w) line'
    ∧ wf m' ∧ _upperLoadFactor m' = _upperLoadFactor m
    ∧ _size m ≤ _size m' ≤ _size m + Z.of_nat (length rows)
    ∧ ∀ k, find_value k (entries m')
           = store_rows (λ k, find_value k (entries m)) rows k.
Proof.
  revert m w line. induction rows as [|r rows IH]; intros m w line Hrows Hlen Hwf Hu Hfit Hmax.
  - exists m, line. simpl. rewrite (left_id_L ∅ (∪)).
    split_and!; [done | done | done | lia | lia | done].
  - simpl in Hrows. apply andb_true_iff in Hrows as [Hr Hrows].
    apply andb_true_iff in Hr as [Hshape Hscore].
    assert (Htext : database_text (r :: rows) ++ rest
                    = row_line r ++ 10 :: (database_text rows ++ rest)).
    { unfold database_text. simpl. by rewrite <- !app_assoc. }
    rewrite Htext in *. rewrite length_app in Hlen. simpl in Hlen.
    simpl length in *. rewrite Nat2Z.inj_succ in Hfit, Hmax.
    assert (Hfit1 : (inject_Z (_size m + 1)
                     <= _upperLoadFactor m * inject_Z (2 ^ 62))%Q).
    { eapply Qle_trans; [|exact Hfit]. rewrite <- Zle_Qle. lia. }
    destruct (subscript_assign_spec m (row_key r) (row_score r) Hwf Hu Hfit1)
      as (m1 & Hm1 & Hwf1 & Hu1 & Hs1 & Hf1); [lia|].
    destruct (IH m1 ({[length (row_sequence r)]} ∪ w) (row_line r))
      as (m' & line' & Hloop & Hwf' & Hu' & Hs' & Hf'); [done | lia | done | | | |].
    { by rewrite Hu1. }
    { rewrite Hu1. eapply Qle_trans; [|exact Hfit]. rewrite <- Zle_Qle. lia. }
    { lia. }
    exists m', line'. split_and!; [| done | congruence | lia | lia |].
    + cbn [Nat.add]. rewrite createDatabaseMap_loop_row by (done || lia).
      rewrite Hscore, Hm1. cbn [of_result outcome_bind]. rewrite Hloop.
      f_equal. cbn [fmap list_fmap list_to_set compose]. by rewrite (assoc_L (∪)), (comm_L (∪) (list_to_set _)).
    + intros k. rewrite Hf'. simpl. apply store_rows_ext. intros k'.
      by rewrite Hf1.
Qed.

Lemma lookups_contents m (f : list Z → option Z) :
  wf m → (∀ k, at_ m k = lookup_result (f k)) →
  ∀ k, find_value k (entries m) = f k.
Proof.
  intros Hwf Hf k. apply lookup_result_inj. by rewrite <- Hf, (at_spec m k Hwf).
Qed.

(** X21. A database whose lines are all valid is loaded: [createDatabaseMap]
    returns at the end of the file, whether or not a line feed ends the last
    line; afterwards every sequence, in lower case, has the score of the last
    line that names it, every other key finds what it found before, and
    [wordsLen] has gained the lengths of the sequences. *)
Theorem createDatabaseMap_loads rows (last : option row) m w
    (f : list Z → option Z) :
  forallb valid_row (rows ++ option_list last) = true →
  Z.of_nat (length (database_text rows ++ from_option row_line [] last)) < 2 ^ 64 →
  wf m → (∀ k, at_ m k = lookup_result (f k)) →
  (0 <= _upperLoadFactor m)%Q →
  (inject_Z (_size m + Z.of_nat (length (rows ++ option_list last)))
   <= _upperLoadFactor m * inject_Z (2 ^ 62))%Q →
  _size m + Z.of_nat (length (rows ++ option_list last)) ≤ LONG_MAX →
  ∃ f' m',
    createDatabaseMap (opened (database_text rows ++ from_option row_line [] last)) m w
    = Returns (f', m',
               list_to_set (length ∘ row_sequence <$> rows ++ option_list last) ∪ w)
    ∧ eof f' = true ∧ content f' = []
    ∧ wf m'
    ∧ _size m ≤ _size m' ≤ _size m + Z.of_nat (length (rows ++ option_list last))
    ∧ ∀ k, at_ m' k = lookup_result (store_rows f (rows ++ option_list last) k).
Proof.
  intros Hvalid Hlen Hwf Hf Hu Hfit Hmax.
  rewrite forallb_app in Hvalid. apply andb_true_iff in Hvalid as [Hrows Hlast].
  rewrite length_app in Hfit, Hmax. rewrite Nat2Z.inj_add in Hfit, Hmax.
  assert (Hfit0 : (inject_Z (_size m + Z.of_nat (length rows))
                   <= _upperLoadFactor m * inject_Z (2 ^ 62))%Q).
  { eapply Qle_trans; [|exact Hfit]. rewrite <- Zle_Qle. lia. }
  pose proof (database_text_length rows) as Htext.
  set (rest := from_option row_line [] last) in *.
  assert (Hfuel : ∃ k : nat, S (length (database_text rows ++ rest))
                             = (length rows + S k)%nat).
  { exists (length (database_text rows ++ rest) - length rows)%nat.
    rewrite length_app. lia. }
  destruct Hfuel as [k Hfuel].
  destruct (createDatabaseMap_loop_rows rows (S k) rest m w [] Hrows Hlen Hwf Hu Hfit0)
    as (m1 & line1 & Hloop & Hwf1 & Hu1 & Hs1 & Hf1); [lia|].
  pose proof (lookups_contents m f Hwf Hf) as Hcontents.
  unfold createDatabaseMap. cbn [opened content]. rewrite Hfuel, Hloop.
  destruct last as [r|]; cbn [option_list from_option] in *; subst rest.
  - simpl in Hlast. rewrite andb_true_r in Hlast.
    apply andb_true_iff in Hlast as [Hshape Hscore].
    rewrite length_app in Hlen.
    assert (Hfit1 : (inject_Z (_size m1 + 1)
                     <= _upperLoadFactor m1 * inject_Z (2 ^ 62))%Q).
    { rewrite Hu1. eapply Qle_trans; [|exact Hfit]. rewrite <- Zle_Qle.
      simpl length. lia. }
    destruct (subscript_assign_spec m1 (row_key r) (row_score r) Hwf1)
      as (m2 & Hm2 & Hwf2 & Hu2 & Hs2 & Hf2);
      [by rewrite Hu1 | done | simpl length in Hmax; lia |].
    rewrite createDatabaseMap_loop_last_row by (done || lia).
    rewrite Hscore, Hm2. cbn [of_result outcome_bind fail_ eof failbit eofbit andb].
    exists {| content := []; eofbit := true; failbit := false |}, m2.
    split_and!; [| done | done | done | lia | rewrite length_app; simpl length; lia |].
    + f_equal. f_equal. rewrite fmap_app, list_to_set_app_L. simpl.
      rewrite (right_id_L ∅ (∪)).
      by rewrite (assoc_L (∪)), (comm_L (∪) {[_]}).
    + intros key. rewrite (at_spec m2 key Hwf2), Hf2. f_equal.
      unfold store_rows. rewrite foldl_app. simpl. unfold store_row at 1.
      destruct (decide (key = row_key r)); [done|].
      rewrite Hf1. by apply store_rows_ext.
  - rewrite app_nil_r in *.
    exists {| content := []; eofbit := true; failbit := true |}, m1.
    split_and!; [reflexivity | done | done | done | lia | lia |].
    intros key. rewrite (at_spec m1 key Hwf1), Hf1. f_equal.
    by apply store_rows_ext.
Qed.

Lemma take_line_None (str l : list Z) : take_line str = (l, None) → l = str.
Proof.
  revert l. induction str as [|c str IH]; intros l; cbn [take_line].
  - by intros [= <-].
  - destruct (decide (c = 10)); [discriminate|].
    destruct (take_line str) as [l' o]. intros [= <- ->]. f_equal. by apply IH.
Qed.

(** X22. A line that [VALID_LINE] does not accept ends the loading with
    [InvalidInput], after any number of valid lines: a line without a comma,
    without a sequence or without digits, with a sign before the digits, an
    empty line that is not the end of the file.  A file that could not be
    opened ends it with [InvalidInput] as well. *)
Theorem createDatabaseMap_rejects rows (rest : list Z) m w :
  forallb valid_row rows = true →
  Z.of_nat (length (database_text rows ++ rest)) < 2 ^ 64 →
  wf m → (0 <= _upperLoadFactor m)%Q →
  (inject_Z (_size m + Z.of_nat (length rows))
   <= _upperLoadFactor m * inject_Z (2 ^ 62))%Q →
  _size m + Z.of_nat (length rows) ≤ LONG_MAX →
  rest ≠ [] → regex_match (take_line rest).1 VALID_LINE = false →
  createDatabaseMap (opened (database_text rows ++ rest)) m w = Throws InvalidInput
  ∧ createDatabaseMap not_opened m w = Throws InvalidInput.
Proof.
  intros Hrows Hlen Hwf Hu Hfit Hmax Hrest Hnomatch. split; [|reflexivity].
  pose proof (database_text_length rows) as Htext.
  assert (Hfuel : ∃ k : nat, S (length (database_text rows ++ rest))
                             = (length rows + S k)%nat).
  { exists (length (database_text rows ++ rest) - length rows)%nat.
    rewrite length_app. lia. }
  destruct Hfuel as [k Hfuel].
  destruct (createDatabaseMap_loop_rows rows (S k) rest m w [] Hrows Hlen Hwf Hu Hfit Hmax)
    as (m1 & line1 & Hloop & _).
  unfold createDatabaseMap. cbn [opened content]. rewrite Hfuel, Hloop.
  cbn [createDatabaseMap_loop]. unfold getline.
  cbn [good opened eofbit failbit content negb andb].
  destruct (take_line rest) as [l [rest'|]] eqn:Hline; cbn [fst] in Hnomatch;
    rewrite Hnomatch; cbn [negb eof eofbit].
  - by rewrite andb_false_r.
  - apply take_line_None in Hline as ->. by rewrite bool_decide_eq_false_2.
Qed.

(** X23. A line that [VALID_LINE] accepts but whose score is above
    [INT_MAX] ends the loading with the [out_of_range] of [std::stoi], not
    with [InvalidInput]. *)
Theorem createDatabaseMap_score_overflow rows (r : row) (rest : list Z) m w :
  forallb valid_row rows = true →
  well_formed_row r = true → INT_MAX < row_score r →
  rest = [] ∨ (∃ rest', rest = 10 :: rest') →
  Z.of_nat (length (database_text rows ++ row_line r ++ rest)) < 2 ^ 64 →
  wf m → (0 <= _upperLoadFactor m)%Q →
  (inject_Z (_size m + Z.of_nat (length rows))
   <= _upperLoadFactor m * inject_Z (2 ^ 62))%Q →
  _size m + Z.of_nat (length rows) ≤ LONG_MAX →
  createDatabaseMap (opened (database_text rows ++ row_line r ++ rest)) m w
  = Throws stoi_out_of_range.
Proof.
  intros Hrows Hshape Hscore Hrest Hlen Hwf Hu Hfit Hmax.
  pose proof (database_text_length rows) as Htext.
  assert (Hfuel : ∃ k : nat, S (length (database_text rows ++ row_line r ++ rest))
                             = (length rows + S k)%nat).
  { exists (length (database_text rows ++ row_line r ++ rest) - length rows)%nat.
    rewrite length_app. lia. }
  destruct Hfuel as [k Hfuel].
  destruct (createDatabaseMap_loop_rows rows (S k) (row_line r ++ rest) m w []
              Hrows Hlen Hwf Hu Hfit Hmax) as (m1 & line1 & Hloop & _).
  unfold createDatabaseMap. cbn [opened content]. rewrite Hfuel, Hloop.
  rewrite !length_app in Hlen.
  assert (Hbig : (row_score r <=? INT_MAX) = false) by (apply Z.leb_gt; lia).
  destruct Hrest as [->|[rest' ->]].
  - rewrite app_nil_r, createDatabaseMap_loop_last_row by (done || lia).
    by rewrite Hbig.
  - rewrite createDatabaseMap_loop_row by (done || lia). by rewrite Hbig.
Qed.

(** X24. [VALID_LINE] accepts exactly the lines made of a sequence without a
    comma, a comma, digits and at most one line feed or carriage return
    after them.  On such a line the comma that [find] meets ends the
    sequence, both calls of [substr] return, and [std::stoi] either returns
    the value of the digits, which is not negative and at most [INT_MAX], or
    throws [out_of_range]: the test [score < 0] never holds. *)
Theorem VALID_LINE_behaviour line :
  Z.of_nat (length line) < 2 ^ 64 →
  (regex_match line VALID_LINE = true ↔
   ∃ sequence digits tail,
     line = sequence ++ COMMA :: digits ++ tail
     ∧ sequence ≠ [] ∧ Forall (λ c, c ≠ COMMA) sequence
     ∧ digits ≠ [] ∧ Forall (λ c, 48 ≤ c ≤ 57) digits
     ∧ (tail = [] ∨ tail = [10] ∨ tail = [13]))
  ∧ (regex_match line VALID_LINE = true →
     ∃ sequence number,
       substr line 0 (string_find line COMMA) = Returns sequence
       ∧ substr line (to_size_t (string_find line COMMA + 1)) npos = Returns number
       ∧ line = sequence ++ COMMA :: number
       ∧ (stoi number = Throws stoi_out_of_range
          ∨ ∃ score, stoi number = Returns score ∧ 0 ≤ score ≤ INT_MAX)).
Proof.
  intros Hlen. split; [apply VALID_LINE_spec|].
  intros (sequence & digits & tail & -> & Hne & Hseq & Hdne & Hd & Htail)%VALID_LINE_spec.
  destruct (cut_line sequence digits tail Hseq Hlen) as (Hfind & Hsub1 & Hsub2).
  destruct (stoi_digits digits tail Hdne Hd Htail) as [Hv Hstoi].
  exists sequence, (digits ++ tail). rewrite Hfind.
  split_and!; [done | done | done |]. rewrite Hstoi.
  destruct (Z.leb_spec (decimal_value 0 digits) INT_MAX); [right | by left].
  eexists. split; [done | lia].
Qed.

Lemma take_line_Some (str l rest : list Z) :
  take_line str = (l, Some rest) → str = l ++ 10 :: rest.
Proof.
  revert l. induction str as [|c str IH]; intros l; cbn [take_line]; [discriminate|].
  destruct (decide (c = 10)) as [->|Hne]; [by intros [= <- <-]|].
  destruct (take_line str) as [l' o]. intros [= <- ->]. simpl. f_equal. by apply IH.
Qed.

(** How the loop can end. *)
Lemma createDatabaseMap_loop_cases (fuel : nat) f m w line :
  wf m → (length (content f) < fuel)%nat →
  Z.of_nat (length (content f)) < 2 ^ 64 →
  match createDatabaseMap_loop fuel f m w line with
  | Returns (_, m', _) => wf m'
  | Throws e =>
      e = InvalidInput ∨ e = stoi_out_of_range
      ∨ e = HashMap_failure undefined_behaviour
  end.
Proof.
  revert f m w line. induction fuel as [|fuel IH]; intros f m w line Hwf Hfuel Hlen;
    [lia|].
  destruct (good f) eqn:Hgood; [|by cbn [createDatabaseMap_loop]; rewrite Hgood].
  destruct (getline f line) as [f' l] eqn:Hget.
  assert (Hnext : (length (content f') < length (content f) ∨ content f' = [])%nat
                  ∧ (length l ≤ length (content f))%nat).
  { unfold getline in Hget. rewrite Hgood in Hget.
    destruct (take_line (content f)) as [l0 [rest|]] eqn:Hline; injection Hget as <- <-.
    - apply take_line_Some in Hline. rewrite Hline, length_app. simpl. lia.
    - apply take_line_None in Hline as ->. simpl. auto. }
  destruct Hnext as [Hnext Hl].
  destruct (regex_match l VALID_LINE) eqn:Hmatch.
  - apply VALID_LINE_spec in Hmatch
      as (sequence & digits & tail & -> & Hne & Hseq & Hdne & Hd & Htail).
    rewrite (createDatabaseMap_loop_line fuel f f' m w line sequence digits tail)
      by (done || lia).
    destruct (decimal_value 0 digits <=? INT_MAX); [|auto].
    pose proof (subscript_assign_cases m (makeStringLowerCase sequence)
                  (decimal_value 0 digits) Hwf) as Hassign.
    destruct (subscript_assign m _ _) as [m'|e]; cbn [of_result outcome_bind].
    + apply IH; [done | | ].
      * rewrite length_app in Hl. simpl in Hl.
        destruct Hnext as [?| ->]; [lia | simpl; lia].
      * destruct Hnext as [?| ->]; [lia | simpl; lia].
    + subst e. auto.
  - cbn [createDatabaseMap_loop]. rewrite Hgood, Hget, Hmatch. cbn [negb].
    destruct (bool_decide (l = []) && eof f'); [done | auto].
Qed.

(** X25. However the file reads, [createDatabaseMap] comes to an end, and
    when it does not return it ends with [InvalidInput], with the
    [out_of_range] of [std::stoi], or with the overflow of the table: [find],
    [substr] and [at] never fail in it, and [std::stoi] never finds a line
    without digits. *)
Theorem createDatabaseMap_failures f m w e :
  wf m → Z.of_nat (length (content f)) < 2 ^ 64 →
  createDatabaseMap f m w = Throws e →
  e = InvalidInput ∨ e = stoi_out_of_range ∨ e = HashMap_failure undefined_behaviour.
Proof.
  intros Hwf Hlen. unfold createDatabaseMap.
  pose proof (createDatabaseMap_loop_cases (S (length (content f))) f m w [] Hwf
                ltac:(lia) Hlen) as Hcases.
  destruct (createDatabaseMap_loop _ f m w []) as [[[f' m'] w']|e']; cbn [outcome_bind].
  - destruct (fail_ f' && negb (eof f')); [|discriminate]. intros [= <-]. auto.
  - by intros [= <-].
Qed.
End Database.

(** * The properties at tables of integers *)

Module Examples.

Import Sample.

Lemma fresh_constructed : constructed fresh.
Proof. left. by exists (1 # 4), (3 # 4). Qed.

Lemma three_run : run fresh three_calls = Ok three.
Proof. reflexivity. Qed.

Lemma thirteen_run : run fresh thirteen_calls = Ok thirteen.
Proof. vm_compute. reflexivity. Qed.

Lemma shrunk_run : run fresh shrink_calls = Ok shrunk.
Proof. vm_compute. reflexivity. Qed.

Lemma three_wf : wf three.
Proof. exact (inv_wf _ (run_inv _ _ _ (constructed_inv _ fresh_constructed) three_run)). Qed.

Lemma thirteen_wf : wf thirteen.
Proof.
  exact (inv_wf _ (run_inv _ _ _ (constructed_inv _ fresh_constructed) thirteen_run)).
Qed.

(** C1 as stated fails: one [insert] into a default table leaves 16 buckets
    with a load of 1/16, below the lower bound 1/4. *)
Lemma load_factor_invariant_fails :
  ¬ (∀ (calls : list (operation Z Z)) (m0 m : HashMap Z Z),
       Forall insert_or_erase calls → constructed m0 → run m0 calls = Ok m →
       1 < _capacity m →
       (_lowerLoadFactor m <= getLoadFactor m)%Q
       ∧ (getLoadFactor m <= _upperLoadFactor m)%Q).
Proof.
  intros Hclaim.
  destruct (Hclaim [call_insert 1 10] fresh
              {| _capacity := 16; _size := 1; _upperLoadFactor := 3 # 4;
                 _lowerLoadFactor := 1 # 4;
                 _table := <[1%nat := [(1, 10)]]> (replicate 16 []) |})
    as [Hlower _].
  - by repeat constructor.
  - exact fresh_constructed.
  - reflexivity.
  - simpl. lia.
  - vm_compute in Hlower. by apply Hlower.
Qed.

(** Without a gap of a factor two between the bounds the upper bound fails
    too: with the bounds 1/2 and 3/5, eight inserts and one erase leave 7 pairs
    in 8 buckets. *)
Lemma load_factor_upper_bound_needs_gap :
  ∃ m0 m : HashMap Z Z,
    HashMap_loadFactors (1 # 2) (3 # 5) = Ok m0
    ∧ run m0 (((λ i, call_insert i i) <$> seqZ 0 8) ++ [call_erase 0]) = Ok m
    ∧ _capacity m = 8 ∧ _size m = 7
    ∧ (_upperLoadFactor m < getLoadFactor m)%Q.
Proof.
  eexists _, _. split; [reflexivity|]. split; [vm_compute; reflexivity|].
  split_and!; [done | done | by vm_compute].
Qed.

Lemma load_factor_upper_invariant_witness :
  (getLoadFactor thirteen <= _upperLoadFactor thirteen)%Q
  ∧ (getLoadFactor shrunk <= _upperLoadFactor shrunk)%Q.
Proof.
  split.
  - apply (load_factor_upper_invariant thirteen_calls fresh thirteen).
    + left. by exists (1 # 4), (3 # 4).
    + vm_compute. reflexivity.
    + vm_compute. discriminate.
  - apply (load_factor_upper_invariant shrink_calls fresh shrunk).
    + left. by exists (1 # 4), (3 # 4).
    + vm_compute. reflexivity.
    + vm_compute. discriminate.
Defined.

Lemma insert_at_erase_containsKey_witness :
  (∃ m', insert three 33 7 = Ok (true, m')
         ∧ at_ m' 33 = Ok 7 ∧ containsKey m' 33 = Ok true)
  ∧ (∃ m, run fresh (take 12 thirteen_calls) = Ok m
          ∧ ∃ m', insert m 12 12 = Ok (true, m')
                  ∧ at_ m' 12 = Ok 12 ∧ containsKey m' 12 = Ok true)
  ∧ (∃ (r : bool) m', erase three 17 = Ok (r, m')
       ∧ (r = true ↔ containsKey three 17 = Ok true)
       ∧ containsKey m' 17 = Ok false).
Proof.
  destruct (insert_at_erase_containsKey three 33 7 three_wf) as (_ & Hinsert & _).
  destruct (insert_at_erase_containsKey three 17 0 three_wf) as (_ & _ & Herase).
  split; [|split; [|exact Herase]].
  - apply Hinsert; [reflexivity | vm_compute; discriminate..].
  - eexists. split; [vm_compute; reflexivity|].
    match goal with
    | |- ∃ m', insert ?m 12 12 = _ ∧ _ =>
        destruct (insert_at_erase_containsKey m 12 12) as (_ & Hgrow & _)
    end.
    + exact (inv_wf _ (run_inv (take 12 thirteen_calls) fresh _
                         (constructed_inv _ fresh_constructed)
                         ltac:(vm_compute; reflexivity))).
    + apply Hgrow; [reflexivity | vm_compute; discriminate..].
Defined.



Lemma capacity_power_of_two_witness :
  (power_of_two (_capacity thirteen) ∧ 1 ≤ _capacity thirteen)
  ∧ (power_of_two (_capacity floor) ∧ 1 ≤ _capacity floor)
  ∧ (power_of_two (_capacity shrunk) ∧ 1 ≤ _capacity shrunk).
Proof.
  split; [|split].
  - destruct (capacity_power_of_two thirteen_calls fresh thirteen) as (Hpow & Hone & _).
    + left. by exists (1 # 4), (3 # 4).
    + vm_compute. reflexivity.
    + by split.
  - destruct (capacity_power_of_two floor_calls fresh floor) as (Hpow & Hone & _).
    + left. by exists (1 # 4), (3 # 4).
    + vm_compute. reflexivity.
    + by split.
  - destruct (capacity_power_of_two shrink_calls fresh shrunk) as (Hpow & Hone & _).
    + left. by exists (1 # 4), (3 # 4).
    + vm_compute. reflexivity.
    + by split.
Defined.

Lemma HashMap_vectors_behaviour_witness :
  HashMap_vectors [1; 17] [10]
  = Throw (invalid_argument DIFFERENT_SIZE_VECTORS_ERROR_MSG)
  ∧ (∃ m, HashMap_vectors [1; 17; 1] [10; 20; 30] = Ok m
          ∧ _size m = 2 ∧ at_ m 1 = Ok 30 ∧ at_ m 17 = Ok 20
          ∧ _capacity m = 16)
  ∧ (∃ m, HashMap_vectors (seqZ 0 25) (seqZ 0 25) = Ok m
          ∧ _size m = 25 ∧ _capacity m = 64).
Proof.
  split_and!.
  - apply (HashMap_vectors_behaviour [1; 17] [10]). simpl. lia.
  - destruct (HashMap_vectors_behaviour [1; 17; 1] [10; 20; 30]) as (_ & Hload & _).
    destruct Hload
      as (m0 & m1 & m & _ & _ & _ & _ & Hm & _ & Hsize & Hat & _ & _ & _
          & j & Hcap & Hmin);
      [reflexivity | vm_compute; discriminate |].
    exists m. split_and!; [done | by rewrite Hsize | by rewrite Hat | by rewrite Hat |].
    destruct j as [|j]; [by rewrite Hcap|].
    exfalso. specialize (Hmin 0%nat ltac:(lia)). rewrite Hsize in Hmin.
    vm_compute in Hmin. discriminate Hmin.
  - destruct (HashMap_vectors_behaviour (seqZ 0 25) (seqZ 0 25)) as (_ & Hload & _).
    destruct Hload
      as (m0 & m1 & m & _ & _ & _ & _ & Hm & _ & Hsize & _ & _ & _ & Hle
          & j & Hcap & Hmin);
      [reflexivity | vm_compute; discriminate |].
    assert (Hsize' : _size m = 25) by (rewrite Hsize; vm_compute; reflexivity).
    exists m. split_and!; [done | done |].
    unfold getLoadFactor in Hle. rewrite Hsize', Hcap in Hle.
    destruct j as [|[|[|j]]].
    + exfalso. vm_compute in Hle. by apply Hle.
    + exfalso. vm_compute in Hle. by apply Hle.
    + by rewrite Hcap.
    + exfalso. specialize (Hmin 2%nat ltac:(lia)). rewrite Hsize' in Hmin.
      vm_compute in Hmin. discriminate Hmin.
Defined.

Lemma eqb_behaviour_witness :
  (∃ r : bool, eqb three thirteen = Ok r)
  ∧ ∃ ma mab mb mba : HashMap Z Z,
      insert fresh 1 10 = Ok (true, ma) ∧ insert ma 17 20 = Ok (true, mab)
      ∧ insert fresh 17 20 = Ok (true, mb) ∧ insert mb 1 10 = Ok (true, mba)
      ∧ iterate mab = Ok [(1, 10); (17, 20)] ∧ iterate mba = Ok [(17, 20); (1, 10)]
      ∧ eqb mab mba = Ok true ∧ eqb mab ma = Ok false.
Proof.
  destruct (eqb_behaviour three thirteen 1 17 10 20) as (Heq & _ & Horder);
    [exact three_wf | exact thirteen_wf | lia |].
  split.
  - destruct Heq as (r & Hr & _). by exists r.
  - destruct Horder as (m0 & ma & mab & mb & mba & Hm0 & Ha & Hab & Hb & Hba
                        & Hequal & _ & Hless & _).
    injection Hm0 as <-. exists ma, mab, mb, mba.
    split_and!; [done | done | done | done | | | done | done].
    + vm_compute in Ha. injection Ha as <-.
      vm_compute in Hab. injection Hab as <-. reflexivity.
    + vm_compute in Hb. injection Hb as <-.
      vm_compute in Hba. injection Hba as <-. reflexivity.
Defined.



Lemma other_keys_untouched_witness :
  (∀ (r : bool) m', insert thirteen 45 9 = Ok (r, m') → at_ m' 12 = Ok 12)
  ∧ (∀ (r : bool) m', erase three 17 = Ok (r, m') → at_ m' 1 = Ok 10)
  ∧ (∀ (v : Z) m', subscript three 33 = Ok (v, m') → at_ m' 17 = Ok 20).
Proof.
  split_and!.
  - intros r m' Hins.
    destruct (other_keys_untouched thirteen 45 12) as (Hinsert & _);
      [exact thirteen_wf | lia |].
    destruct (Hinsert 9 r m' Hins) as [-> _]. reflexivity.
  - intros r m' Her.
    destruct (other_keys_untouched three 17 1) as (_ & Herase & _);
      [exact three_wf | lia |].
    destruct (Herase r m' Her) as [-> _]. reflexivity.
  - intros v m' Hsub.
    destruct (other_keys_untouched three 33 17) as (_ & _ & Hsubscript & _);
      [exact three_wf | lia |].
    destruct (Hsubscript v m' Hsub) as [-> _]. reflexivity.
Defined.

(** Equal bounds of zero, which the constructor accepts, make the first
    [insert] double the capacity until it leaves the range of a [long]. *)
Lemma zero_bounds_insert_overflows :
  ∃ m0 : HashMap Z Z,
    HashMap_loadFactors 0 0 = Ok m0 ∧ insert m0 1 1 = Throw undefined_behaviour.
Proof. eexists. split; [reflexivity | vm_compute; reflexivity]. Qed.

(** After a shrinking rehash the pairs of a bucket stand in the order in which
    the traversal of the old table met them: 9 was inserted before 1, and is
    visited after it. *)
Lemma shrink_orders_bucket_by_traversal :
  ∃ m : HashMap Z Z,
    run fresh [call_insert 9 90; call_insert 1 10; call_insert 2 20; call_erase 2]
    = Ok m
    ∧ _capacity m = 8
    ∧ iterate m = Ok [(1, 10); (9, 90)].
Proof. eexists. split; [vm_compute; reflexivity|]. split; reflexivity. Qed.
End Examples.

(** * The further properties at concrete tables and files *)

Module FurtherExamples.

Import Sample Examples.

Lemma fresh_wf : wf fresh.
Proof. exact (inv_wf _ (constructed_inv _ fresh_constructed)). Qed.

Lemma fresh_lookups (k : Z) : at_ fresh k = lookup_result (None : option Z).
Proof. by rewrite (at_spec fresh k fresh_wf). Qed.

Lemma containsKey_at_agree_witness :
  (∃ c : bool, containsKey three 17 = Ok c)
  ∧ (containsKey three 33 = Ok false
     ↔ at_ three 33 = Throw (out_of_range KEY_DOSENT_EXIST_ERROR)).
Proof.
  destruct (containsKey_at_agree three 17 three_wf) as (Hreturns & _).
  destruct (containsKey_at_agree three 33 three_wf) as (_ & _ & Hthrows).
  by split.
Defined.

Lemma clear_behaviour_witness :
  ∃ m', clear three = Ok m' ∧ _size m' = 0 ∧ iterate m' = Ok [].
Proof.
  destruct (clear_behaviour three three_wf)
    as (m' & Hclear & _ & _ & _ & _ & Hsize & _ & Hiterate & _).
  by exists m'.
Defined.

Lemma accessors_behaviour_witness :
  size three = Z.of_nat (length (concat (_table three)))
  ∧ capacity three = Z.of_nat (length (_table three))
  ∧ (empty three = true ↔ size three = 0).
Proof.
  destruct (accessors_behaviour three three_wf) as (Hsize & Hcapacity & Hempty & _);
    [vm_compute; discriminate | vm_compute; discriminate |].
  by split_and!.
Defined.

Lemma HashMap_loadFactors_behaviour_witness :
  HashMap_loadFactors (K := Z) (V := Z) (3 # 4) (1 # 4)
  = Throw (invalid_argument INVALID_LOAD_FACTORS_LOWER_HIGHER)
  ∧ HashMap_loadFactors (K := Z) (V := Z) (1 # 4) (5 # 4)
    = Throw (invalid_argument INVALID_LOAD_FACTORS_OUT_RANGE)
  ∧ ∃ m : HashMap Z Z, HashMap_loadFactors (1 # 4) (3 # 4) = Ok m ∧ _capacity m = 16.
Proof.
  destruct (HashMap_loadFactors_behaviour (K := Z) (V := Z) (1 # 4) (1 # 4))
    as (Horder & _ & _).
  clear Horder.
  destruct (HashMap_loadFactors_behaviour (K := Z) (V := Z) (3 # 4) (1 # 4))
    as (Horder & _ & _).
  destruct (HashMap_loadFactors_behaviour (K := Z) (V := Z) (1 # 4) (5 # 4))
    as (_ & Hrange & _).
  destruct (HashMap_loadFactors_behaviour (K := Z) (V := Z) (1 # 4) (3 # 4))
    as (_ & _ & Hmakes).
  split_and!.
  - apply Horder. reflexivity.
  - apply Hrange; [vm_compute; discriminate | right; reflexivity].
  - destruct Hmakes as (m & Hm & _ & Hcapacity & _);
      [vm_compute; discriminate | vm_compute; discriminate
      | vm_compute; discriminate |].
    by exists m.
Defined.

Lemma getIndex_is_remainder_witness :
  _getIndex (77 : Z) (2 ^ Z.of_nat 4) = hash (77 : Z) mod 2 ^ Z.of_nat 4
  ∧ 0 ≤ _getIndex (77 : Z) 10 < 10.
Proof.
  apply (getIndex_is_remainder (77 : Z) 4 10); [simpl; lia | unfold LONG_MAX; lia].
Defined.

Lemma HashMap_copy_exact_witness :
  ∃ m', HashMap_copy three = Ok m' ∧ _table m' = _table three.
Proof.
  destruct (HashMap_copy_exact three three_wf) as (m' & Hcopy & Htable & _).
  by exists m'.
Defined.

Lemma eqb_equivalence_witness :
  eqb three three = Ok true
  ∧ ∃ r : bool, eqb three thirteen = Ok r ∧ neqb three thirteen = Ok (negb r).
Proof.
  destruct (eqb_equivalence three thirteen three three_wf thirteen_wf three_wf)
    as (Hrefl & _ & _ & _ & Hneqb).
  split; [|exact Hneqb]. apply Hrefl. split; reflexivity.
Defined.

Lemma operator_assign_behaviour_witness :
  operator_assign thirteen three = Ok three
  ∧ eqb three three = Ok true.
Proof.
  destruct (operator_assign_behaviour thirteen three three_wf) as [Hassign Heq].
  split; [exact Hassign|].
  apply (Heq ltac:(split; reflexivity) three Hassign).
Defined.

Lemma bucketSize_behaviour_witness :
  bucketSize three 33 = Throw (out_of_range KEY_DOSENT_EXIST_ERROR)
  ∧ ∃ n : Z, bucketSize three 17 = Ok n ∧ 1 ≤ n ≤ _size three.
Proof.
  destruct (bucketSize_behaviour three 33 three_wf) as [Habsent _];
    [vm_compute; discriminate|].
  destruct (bucketSize_behaviour three 17 three_wf) as [_ Hpresent];
    [vm_compute; discriminate|].
  destruct (Hpresent eq_refl) as (n & Hn & Hrange & _).
  split; [apply Habsent; reflexivity | by exists n].
Defined.

Lemma advance_behaviour_witness :
  ∃ b e i, begin three = Ok b ∧ end_ three = Ok e ∧ advance 2 three b = Ok i
           ∧ deref three i = Ok (3, 5).
Proof.
  destruct (advance_behaviour three 2 three_wf)
    as (b & e & i & Hb & He & Hi & _ & _ & Hderef); [vm_compute; discriminate|].
  exists b, e, i. split_and!; [done..|]. apply Hderef. reflexivity.
Defined.

Lemma incr_post_behaviour_witness :
  ∃ b i old i',
    cbegin three = Ok b ∧ advance 1 three b = Ok i
    ∧ incr_post three i = Ok (old, i') ∧ deref three old = Ok (17, 20)
    ∧ advance 2 three b = Ok i'.
Proof.
  destruct (incr_post_behaviour three 1 three_wf)
    as (b & e & i & old & i' & Hb & _ & Hi & Hpost & _ & Hnext & Hderef & _);
    [vm_compute; reflexivity|].
  exists b, i, old, i'. split_and!; [done | done | done | | done].
  apply Hderef. reflexivity.
Defined.

Lemma run_refines_model_witness :
  at_ three 17 = lookup_result (model_run (λ _ : Z, None) three_calls 17)
  ∧ containsKey three 5
    = Ok (bool_decide (is_Some (model_run (λ _ : Z, (None : option Z)) three_calls 5))).
Proof.
  pose proof (run_refines_model three_calls fresh (λ _, None) three
                fresh_wf fresh_lookups three_run) as Hmodel.
  split; [apply (Hmodel 17) | apply (Hmodel 5)].
Defined.

Lemma insert_then_erase_witness :
  ∃ m1 m2, insert three 33 7 = Ok (true, m1)
           ∧ erase m1 33 = Ok (true, m2) ∧ _size m2 = _size three.
Proof.
  assert (Hins : ∃ m1, insert three 33 7 = Ok (true, m1))
    by (eexists; vm_compute; reflexivity).
  destruct Hins as [m1 Hins].
  destruct (insert_then_erase three 33 7 m1 three_wf Hins) as (m2 & Her & Hsize & _).
  by exists m1, m2.
Defined.

Lemma subscript_behaviour_witness :
  ∃ (v : Z) m', subscript three 33 = Ok (v, m')
                ∧ at_ m' 33 = Ok v ∧ containsKey m' 33 = Ok true.
Proof.
  assert (Hsub : ∃ (v : Z) m', subscript three 33 = Ok (v, m'))
    by (eexists _, _; vm_compute; reflexivity).
  destruct Hsub as (v & m' & Hsub).
  destruct (subscript_behaviour three 33 v m' three_wf Hsub) as (Hat & Hc & _).
  by exists v, m'.
Defined.

Lemma at_assign_behaviour_witness :
  at_assign three 33 7 = Throw (out_of_range KEY_DOSENT_EXIST_ERROR)
  ∧ ∃ m', at_assign three 17 99 = Ok m' ∧ at_ m' 17 = Ok 99.
Proof.
  destruct (at_assign_behaviour three 33 7 three_wf) as [Habsent _].
  destruct (at_assign_behaviour three 17 99 three_wf) as [_ Hpresent].
  destruct (Hpresent eq_refl) as (m' & Hassign & _ & _ & _ & Hat & _).
  split; [apply Habsent; reflexivity | by exists m'].
Defined.

Lemma subscript_assign_behaviour_witness :
  ∃ m', subscript_assign three 33 7 = Ok m'
        ∧ at_ m' 33 = Ok 7 ∧ containsKey m' 33 = Ok true.
Proof.
  assert (Hassign : ∃ m', subscript_assign three 33 7 = Ok m')
    by (eexists; vm_compute; reflexivity).
  destruct Hassign as [m' Hassign].
  destruct (subscript_assign_behaviour three 33 7 m' three_wf Hassign)
    as (_ & Hat & Hc & _).
  by exists m'.
Defined.

Lemma insert_doubles_at_most_once_witness :
  ∃ m m', run fresh (take 12 thirteen_calls) = Ok m
          ∧ insert m 12 12 = Ok (true, m')
          ∧ _capacity m' = 2 * _capacity m.
Proof.
  assert (Hrun : ∃ m, run fresh (take 12 thirteen_calls) = Ok m
                      ∧ _capacity m = 16
                      ∧ ∃ m', insert m 12 12 = Ok (true, m') ∧ _capacity m' = 32).
  { eexists. split; [vm_compute; reflexivity|]. split; [reflexivity|].
    eexists. split; [vm_compute; reflexivity | reflexivity]. }
  destruct Hrun as (m & Hrun & Hc & m' & Hins & Hc').
  destruct (insert_doubles_at_most_once (take 12 thirteen_calls) fresh m 12 12 true m'
              fresh_constructed Hrun)
    as [[Hfalse _]|[(_ & Hsame & _)|(_ & Hdouble & _)]];
    [vm_compute; discriminate | vm_compute; discriminate | exact Hins | | |].
  - discriminate Hfalse.
  - exfalso. rewrite Hc, Hc' in Hsame. discriminate Hsame.
  - exists m, m'. split; [exact Hrun|]. split; [exact Hins | exact Hdouble].
Defined.


Lemma reachable_tables_well_formed_witness :
  _size thirteen = Z.of_nat (length (concat (_table thirteen)))
  ∧ NoDup (concat (_table thirteen)).*1
  ∧ iterate thirteen = Ok (concat (_table thirteen)).
Proof.
  destruct (reachable_tables_well_formed thirteen_calls fresh thirteen
              fresh_constructed thirteen_run) as (_ & Hsize & Hkeys & _ & Hiterate).
  by split_and!.
Defined.
Import SampleDatabase.
#[local] Existing Instance int_default.

Lemma empty_database_wf : wf empty_database.
Proof. exact (HashMap_loadFactors_wf (1 # 4) (3 # 4) empty_database eq_refl). Qed.

Lemma empty_database_lookups (k : list Z) :
  at_ empty_database k = lookup_result (None : option Z).
Proof. by rewrite (at_spec empty_database k empty_database_wf). Qed.

Lemma createDatabaseMap_loads_witness :
  ∃ f' m',
    createDatabaseMap
      (opened (database_text sample_rows ++ row_line sample_last)) empty_database ∅
    = Returns (f', m',
               list_to_set (length ∘ row_sequence <$> sample_rows ++ [sample_last]) ∪ ∅)
    ∧ at_ m' [97; 98] = Ok 30 ∧ at_ m' [99; 100] = Ok 7
    ∧ at_ m' [65; 98] = Throw (out_of_range KEY_DOSENT_EXIST_ERROR).
Proof.
  destruct (createDatabaseMap_loads sample_rows (Some sample_last) empty_database ∅
              (λ _, None))
    as (f' & m' & Hload & _ & _ & _ & _ & Hat);
    [reflexivity | vm_compute; reflexivity | exact empty_database_wf
    | exact empty_database_lookups | vm_compute; discriminate
    | vm_compute; discriminate | vm_compute; discriminate |].
  exists f', m'. split; [exact Hload|].
  split; [exact (Hat [97; 98])|]. split; [exact (Hat [99; 100]) | exact (Hat [65; 98])].
Defined.

Lemma createDatabaseMap_rejects_witness :
  createDatabaseMap
    (opened (database_text sample_rows ++ 10 :: row_line sample_last)) empty_database ∅
  = Throws InvalidInput
  ∧ createDatabaseMap not_opened empty_database ∅ = Throws InvalidInput.
Proof.
  apply (createDatabaseMap_rejects sample_rows (10 :: row_line sample_last)
           empty_database ∅);
    [reflexivity | vm_compute; reflexivity | exact empty_database_wf
    | vm_compute; discriminate | vm_compute; discriminate
    | vm_compute; discriminate | discriminate | reflexivity].
Defined.

Lemma createDatabaseMap_score_overflow_witness :
  createDatabaseMap
    (opened (database_text sample_rows ++ row_line sample_large ++ [])) empty_database ∅
  = Throws stoi_out_of_range.
Proof.
  apply (createDatabaseMap_score_overflow sample_rows sample_large [] empty_database ∅);
    [reflexivity | reflexivity | vm_compute; reflexivity | by left
    | vm_compute; reflexivity | exact empty_database_wf
    | vm_compute; discriminate | vm_compute; discriminate
    | vm_compute; discriminate].
Defined.

Lemma VALID_LINE_behaviour_witness :
  ∃ sequence number,
    substr [65; 98; 44; 49; 50; 13] 0 (string_find [65; 98; 44; 49; 50; 13] COMMA)
    = Returns sequence
    ∧ substr [65; 98; 44; 49; 50; 13]
        (to_size_t (string_find [65; 98; 44; 49; 50; 13] COMMA + 1)) npos
      = Returns number
    ∧ [65; 98; 44; 49; 50; 13] = sequence ++ COMMA :: number
    ∧ (stoi number = Throws stoi_out_of_range
       ∨ ∃ score, stoi number = Returns score ∧ 0 ≤ score ≤ INT_MAX).
Proof.
  destruct (VALID_LINE_behaviour [65; 98; 44; 49; 50; 13]) as [_ Hcut];
    [vm_compute; reflexivity|].
  apply Hcut. reflexivity.
Defined.
Lemma createDatabaseMap_failures_witness :
  stoi_out_of_range = InvalidInput ∨ stoi_out_of_range = stoi_out_of_range
  ∨ stoi_out_of_range = HashMap_failure undefined_behaviour.
Proof.
  apply (createDatabaseMap_failures
           (opened (database_text sample_rows ++ row_line sample_large))
           empty_database ∅ stoi_out_of_range);
    [exact empty_database_wf | vm_compute; reflexivity | vm_compute; reflexivity].
Defined.
End FurtherExamples.
